(** * Verification model of the Tolstoy comment exporter

    A shallow embedding of [fitgirl_comment_exporter.py]:
    the comment parser, the pagination and thread-completion engine of
    [collect_all_comments], the binary fetcher [url_to_data_uri] with the two
    embedding passes, and the tree assembly of [build_html].

    Conventions.
    - Python [int] is [Z]. A Python [str] is the [string] of the bytes of its
      UTF-8 form: two texts compare as their code points do, and [chars] cuts
      a text into its characters. A [str] with a lone surrogate has no UTF-8
      form and is outside the model.
    - The classes of characters (white space, decimal digits) are those of
      Unicode 14, which CPython 3.11 carries, and [int] of a text has the
      limit of 4300 digits of that interpreter.
    - Values decoded from JSON are the dynamically typed [json] values; every
      Python operation that can raise returns a [res].
    - Network calls and [time.sleep] are events of a trace; the remote side is
      an oracle that answers from the trace so far. *)

From stdpp Require Import gmap strings list sorting pretty.
From Stdlib Require Import ZArith QArith Qpower Ascii.

Set Warnings "-register-all,-clear-no-such-hyp".
Local Open Scope Z_scope.

(** ** Exceptions and fallible results *)

Inductive exn : Type :=
  | KeyError
  | ValueError
  | TypeError
  | AttributeError
  | OverflowError
  | RecursionError
  | RequestException.

Inductive res (A : Type) : Type :=
  | Ok (a : A)
  | Raise (e : exn).

Arguments Ok {A} a.
Arguments Raise {A} e.

Definition rbind {A B : Type} (m : res A) (k : A → res B) : res B :=
  match m with
  | Ok a => k a
  | Raise e => Raise e
  end.

Notation "'let?' x ':=' m 'in' k" := (rbind m (fun x => k))
  (at level 10, x name, m at level 100, k at level 200, only parsing).

Definition is_ok {A : Type} (r : res A) : bool :=
  match r with
  | Ok _ => true
  | Raise _ => false
  end.

(** ** JSON values as Python sees them after [r.json()] *)

(** A float: a finite one with its exact value and with the text [repr] writes
    for it, an infinity or the value that is not a number. The text of a
    finite float is the shortest decimal text that reads back to the same
    float; the model takes it as given, as its first character and the
    rest. *)
Inductive pyfloat : Type :=
  | Finite (value : Q) (first : ascii) (rest : string)
  | Infinity (negative : bool)
  | NaN.

(** A decoded object is kept as its list of bindings; lookup takes the first
    binding of a key. *)
Inductive json : Type :=
  | JNull
  | JBool (b : bool)
  | JInt (n : Z)
  | JFloat (x : pyfloat)
  | JStr (s : string)
  | JArr (xs : list json)
  | JObj (kvs : list (string * json)).

Definition dq : ascii := "034"%char.
Definition sq : ascii := "039"%char.
Definition dqs : string := String dq EmptyString.

(** Python truthiness, as used by [x or d], [bool(x)] and [if x]. *)
Definition truthy (v : json) : bool :=
  match v with
  | JNull => false
  | JBool b => b
  | JInt n => negb (n =? 0)
  | JFloat (Finite q _ _) => negb (Qnum q =? 0)
  | JFloat _ => true
  | JStr s => match s with EmptyString => false | _ => true end
  | JArr xs => match xs with [] => false | _ => true end
  | JObj kvs => match kvs with [] => false | _ => true end
  end.

Definition py_or (v d : json) : json := if truthy v then v else d.

Definition py_bool (v : json) : bool := truthy v.

Fixpoint assoc (k : string) (kvs : list (string * json)) : option json :=
  match kvs with
  | [] => None
  | (k', v) :: kvs' => if String.eqb k k' then Some v else assoc k kvs'
  end.

Definition isinstance_dict (v : json) : bool :=
  match v with
  | JObj _ => true
  | _ => false
  end.

(** [d.get(k, dflt)]: only a dict has the method. *)
Definition dict_get (d : json) (k : string) (dflt : json) : res json :=
  match d with
  | JObj kvs => Ok (default dflt (assoc k kvs))
  | _ => Raise AttributeError
  end.

(** [d[k]] with a string key. *)
Definition dict_item (d : json) (k : string) : res json :=
  match d with
  | JObj kvs =>
      match assoc k kvs with
      | Some v => Ok v
      | None => Raise KeyError
      end
  | _ => Raise TypeError
  end.

(** *** The characters of a text *)

Fixpoint take (n : nat) (s : string) : string :=
  match n, s with
  | S k, String c s' => String c (take k s')
  | _, _ => EmptyString
  end.

(** The payload of a continuation byte of UTF-8. *)
Definition continuation (c : ascii) : option N :=
  let n := N_of_ascii c in
  if (128 <=? n)%N && (n <? 192)%N then Some (n - 128)%N else None.

(** A byte that starts no character of UTF-8 (no text holds one) counts as a
    character of its own, numbered above the code points. *)
Definition stray (n : N) : N * nat := (0x110000 + n, 1%nat)%N.

(** The code point of the character that starts with the byte [a] followed
    by [r], and the number of its bytes: the shortest form only, no
    surrogate, nothing above U+10FFFF. *)
Definition decode (a : ascii) (r : string) : N * nat :=
  let n := N_of_ascii a in
  if (n <? 128)%N then (n, 1%nat)
  else if (n <? 194)%N then stray n
  else if (n <? 224)%N then
    match r with
    | String b _ =>
        match continuation b with
        | Some x => ((n - 192) * 64 + x, 2%nat)%N
        | None => stray n
        end
    | _ => stray n
    end
  else if (n <? 240)%N then
    match r with
    | String b (String c _) =>
        match continuation b, continuation c with
        | Some x, Some y =>
            let cp := ((n - 224) * 4096 + x * 64 + y)%N in
            if (0x800 <=? cp)%N && negb ((0xD800 <=? cp)%N && (cp <? 0xE000)%N)
            then (cp, 3%nat) else stray n
        | _, _ => stray n
        end
    | _ => stray n
    end
  else if (n <? 245)%N then
    match r with
    | String b (String c (String d _)) =>
        match continuation b, continuation c, continuation d with
        | Some x, Some y, Some z =>
            let cp := ((n - 240) * 262144 + x * 4096 + y * 64 + z)%N in
            if (0x10000 <=? cp)%N && (cp <? 0x110000)%N then (cp, 4%nat) else stray n
        | _, _, _ => stray n
        end
    | _ => stray n
    end
  else stray n.

(** The characters of a text, each as its code point and its bytes; [skip]
    counts the bytes that belong to the character before. *)
Fixpoint chars_from (skip : nat) (s : string) : list (N * string) :=
  match s with
  | EmptyString => []
  | String a r =>
      match skip with
      | S k => chars_from k r
      | O =>
          let '(cp, len) := decode a r in
          (cp, take len s) :: chars_from (len - 1) r
      end
  end.

Definition chars (s : string) : list (N * string) := chars_from 0 s.

(** The text of a list of characters. *)
Definition text (cs : list (N * string)) : string :=
  foldr (fun c r => String.app (snd c) r) EmptyString cs.

Fixpoint take_while {A : Type} (f : A → bool) (l : list A) : list A :=
  match l with
  | [] => []
  | x :: l' => if f x then x :: take_while f l' else []
  end.

Fixpoint drop_while {A : Type} (f : A → bool) (l : list A) : list A :=
  match l with
  | [] => []
  | x :: l' => if f x then drop_while f l' else l
  end.

(** The longest prefix of whole characters of [s] whose code points satisfy
    [f], and the rest. *)
Definition span_chars (f : N → bool) (s : string) : string * string :=
  let cs := chars s in
  (text (take_while (fun c => f (fst c)) cs), text (drop_while (fun c => f (fst c)) cs)).

(** *** [str.strip], [int(...)] and [str(...)] *)

(** White space, as [str.isspace], [str.strip] and the class [\s] of a
    pattern on text have it. *)
Definition is_space (cp : N) : bool :=
  ((9 <=? cp) && (cp <=? 13) || (0x1C <=? cp) && (cp <=? 0x20)
   || (cp =? 0x85) || (cp =? 0xA0) || (cp =? 0x1680)
   || (0x2000 <=? cp) && (cp <=? 0x200A)
   || (cp =? 0x2028) || (cp =? 0x2029) || (cp =? 0x202F) || (cp =? 0x205F)
   || (cp =? 0x3000))%N.

(** The characters of [cs] without the ones of class [ws] at both ends. *)
Definition strip_chars (ws : N → bool) (cs : list (N * string)) : list (N * string) :=
  reverse (drop_while (fun c => ws (fst c))
             (reverse (drop_while (fun c => ws (fst c)) cs))).

(** [s.strip()] *)
Definition strip (s : string) : string := text (strip_chars is_space (chars s)).

(** The code points of the digit zero of every script: the nine that follow
    each are its digits one to nine. *)
Definition decimal_zeros : list N :=
  [0x30; 0x660; 0x6F0; 0x7C0; 0x966; 0x9E6; 0xA66; 0xAE6; 0xB66; 0xBE6; 0xC66;
   0xCE6; 0xD66; 0xDE6; 0xE50; 0xED0; 0xF20; 0x1040; 0x1090; 0x17E0; 0x1810;
   0x1946; 0x19D0; 0x1A80; 0x1A90; 0x1B50; 0x1BB0; 0x1C40; 0x1C50; 0xA620;
   0xA8D0; 0xA900; 0xA9D0; 0xA9F0; 0xAA50; 0xABF0; 0xFF10; 0x104A0; 0x10D30;
   0x11066; 0x110F0; 0x11136; 0x111D0; 0x112F0; 0x11450; 0x114D0; 0x11650;
   0x116C0; 0x11730; 0x118E0; 0x11950; 0x11C50; 0x11D50; 0x11DA0; 0x16A60;
   0x16AC0; 0x16B50; 0x1D7CE; 0x1D7D8; 0x1D7E2; 0x1D7EC; 0x1D7F6; 0x1E140;
   0x1E2F0; 0x1E950; 0x1FBF0]%N.

(** The value of a decimal digit: the class [\d] of a pattern on text, and the
    digits [int] reads. *)
Definition decimal_value (cp : N) : option Z :=
  match List.find (fun z => (z <=? cp) && (cp <? z + 10))%N decimal_zeros with
  | Some z => Some (Z.of_N (cp - z))
  | None => None
  end.

Definition is_decimal (cp : N) : bool :=
  match decimal_value cp with
  | Some _ => true
  | None => false
  end.

(** The white space [int] allows around the digits: that of [str.strip]
    without the four separators U+001C to U+001F. *)
Definition is_int_space (cp : N) : bool :=
  is_space cp && negb ((0x1C <=? cp) && (cp <=? 0x1F))%N.

(** Decimal digits, where a single underscore may stand between two digits:
    the number read and the count of the digits. *)
Fixpoint parse_digits (acc : Z) (count : N) (after_digit : bool)
    (cs : list (N * string)) : option (Z * N) :=
  match cs with
  | [] => if after_digit then Some (acc, count) else None
  | c :: cs' =>
      match decimal_value (fst c) with
      | Some d => parse_digits (acc * 10 + d) (count + 1) true cs'
      | None =>
          if (fst c =? 0x5F)%N && after_digit then parse_digits acc count false cs'
          else None
      end
  end.

(** [sys.get_int_max_str_digits()] *)
Definition max_str_digits : N := 4300.

(** The digits after the sign, within the limit. *)
Definition parse_number (negative : bool) (cs : list (N * string)) : option Z :=
  match parse_digits 0 0 false cs with
  | Some (n, count) =>
      if (count <=? max_str_digits)%N then Some (if negative then - n else n)
      else None
  | None => None
  end.

(** [int(s)] for a text: white space around, an optional sign, digits. *)
Definition int_of_str (s : string) : option Z :=
  match strip_chars is_int_space (chars s) with
  | [] => None
  | c :: cs =>
      if (fst c =? 0x2D)%N then parse_number true cs
      else if (fst c =? 0x2B)%N then parse_number false cs
      else parse_number false (c :: cs)
  end.

(** [int(v)]: a float is cut towards zero. *)
Definition py_int (v : json) : res Z :=
  match v with
  | JInt n => Ok n
  | JBool b => Ok (if b then 1 else 0)
  | JFloat (Finite q _ _) => Ok (Z.quot (Qnum q) (Z.pos (Qden q)))
  | JFloat (Infinity _) => Raise OverflowError
  | JFloat NaN => Raise ValueError
  | JStr s =>
      match int_of_str s with
      | Some n => Ok n
      | None => Raise ValueError
      end
  | JNull | JArr _ | JObj _ => Raise TypeError
  end.

Definition hex_digit (n : nat) : ascii :=
  ascii_of_nat (if (n <? 10)%nat then 48 + n else 87 + n)%nat.

Definition repr_char (q c : ascii) : string :=
  let n := nat_of_ascii c in
  if Ascii.eqb c "\"%char then "\\"
  else if Ascii.eqb c q then String "\"%char (String q EmptyString)
  else if (n =? 10)%nat then "\n"
  else if (n =? 13)%nat then "\r"
  else if (n =? 9)%nat then "\t"
  else if (n <? 32)%nat || (n =? 127)%nat then
    String "\"%char (String "x"%char
      (String (hex_digit (n / 16)) (String (hex_digit (n mod 16)) EmptyString)))
  else String c EmptyString.

Fixpoint repr_chars (q : ascii) (s : string) : string :=
  match s with
  | EmptyString => EmptyString
  | String c s' => String.app (repr_char q c) (repr_chars q s')
  end.

Fixpoint contains_char (c : ascii) (s : string) : bool :=
  match s with
  | EmptyString => false
  | String c' s' => Ascii.eqb c c' || contains_char c s'
  end.

Definition repr_str (s : string) : string :=
  let q := if contains_char sq s && negb (contains_char dq s) then dq else sq in
  String q (String.app (repr_chars q s) (String q EmptyString)).

Fixpoint join (sep : string) (xs : list string) : string :=
  match xs with
  | [] => EmptyString
  | [x] => x
  | x :: xs' => String.app x (String.app sep (join sep xs'))
  end.

Fixpoint py_repr (v : json) : string :=
  match v with
  | JNull => "None"
  | JBool b => if b then "True" else "False"
  | JInt n => pretty n
  | JFloat (Finite _ c t) => String c t
  | JFloat (Infinity negative) => if negative then "-inf" else "inf"
  | JFloat NaN => "nan"
  | JStr s => repr_str s
  | JArr xs => String.app "[" (String.app (join ", " (map py_repr xs)) "]")
  | JObj kvs =>
      String.app "{"
        (String.app
           (join ", "
              (map (fun kv => String.app (repr_str (fst kv))
                                (String.app ": " (py_repr (snd kv)))) kvs))
           "}")
  end.

(** [str(v)] *)
Definition py_str (v : json) : string :=
  match v with
  | JStr s => s
  | _ => py_repr v
  end.

(** Iterating a value with [for x in v]. *)
Definition py_iter (v : json) : res (list json) :=
  match v with
  | JArr xs => Ok xs
  | JObj kvs => Ok (map (fun kv => JStr (fst kv)) kvs)
  | JStr s => Ok (map (fun c => JStr (snd c)) (chars s))
  | JNull | JBool _ | JInt _ | JFloat _ => Raise TypeError
  end.


(** ** Data models *)

Module User.
Record t : Type := mk {
  id : Z;
  name : string;
  nick : string;
  ava : string;
  admin : bool;
  is_verified : bool;
  ava_data_uri : string
}.

Definition set_ava_data_uri (u : t) (d : string) : t :=
  mk (id u) (name u) (nick u) (ava u) (admin u) (is_verified u) d.
End User.

Module Comment.
Record t : Type := mk {
  id : Z;
  text_html : string;
  created_iso : string;
  user : User.t;
  rating : Z;
  sort : Z;
  edited : bool;
  fixed : bool;
  comment_type : Z;
  answer_comment_root_id : Z;
  attaches : json;
  parent_id : Z;
  reply_expected : Z
}.

Definition set_parent_id (c : t) (p : Z) : t :=
  mk (id c) (text_html c) (created_iso c) (user c) (rating c) (sort c)
     (edited c) (fixed c) (comment_type c) (answer_comment_root_id c)
     (attaches c) p (reply_expected c).

Definition set_user (c : t) (u : User.t) : t :=
  mk (id c) (text_html c) (created_iso c) u (rating c) (sort c)
     (edited c) (fixed c) (comment_type c) (answer_comment_root_id c)
     (attaches c) (parent_id c) (reply_expected c).
End Comment.

(** ** The three regular expressions, as scanners *)

Fixpoint strip_prefix (p s : string) : option string :=
  match p, s with
  | EmptyString, _ => Some s
  | String a p', String b s' => if Ascii.eqb a b then strip_prefix p' s' else None
  | String _ _, EmptyString => None
  end.

(** The longest prefix of [s] whose bytes satisfy [f], and the rest. *)
Fixpoint span (f : ascii → bool) (s : string) : string * string :=
  match s with
  | EmptyString => (EmptyString, EmptyString)
  | String c s' =>
      if f c then let '(a, b) := span f s' in (String c a, b)
      else (EmptyString, s)
  end.

(** [COM_ANS_RE]: the text [data-id=], a double quote, one or more decimal
    digits (group 1) and a double quote; tried at the start of [s]. *)
Definition com_ans_at (s : string) : option string :=
  match strip_prefix (String.app "data-id=" dqs) s with
  | Some r =>
      let '(ds, r') := span_chars is_decimal r in
      match ds, r' with
      | String _ _, String c _ => if Ascii.eqb c dq then Some ds else None
      | _, _ => None
      end
  | None => None
  end.

(** [COM_ANS_RE.search(s)]: the leftmost match. *)
Fixpoint COM_ANS_RE_search (s : string) : option string :=
  match com_ans_at s with
  | Some ds => Some ds
  | None =>
      match s with
      | EmptyString => None
      | String _ s' => COM_ANS_RE_search s'
      end
  end.

(** [RE.findall(s)] for a pattern with one group that never matches the empty
    string and starts with a letter of ASCII: [at_] tries the pattern at the
    start of a suffix and returns the group with the number of bytes of the
    whole match; the scan resumes after it. *)
Fixpoint findall (at_ : string → option (string * nat)) (skip : nat) (s : string)
  : list string :=
  match s with
  | EmptyString => []
  | String _ s' =>
      match skip with
      | S k => findall at_ k s'
      | O =>
          match at_ s with
          | Some (g, len) => g :: findall at_ (len - 1) s'
          | None => findall at_ 0 s'
          end
      end
  end.

(** [HREF_RE]: the text [href=], a double quote, one or more characters other
    than the double quote (group 1) and a double quote. *)
Definition href_at (s : string) : option (string * nat) :=
  match strip_prefix (String.app "href=" dqs) s with
  | Some r =>
      let '(u, r') := span (fun c => negb (Ascii.eqb c dq)) r in
      match u, r' with
      | String _ _, String _ _ => Some (u, (6 + String.length u + 1)%nat)
      | _, _ => None
      end
  | None => None
  end.

Definition HREF_RE_findall (s : string) : list string := findall href_at 0 s.

(** [str.lower] on the letters of ASCII. Of the characters outside ASCII two
    have a letter of ASCII in their lower case: U+212A gives [k], which no
    suffix of [IMAGE_EXTS] holds, and U+0130 gives [i] followed by U+0307;
    so the suffix test of [looks_like_image] sees no other change of case. *)
Definition lower_char (c : ascii) : ascii :=
  let n := nat_of_ascii c in
  if (65 <=? n)%nat && (n <=? 90)%nat then ascii_of_nat (n + 32) else c.

Fixpoint lower (s : string) : string :=
  match s with
  | EmptyString => EmptyString
  | String c s' => String (lower_char c) (lower s')
  end.

(** A literal prefix matched under [re.IGNORECASE]. *)
Fixpoint strip_prefix_ci (p s : string) : option string :=
  match p, s with
  | EmptyString, _ => Some s
  | String a p', String b s' =>
      if Ascii.eqb (lower_char a) (lower_char b) then strip_prefix_ci p' s' else None
  | String _ _, EmptyString => None
  end.

(** The class of [PLAIN_URL_RE]: neither white space, angle brackets nor
    quotes. *)
Definition url_char (cp : N) : bool :=
  negb (is_space cp || (cp =? 0x3C) || (cp =? 0x3E) || (cp =? 0x22) || (cp =? 0x27))%N.

(** The letter [s] under [re.IGNORECASE]: [s], [S] or the long s (U+017F);
    the rest and the number of bytes matched. *)
Definition strip_s (r : string) : option (string * nat) :=
  match strip_prefix_ci "s" r with
  | Some r0 => Some (r0, 1%nat)
  | None =>
      match strip_prefix "ſ" r with
      | Some r0 => Some (r0, 2%nat)
      | None => None
      end
  end.

(** [PLAIN_URL_RE] with [re.IGNORECASE]: [http], an optional [s] (tried first,
    then skipped), [://] and one or more characters that are neither white
    space, angle brackets nor quotes; the whole match is the group, returned
    with the number of its bytes. *)
Definition plain_url_at (s : string) : option (string * nat) :=
  match strip_prefix_ci "http" s with
  | Some r =>
      let tail (hd : nat) (r0 : string) : option (string * nat) :=
        match strip_prefix "://" r0 with
        | Some r1 =>
            match span_chars url_char r1 with
            | (String c u, _) =>
                let len := (hd + 3 + String.length (String c u))%nat in
                Some (take len s, len)
            | _ => None
            end
        | None => None
        end in
      match strip_s r with
      | Some (r0, k) =>
          match tail (4 + k)%nat r0 with
          | Some m => Some m
          | None => tail 4%nat r
          end
      | None => tail 4%nat r
      end
  | None => None
  end.

Definition PLAIN_URL_RE_findall (s : string) : list string :=
  findall plain_url_at 0 s.

Definition IMAGE_EXTS : list string := [".png"; ".jpg"; ".jpeg"; ".webp"; ".gif"].

Definition endswith (s suf : string) : bool :=
  String.prefix (String.rev suf) (String.rev s).

(** [url.split("?")[0]] *)
Definition before_query (url : string) : string :=
  fst (span (fun c => negb (Ascii.eqb c "?"%char)) url).

Definition looks_like_image (url : string) : bool :=
  let low := lower (before_query url) in
  existsb (endswith low) IMAGE_EXTS.

(** ** Parsing *)

Definition parse_user (u : json) : res User.t :=
  let? v_id := dict_get u "id" (JInt 0) in
  let? id := py_int v_id in
  let? v_name := dict_get u "name" JNull in
  let? v_nick := dict_get u "nick" JNull in
  let? v_ava := dict_get u "ava" JNull in
  let? v_admin := dict_get u "admin" (JBool false) in
  let? v_verified := dict_get u "is_verified" (JBool false) in
  Ok (User.mk id
        (py_str (py_or v_name (JStr EmptyString)))
        (py_str (py_or v_nick (JStr EmptyString)))
        (py_str (py_or v_ava (JStr EmptyString)))
        (py_bool v_admin)
        (py_bool v_verified)
        EmptyString).

Definition parse_comment (c : json) : res Comment.t :=
  let? v_raiting := dict_get c "raiting" JNull in
  let? rating_val :=
    (if isinstance_dict v_raiting then
       let? r := dict_item c "raiting" in
       let? v := dict_get r "val" (JInt 0) in
       py_int v
     else Ok 0) in
  let? v_count := dict_get c "answer_comment_count" (JInt 0) in
  let? reply_expected := py_int (py_or v_count (JInt 0)) in
  let? v_id := dict_item c "id" in
  let? id := py_int v_id in
  let? v_text := dict_get c "text_template" JNull in
  let? v_created := dict_get c "data_create" JNull in
  let? v_user := dict_get c "user" JNull in
  let? user := parse_user (py_or v_user (JObj [])) in
  let? v_sort := dict_get c "sort" (JInt 0) in
  let? sort := py_int v_sort in
  let? v_edited := dict_get c "edited" (JBool false) in
  let? v_fixed := dict_get c "fixed" (JBool false) in
  let? v_type := dict_get c "comment_type" (JInt 0) in
  let? comment_type := py_int v_type in
  let? v_root := dict_get c "answer_comment_root_id" (JInt 0) in
  let? root_id := py_int (py_or v_root (JInt 0)) in
  let? v_attaches := dict_get c "attaches" JNull in
  let text_html := py_str (py_or v_text (JStr EmptyString)) in
  let? parent_id :=
    match COM_ANS_RE_search text_html with
    | Some ds => py_int (JStr ds)
    | None => Ok 0
    end in
  Ok (Comment.mk id text_html
        (py_str (py_or v_created (JStr EmptyString)))
        user rating_val sort
        (py_bool v_edited) (py_bool v_fixed)
        comment_type root_id
        (py_or v_attaches (JArr []))
        parent_id reply_expected).

(** ** Python's [sorted] *)

(** [sorted] is a stable sort: the model is the stable insertion sort, where an
    element goes in front of the first element that is not smaller. With
    [reverse=True] CPython reverses the list, sorts it and reverses the result,
    so that equal keys keep their original order. *)
Section py_sorted.
Context {A : Type} (le : A → A → bool).

Fixpoint sorted_insert (x : A) (l : list A) : list A :=
  match l with
  | [] => [x]
  | y :: l' => if le x y then x :: l else y :: sorted_insert x l'
  end.

Definition py_sorted (l : list A) : list A := foldr sorted_insert [] l.

Definition py_sorted_reverse (l : list A) : list A := reverse (py_sorted (reverse l)).
End py_sorted.

Definition le_key {A : Type} (key : A → Z) (x y : A) : bool := key x <=? key y.

(** ** Image links of one comment *)

Definition add_if_image (urls : gset string) (u : string) : gset string :=
  if looks_like_image u then {[u]} ∪ urls else urls.

(** [u.split(...)] needs a string. *)
Definition as_str (v : json) : res string :=
  match v with
  | JStr s => Ok s
  | _ => Raise AttributeError
  end.

Definition is_richpreview (v : json) : bool :=
  match v with
  | JStr s => String.eqb s "richpreview"
  | _ => false
  end.

Fixpoint add_attach_urls (urls : gset string) (atts : list json) : res (gset string) :=
  match atts with
  | [] => Ok urls
  | a :: rest =>
      let? ty := dict_get a "type" JNull in
      if is_richpreview ty then
        let? v_data := dict_get a "data" JNull in
        let data := py_or v_data (JObj []) in
        let? v_url := dict_get data "url" JNull in
        let? u := as_str (py_or v_url (JStr EmptyString)) in
        add_attach_urls (add_if_image urls u) rest
      else add_attach_urls urls rest
  end.

Definition discover_image_links (c : Comment.t) : res (list string) :=
  let urls := foldl add_if_image ∅ (HREF_RE_findall (Comment.text_html c)) in
  let urls := foldl add_if_image urls (PLAIN_URL_RE_findall (Comment.text_html c)) in
  let? atts := py_iter (py_or (Comment.attaches c) (JArr [])) in
  let? urls := add_attach_urls urls atts in
  Ok (py_sorted String.leb (elements urls)).

(** ** The network, as a trace and an oracle *)

Inductive request : Type :=
  | FirstPage (game_url : string)
  | PageCall (site_id : Z) (hash_val game_url : string) (cursor_sort : Z)
  | ThreadCall (site_id : Z) (hash_val game_url : string) (root_id : Z)
  | ImageGet (url : string).

Inductive event : Type :=
  | Request (r : request)
  | Sleep (seconds : Q).

(** A trace: the events so far, most recent first. *)
Abbreviation trace := (list event) (only parsing).

Record http_response : Type := {
  status_code : Z;
  content : list Byte.byte;
  content_type : option string
}.

(** What the remote side answers, given everything that happened before.
    [None] stands for a [requests.RequestException] ([get_json] raises one on a
    transport failure, a non-success status or an undecodable body;
    [session.get] on a transport failure). The per-request timeout and the
    headers go to the network unchanged and are part of the oracle. *)
Record world : Type := {
  api : trace → request → option json;
  fetch : trace → string → option http_response
}.

(** Computations that extend the trace and may raise. *)
Definition M (A : Type) : Type := trace → res A * trace.

Definition ret {A : Type} (a : A) : M A := fun tr => (Ok a, tr).

Definition raise {A : Type} (e : exn) : M A := fun tr => (Raise e, tr).

Definition bind {A B : Type} (m : M A) (k : A → M B) : M B :=
  fun tr =>
    match m tr with
    | (Ok a, tr') => k a tr'
    | (Raise e, tr') => (Raise e, tr')
    end.

Definition lift {A : Type} (r : res A) : M A := fun tr => (r, tr).

Notation "'let!' x ':=' m 'in' k" := (bind m (fun x => k))
  (at level 10, x name, m at level 100, k at level 200, only parsing).

Definition sleep (seconds : Q) : M unit := fun tr => (Ok tt, Sleep seconds :: tr).

(** [try: m except requests.RequestException: h] *)
Definition except_request {A : Type} (m : M A) (h : M A) : M A :=
  fun tr =>
    match m tr with
    | (Raise RequestException, tr') => h tr'
    | r => r
    end.

(** ** Binary embedding *)

Definition b64_char (n : N) : ascii :=
  ascii_of_N
    (if (n <? 26)%N then 65 + n
     else if (n <? 52)%N then 97 + (n - 26)
     else if (n <? 62)%N then 48 + (n - 52)
     else if (n =? 62)%N then 43 else 47)%N.

(** [base64.b64encode(bs).decode("ascii")] *)
Fixpoint b64encode (bs : list Byte.byte) : string :=
  match bs with
  | [] => EmptyString
  | [a] =>
      let n := (Byte.to_N a * 16)%N in
      String (b64_char (n / 64)) (String (b64_char (n mod 64)) "==")
  | [a; b] =>
      let n := ((Byte.to_N a * 256 + Byte.to_N b) * 4)%N in
      String (b64_char (n / 4096))
        (String (b64_char ((n / 64) mod 64)) (String (b64_char (n mod 64)) "="))
  | a :: b :: c :: rest =>
      let n := ((Byte.to_N a * 256 + Byte.to_N b) * 256 + Byte.to_N c)%N in
      String (b64_char (n / 262144))
        (String (b64_char ((n / 4096) mod 64))
           (String (b64_char ((n / 64) mod 64))
              (String (b64_char (n mod 64)) (b64encode rest))))
  end.

(** The media type: the header up to the first semicolon, stripped, or the
    generic binary type. *)
Definition media_type (resp : http_response) : string :=
  let raw := default EmptyString (content_type resp) in
  let first := fst (span (fun c => negb (Ascii.eqb c ";"%char)) raw) in
  match strip first with
  | EmptyString => "application/octet-stream"
  | t => t
  end.

Definition data_uri (resp : http_response) : string :=
  String.app "data:"
    (String.app (media_type resp)
       (String.app ";base64," (b64encode (content resp)))).

Definition usable (resp : http_response) : bool :=
  (status_code resp =? 200) && match content resp with [] => false | _ => true end.

(** The [meta] dict returned by [collect_all_comments]. *)
Module Meta.
Record t : Type := mk {
  title : string;
  site_id : Z;
  hash : string;
  total_reported : Z;
  pages : Z
}.
End Meta.

Section engine.
Variable W : world.

(** [session.get(url, ...)] for a binary: [None] when it raised. *)
Definition session_get (url : string) : M (option http_response) :=
  fun tr => (Ok (fetch W tr url), Request (ImageGet url) :: tr).

(** The [for _ in range(n)] loop of [url_to_data_uri], with the current
    [delay]. *)
Fixpoint retry_loop (n : nat) (delay : Q) (url : string) : M (option string) :=
  match n with
  | O => ret None
  | S n' =>
      let! r := session_get url in
      match r with
      | Some resp =>
          if usable resp then ret (Some (data_uri resp))
          else
            let! _ := sleep delay in
            retry_loop n' (delay * 2)%Q url
      | None =>
          let! _ := sleep delay in
          retry_loop n' (delay * 2)%Q url
      end
  end.

Definition url_to_data_uri (url : string) (max_retries : Z) : M (option string) :=
  retry_loop (Z.to_nat max_retries) (1 # 4)%Q url.

(** The [for url in urls: cache[url] = url_to_data_uri(...); sleep(0.05)]
    loop of both passes, over the set's elements in iteration order. *)
Fixpoint fill_cache (urls : list string) (cache : gmap string (option string))
  : M (gmap string (option string)) :=
  match urls with
  | [] => ret cache
  | url :: rest =>
      let! d := url_to_data_uri url 3 in
      let! _ := sleep (1 # 20)%Q in
      fill_cache rest (<[url := d]> cache)
  end.

(** [cache.get(k)] when it is truthy. *)
Definition cache_hit (cache : gmap string (option string)) (k : string)
  : option string :=
  match cache !! k with
  | Some (Some (String c d)) => Some (String c d)
  | _ => None
  end.

Definition nonempty (s : string) : bool :=
  match s with
  | EmptyString => false
  | String _ _ => true
  end.

Definition avatar_urls (comments : list Comment.t) : gset string :=
  foldl (fun urls c =>
           if nonempty (User.ava (Comment.user c))
           then {[User.ava (Comment.user c)]} ∪ urls else urls)
        ∅ comments.

Definition backfill_avatar (cache : gmap string (option string)) (c : Comment.t)
  : Comment.t :=
  let u := Comment.user c in
  if nonempty (User.ava u) then
    match cache_hit cache (User.ava u) with
    | Some d => Comment.set_user c (User.set_ava_data_uri u d)
    | None => c
    end
  else c.

(** [embed_avatars] mutates the comments in place; the model returns the list
    after the call. *)
Definition embed_avatars (comments : list Comment.t) : M (list Comment.t) :=
  let! cache := fill_cache (elements (avatar_urls comments)) ∅ in
  ret (map (backfill_avatar cache) comments).

(** First loop of [embed_linked_images]: the links of each comment and the
    set of all of them. *)
Fixpoint gather_links (comments : list Comment.t)
    (per_comment_urls : gmap Z (list string)) (all_urls : gset string)
  : res (gmap Z (list string) * gset string) :=
  match comments with
  | [] => Ok (per_comment_urls, all_urls)
  | c :: rest =>
      let? ulist := discover_image_links c in
      match ulist with
      | [] => gather_links rest per_comment_urls all_urls
      | _ =>
          gather_links rest (<[Comment.id c := ulist]> per_comment_urls)
            (list_to_set ulist ∪ all_urls)
      end
  end.

Definition resolved_items (cache : gmap string (option string)) (ulist : list string)
  : list (string * string) :=
  omap (fun u => match cache_hit cache u with
                 | Some d => Some (u, d)
                 | None => None
                 end) ulist.

(** Last loop of [embed_linked_images]: a comment gets an entry when one of
    its links resolved. Each key of [per_comment_urls] is visited once, so
    the resulting dict does not depend on the order of the visit. *)
Definition items_by_comment (cache : gmap string (option string))
    (per_comment_urls : gmap Z (list string)) : gmap Z (list (string * string)) :=
  omap (fun ulist => match resolved_items cache ulist with
                     | [] => None
                     | items => Some items
                     end) per_comment_urls.

Definition embed_linked_images (comments : list Comment.t)
  : M (gmap Z (list (string * string))) :=
  let! g := lift (gather_links comments ∅ ∅) in
  let! cache := fill_cache (elements (snd g)) ∅ in
  ret (items_by_comment cache (fst g)).
(** ** Collection *)

(** [get_json]: the decoded body, or the exception. *)
Definition get_json (r : request) : M json :=
  fun tr =>
    (match api W tr r with
     | Some j => Ok j
     | None => Raise RequestException
     end, Request r :: tr).

Definition first_page (game_url : string) : M json :=
  get_json (FirstPage game_url).

Definition page_call (site_id : Z) (hash_val game_url : string) (cursor_sort : Z)
  : M json :=
  get_json (PageCall site_id hash_val game_url cursor_sort).

Definition thread_call (site_id : Z) (hash_val game_url : string) (root_id : Z)
  : M json :=
  get_json (ThreadCall site_id hash_val game_url root_id).

(** The loop [for c in raws: cm = parse_comment(c); if cm.id not in seen:
    seen.add(cm.id); comments.append(cm); added += 1]. *)
Fixpoint merge_records (raws : list json) (seen : gset Z)
    (comments : list Comment.t) (added : Z)
  : res (gset Z * list Comment.t * Z) :=
  match raws with
  | [] => Ok (seen, comments, added)
  | c :: rest =>
      let? cm := parse_comment c in
      if decide (Comment.id cm ∈ seen)
      then merge_records rest seen comments added
      else merge_records rest ({[Comment.id cm]} ∪ seen) (comments ++ [cm]) (added + 1)
  end.

(** [min((c.sort for c in comments), default=0)] *)
Definition current_min_sort (comments : list Comment.t) : Z :=
  match comments with
  | [] => 0
  | c :: cs => foldl Z.min (Comment.sort c) (map Comment.sort cs)
  end.

(** The exit the pagination loop took (not a value of the program: it names
    the [break] or the loop condition that ended the loop). *)
Inductive stop_reason : Type :=
  | CapReached
  | CursorNotPositive
  | EmptyPage
  | NothingNew.

Record paged : Type := {
  p_stop : stop_reason;
  p_pages_done : Z;
  p_seen : gset Z;
  p_comments : list Comment.t
}.

(** The [while pages_done < max_pages] loop; [remaining] is
    [max_pages - pages_done], which an iteration that goes on lowers by one. *)
Fixpoint paginate (remaining : nat) (site_id : Z) (hash_val game_url : string)
    (pages_done : Z) (seen : gset Z) (comments : list Comment.t) : M paged :=
  match remaining with
  | O => ret (Build_paged CapReached pages_done seen comments)
  | S n =>
      let cursor := current_min_sort comments in
      if cursor <=? 0 then ret (Build_paged CursorNotPositive pages_done seen comments)
      else
        let! resp := page_call site_id hash_val game_url cursor in
        let pages_done := pages_done + 1 in
        let! v_data := lift (dict_get resp "data" JNull) in
        let data_p := py_or v_data (JObj []) in
        let! v_comments := lift (dict_get data_p "comments" JNull) in
        let new_raw := py_or v_comments (JArr []) in
        if negb (truthy new_raw) then ret (Build_paged EmptyPage pages_done seen comments)
        else
          let! raws := lift (py_iter new_raw) in
          let! m := lift (merge_records raws seen comments 0) in
          let '(seen', comments', added) := m in
          if added =? 0 then ret (Build_paged NothingNew pages_done seen' comments')
          else
            let! _ := sleep (3 # 25)%Q in
            paginate n site_id hash_val game_url pages_done seen' comments'
  end.

Definition is_root (c : Comment.t) : bool := Comment.answer_comment_root_id c =? 0.

Definition count_reply (by_root_count : gmap Z Z) (c : Comment.t) : gmap Z Z :=
  if is_root c then by_root_count
  else
    let r := Comment.answer_comment_root_id c in
    <[r := default 0 (by_root_count !! r) + 1]> by_root_count.

(** [sum(1 for c in comments if c.answer_comment_root_id == root_id)] *)
Definition count_in_thread (root_id : Z) (comments : list Comment.t) : Z :=
  Z.of_nat (length (filter (fun c => Comment.answer_comment_root_id c = root_id) comments)).

(** The loop over the roots of step 3, over the list [roots] taken before
    the loop. *)
Fixpoint complete_threads (roots : list Comment.t) (site_id : Z)
    (hash_val game_url : string) (seen : gset Z) (comments : list Comment.t)
    (by_root_count : gmap Z Z) : M (gset Z * list Comment.t * gmap Z Z) :=
  match roots with
  | [] => ret (seen, comments, by_root_count)
  | root :: rest =>
      let expected := Comment.reply_expected root in
      let have := default 0 (by_root_count !! Comment.id root) in
      if expected >? have then
        let! t :=
          except_request
            (let! tdata := thread_call site_id hash_val game_url (Comment.id root) in
             ret (Some tdata))
            (ret None) in
        match t with
        | None =>
            complete_threads rest site_id hash_val game_url seen comments by_root_count
        | Some tdata =>
            let! v_data := lift (dict_get tdata "data" JNull) in
            let! v_comments :=
              lift (dict_get (py_or v_data (JObj [])) "comments" JNull) in
            let! raws := lift (py_iter (py_or v_comments (JArr []))) in
            let! m := lift (merge_records raws seen comments 0) in
            let '(seen', comments', added) := m in
            let by_root_count' :=
              if added =? 0 then by_root_count
              else <[Comment.id root := count_in_thread (Comment.id root) comments']>
                     by_root_count in
            let! _ := sleep (2 # 25)%Q in
            complete_threads rest site_id hash_val game_url seen' comments' by_root_count'
        end
      else complete_threads rest site_id hash_val game_url seen comments by_root_count
  end.

(** What step 1 leaves: the chat metadata and the first batch, merged. *)
Record batch : Type := {
  b_site_id : Z;
  b_hash_val : string;
  b_title : string;
  b_total_count : Z;
  b_seen : gset Z;
  b_comments : list Comment.t
}.

(** Step 1 of [collect_all_comments]: the first page. *)
Definition initial_batch (game_url : string) : M batch :=
  let! initial := first_page game_url in
  let! v_data := lift (dict_get initial "data" JNull) in
  let data := py_or v_data (JObj []) in
  let! v_chat := lift (dict_get data "chat" JNull) in
  let chat := py_or v_chat (JObj []) in
  let! v_comments := lift (dict_get data "comments" JNull) in
  let comments_raw := py_or v_comments (JArr []) in
  let! v_site := lift (dict_get chat "site_id" (JInt 6289)) in
  let! site_id := lift (py_int v_site) in
  let! v_hash := lift (dict_get chat "hash" JNull) in
  let hash_val := py_str (py_or v_hash (JStr "null")) in
  let! v_title := lift (dict_get chat "title" JNull) in
  let title := py_str (py_or v_title (JStr "FitGirl Comments")) in
  let! v_total := lift (dict_get chat "count_comment_all" (JInt 0)) in
  let! total_count := lift (py_int v_total) in
  let! raws := lift (py_iter comments_raw) in
  let! m := lift (merge_records raws ∅ [] 0) in
  let '(seen, comments, _) := m in
  ret (Build_batch site_id hash_val title total_count seen comments).

(** Step 3 of [collect_all_comments]: the counts per root, the roots, and
    the loop over them. *)
Definition thread_completion (site_id : Z) (hash_val game_url : string)
    (seen : gset Z) (comments : list Comment.t)
  : M (gset Z * list Comment.t * gmap Z Z) :=
  let by_root_count := foldl count_reply ∅ comments in
  let roots := filter (fun c => is_root c = true) comments in
  complete_threads roots site_id hash_val game_url seen comments by_root_count.

Definition collect_all_comments (game_url : string) (max_pages : Z)
  : M (Meta.t * list Comment.t * gmap Z (list (string * string))) :=
  (* 1) initial batch *)
  let! b := initial_batch game_url in
  (* 2) paginate older *)
  let! p := paginate (Z.to_nat max_pages) (b_site_id b) (b_hash_val b) game_url 0
              (b_seen b) (b_comments b) in
  (* 3) per-thread completion via rootid *)
  let! t := thread_completion (b_site_id b) (b_hash_val b) game_url
              (p_seen p) (p_comments p) in
  let '(_, comments, _) := t in
  (* 4) avatars *)
  let! comments := embed_avatars comments in
  (* 5) linked-image embedding *)
  let! imgs_by_comment := embed_linked_images comments in
  ret (Meta.mk (b_title b) (b_site_id b) (b_hash_val b) (b_total_count b) (p_pages_done p),
       comments, imgs_by_comment).
End engine.

(** ** Escaping *)

(** [s.replace(c, by)] for a pattern of one character. *)
Fixpoint replace_char (c : ascii) (by_ : string) (s : string) : string :=
  match s with
  | EmptyString => EmptyString
  | String a s' =>
      if Ascii.eqb a c then String.app by_ (replace_char c by_ s')
      else String a (replace_char c by_ s')
  end.

(** [html.escape(s, quote)]: the replacements of the library, in its order,
    the ampersand first. *)
Definition html_escape (s : string) (quotes : bool) : string :=
  let s := replace_char "&"%char "&amp;" s in
  let s := replace_char "<"%char "&lt;" s in
  let s := replace_char ">"%char "&gt;" s in
  if quotes then
    let s := replace_char dq "&quot;" s in
    replace_char sq "&#x27;" s
  else s.

Definition safe_attr (s : string) : string := html_escape s true.

(** ** The query strings of the three calls *)

Definition BASE : string := "https://web.tolstoycomments.com/api/chatpage".

Definition is_alpha (c : ascii) : bool :=
  let n := nat_of_ascii c in
  ((65 <=? n)%nat && (n <=? 90)%nat) || ((97 <=? n)%nat && (n <=? 122)%nat).

Definition is_digit (c : ascii) : bool :=
  let n := nat_of_ascii c in (48 <=? n)%nat && (n <=? 57)%nat.

(** The characters [quote] never escapes when [safe] is empty, as
    [urlencode] calls it: letters, digits and the four marks. *)
Definition always_safe (c : ascii) : bool :=
  is_alpha c || is_digit c || Ascii.eqb c "_"%char || Ascii.eqb c "."%char
  || Ascii.eqb c "-"%char || Ascii.eqb c "~"%char.

Definition hex_upper (n : nat) : ascii :=
  ascii_of_nat (if (n <? 10)%nat then 48 + n else 55 + n)%nat.

Definition quote_char (c : ascii) : string :=
  if always_safe c then String c EmptyString
  else
    let n := nat_of_ascii c in
    String "%"%char (String (hex_upper (n / 16)) (String (hex_upper (n mod 16)) EmptyString)).

(** [urllib.parse.quote(s, safe=...)] with an empty [safe]. *)
Fixpoint quote (s : string) : string :=
  match s with
  | EmptyString => EmptyString
  | String c s' => String.app (quote_char c) (quote s')
  end.

(** [urlencode(params, quote_via=quote)]: the pairs in the order of the dict,
    every key and every value through [str] and [quote]. *)
Definition urlencode (params : list (string * json)) : string :=
  join "&"
    (map (fun kv => String.app (quote (fst kv))
                      (String.app "=" (quote (py_str (snd kv))))) params).

Definition first_page_url (game_url : string) : string :=
  String.app BASE
    (String.app "/first?"
       (urlencode [("siteid", JInt 6289); ("hash", JStr "null"); ("url", JStr game_url);
                   ("sort", JInt 1); ("format", JInt 1)])).

Definition page_call_url (site_id : Z) (hash_val game_url : string) (cursor_sort : Z)
  : string :=
  String.app BASE
    (String.app "/page?"
       (urlencode [("siteid", JInt site_id); ("hash", JStr hash_val); ("url", JStr game_url);
                   ("page", JStr (py_str (JInt cursor_sort))); ("down", JStr "true");
                   ("sort", JInt 1); ("format", JInt 1)])).

Definition thread_call_url (site_id : Z) (hash_val game_url : string) (root_id : Z)
  : string :=
  String.app BASE
    (String.app "/first?"
       (urlencode [("siteid", JInt site_id); ("hash", JStr hash_val); ("url", JStr game_url);
                   ("rootid", JInt root_id); ("sort", JInt 1); ("format", JInt 1)])).

(** The address a request goes to. *)
Definition request_url (r : request) : string :=
  match r with
  | FirstPage game_url => first_page_url game_url
  | PageCall site_id hash_val game_url cursor_sort =>
      page_call_url site_id hash_val game_url cursor_sort
  | ThreadCall site_id hash_val game_url root_id =>
      thread_call_url site_id hash_val game_url root_id
  | ImageGet url => url
  end.

(** ** The name of the output file *)

(** [s.strip(c)] for one character. *)
Fixpoint lstrip_char (c : ascii) (s : string) : string :=
  match s with
  | EmptyString => EmptyString
  | String a s' => if Ascii.eqb a c then lstrip_char c s' else s
  end.

Fixpoint rstrip_char (c : ascii) (s : string) : string :=
  match s with
  | EmptyString => EmptyString
  | String a s' =>
      match rstrip_char c s' with
      | EmptyString => if Ascii.eqb a c then EmptyString else String a EmptyString
      | t => String a t
      end
  end.

Definition strip_char (c : ascii) (s : string) : string :=
  rstrip_char c (lstrip_char c s).

(** [s.split(sep)] for a separator of one character: never an empty list. *)
Fixpoint split (sep : ascii) (s : string) : list string :=
  match s with
  | EmptyString => [EmptyString]
  | String a s' =>
      if Ascii.eqb a sep then EmptyString :: split sep s'
      else
        match split sep s' with
        | x :: xs => String a x :: xs
        | [] => [String a EmptyString]
        end
  end.

(** The name [main] derives from the address: the last segment of the path, or
    a fixed one. *)
Definition default_out_path (game_url : string) : string :=
  let slug := default EmptyString (last (split "/"%char (strip_char "/"%char game_url))) in
  String.app (if nonempty slug then slug else "fitgirl-comments") "-comments.html".

(** [args.output or f"...-comments.html"] *)
Definition out_path (output : option string) (game_url : string) : string :=
  match output with
  | Some (String c o) => String c o
  | _ => default_out_path game_url
  end.

(** ** The markup of one comment *)

(** A markup literal, written with a backquote where the source has a double
    quote. *)
Fixpoint markup (s : string) : string :=
  match s with
  | EmptyString => EmptyString
  | String c s' => String (if Ascii.eqb c "`"%char then dq else c) (markup s')
  end.

Definition nl : string := String (ascii_of_nat 10) EmptyString.

Definition display_name (u : User.t) : string :=
  if nonempty (User.name u) then User.name u
  else if nonempty (User.nick u) then User.nick u
  else String.app "User " (py_str (JInt (User.id u))).

Definition render_badges (u : User.t) : string :=
  let xs := [] in
  let xs := if User.admin u then xs ++ [markup "<span class=`badge admin`>Admin</span>"] else xs in
  let xs := if User.is_verified u
            then xs ++ [markup "<span class=`badge verified`>Verified</span>"] else xs in
  join " " xs.

(** [str.upper] on the letters of ASCII; the model leaves the other letters
    as they are. *)
Definition upper_char (c : ascii) : ascii :=
  let n := nat_of_ascii c in
  if (97 <=? n)%nat && (n <=? 122)%nat then ascii_of_nat (n - 32) else c.

Fixpoint upper (s : string) : string :=
  match s with
  | EmptyString => EmptyString
  | String c s' => String (upper_char c) (upper s')
  end.

Definition render_ava (u : User.t) : string :=
  let src := if nonempty (User.ava_data_uri u) then User.ava_data_uri u else User.ava u in
  if nonempty src then
    String.app (markup "<div class=`ava`><img src=`")
      (String.app (safe_attr src) (markup "` alt=``></div>"))
  else
    let who := if nonempty (User.name u) then User.name u
               else if nonempty (User.nick u) then User.nick u else "?" in
    let ini := upper (text (firstn 2 (chars (strip who)))) in
    String.app (markup "<div class=`ava`>") (String.app (html_escape ini true) "</div>").

(** [html.escape(v)] on a value of the payload: only a string can be escaped. *)
Definition escape_value (v : json) : res string :=
  let? s := as_str v in Ok (html_escape s true).

Definition is_giffy (v : json) : bool :=
  match v with
  | JStr s => String.eqb s "giffy"
  | _ => false
  end.

(** One turn of the loop of [render_attaches]: the piece appended, if any. *)
Definition render_attach (a : json) : res (option string) :=
  let? t := dict_get a "type" JNull in
  let? data := dict_get a "data" JNull in
  if is_richpreview t && isinstance_dict data then
    let? v_url := dict_get data "url" JNull in
    let url := py_or v_url (JStr EmptyString) in
    let? v_host := dict_get data "host" JNull in
    let host := py_or v_host (JStr EmptyString) in
    let? v_thumb := dict_get data "thumbnail" JNull in
    let thumb := py_or v_thumb (JStr EmptyString) in
    let piece := markup "<div class=`attach`>" in
    let? piece :=
      (if truthy thumb then
         let? t := escape_value thumb in
         Ok (String.app piece
               (String.app (markup "<img src=`") (String.app t (markup "` alt=``>"))))
       else Ok piece) in
    let? e_host := escape_value host in
    let? a_url := escape_value url in
    let? e_url := escape_value url in
    Ok (Some
          (String.app piece
             (String.app (markup "<div><div class=`small`>Link preview • ")
                (String.app e_host
                   (String.app (markup "</div><a href=`")
                      (String.app a_url
                         (String.app (markup "` target=`_blank`>")
                            (String.app e_url "</a></div></div>"))))))))
  else if is_giffy t then
    match data with
    | JArr (first :: _) =>
        let? v_mp4 := dict_get first "video" JNull in
        let mp4 := py_or v_mp4 (JStr EmptyString) in
        let? v_webp := dict_get first "webp" JNull in
        let webp := py_or v_webp (JStr EmptyString) in
        let? v_jpg := dict_get first "src" JNull in
        let jpg := py_or v_jpg (JStr EmptyString) in
        let piece := markup "<div class=`attach`>" in
        let? piece :=
          (if truthy mp4 then
             let? m := escape_value mp4 in
             Ok (String.app piece
                   (String.app (markup "<video controls muted loop src=`")
                      (String.app m (markup "`></video>"))))
           else if truthy webp || truthy jpg then
             let? m := escape_value (py_or webp jpg) in
             Ok (String.app piece
                   (String.app (markup "<img src=`") (String.app m (markup "` alt=`gif`>"))))
           else Ok piece) in
        Ok (Some (String.app piece "</div>"))
    | _ => Ok None
    end
  else Ok None.

Fixpoint attach_pieces (atts : list json) : res (list string) :=
  match atts with
  | [] => Ok []
  | a :: rest =>
      let? p := render_attach a in
      let? out := attach_pieces rest in
      Ok (match p with Some piece => piece :: out | None => out end)
  end.

Definition render_attaches (attaches : json) : res string :=
  let? atts := py_iter attaches in
  let? out := attach_pieces atts in
  Ok (join nl out).

Definition hdr_line (u : User.t) (when : string) (rating : Z) : string :=
  let rate :=
    if rating =? 0 then EmptyString
    else String.app (markup "<span class=`rating`>+")
           (String.app (py_str (JInt rating)) "</span>") in
  String.app (markup "<div class=`hdr`><span class=`name`>")
    (String.app (html_escape (display_name u) true)
       (String.app "</span> "
          (String.app (render_badges u)
             (String.app (markup " <span class=`time`>· ")
                (String.app (html_escape when true)
                   (String.app "</span> " (String.app rate "</div>"))))))).

Definition render_comment_body (c : Comment.t) : string := Comment.text_html c.

(** One figure of [render_embedded_images]. *)
Definition figure (item : string * string) : string :=
  let '(orig, data_uri) := item in
  String.app (markup "
          <figure>
            <img src=`")
    (String.app (safe_attr data_uri)
       (String.app (markup "` alt=``>
            <figcaption>Embedded image from <a href=`")
          (String.app (safe_attr orig)
             (String.app (markup "` target=`_blank`>")
                (String.app (html_escape orig true) "</a></figcaption>
          </figure>
        "))))).

Definition render_embedded_images (c : Comment.t)
    (imgs_by_comment : gmap Z (list (string * string))) : string :=
  match default [] (imgs_by_comment !! Comment.id c) with
  | [] => EmptyString
  | items =>
      String.app (markup "<div class=`embedded-media`>")
        (String.app (join nl (map figure items)) "</div>")
  end.

(** ** Tree assembly *)

(** [by_id = {c.id: c for c in comments}] *)
Definition index_by_id (comments : list Comment.t) : gmap Z Comment.t :=
  foldl (fun m c => <[Comment.id c := c]> m) ∅ comments.

(** One step of the parent-inference loop of [build_html]. *)
Definition reconcile (by_id : gmap Z Comment.t) (c : Comment.t) : Comment.t :=
  if Comment.answer_comment_root_id c =? 0 then Comment.set_parent_id c 0
  else if negb (Comment.parent_id c =? 0) && bool_decide (is_Some (by_id !! Comment.parent_id c))
       then c
       else Comment.set_parent_id c (Comment.answer_comment_root_id c).

(** The loop assigns [c.parent_id] in place; the keys of [by_id] do not change,
    so each comment is reconciled against the same index. *)
Definition reconcile_parents (comments : list Comment.t) : list Comment.t :=
  map (reconcile (index_by_id comments)) comments.

(** [children.setdefault(c.parent_id, []).append(c)] *)
Definition add_child (children : gmap Z (list Comment.t)) (c : Comment.t)
  : gmap Z (list Comment.t) :=
  <[Comment.parent_id c := default [] (children !! Comment.parent_id c) ++ [c]]> children.

(** The second loop of [build_html]: the children map and the roots. *)
Definition group (st : gmap Z (list Comment.t) * list Comment.t) (c : Comment.t)
  : gmap Z (list Comment.t) * list Comment.t :=
  if is_root c then (fst st, snd st ++ [c]) else (add_child (fst st) c, snd st).

(** A rendered comment with its rendered replies, in document order. The text
    of the markup around them is not modelled. *)
Inductive node : Type :=
  | Node (c : Comment.t) (replies : list node).

(** A loop that stops at the first exception. *)
Fixpoint traverse {A B : Type} (f : A → res B) (l : list A) : res (list B) :=
  match l with
  | [] => Ok []
  | x :: l' =>
      let? y := f x in
      let? ys := traverse f l' in
      Ok (y :: ys)
  end.

(** [render_reply_tree]. [depth] is the number of nested calls the
    interpreter still allows: it depends on its recursion limit and on the
    frames in use, and the model takes it as given. A call beyond it raises
    [RecursionError]. For each reply, in order, the attachments are rendered
    and then the replies below it. *)
Fixpoint render_reply_tree (depth : nat) (node_id : Z)
    (children_map : gmap Z (list Comment.t)) : res (list node) :=
  match depth with
  | O => Raise RecursionError
  | S d =>
      let kids := default [] (children_map !! node_id) in
      traverse
        (fun rc =>
           let? _ := render_attaches (Comment.attaches rc) in
           let? replies := render_reply_tree d (Comment.id rc) children_map in
           Ok (Node rc replies))
        (py_sorted (le_key Comment.sort) kids)
  end.

Definition render_root (depth : nat) (root : Comment.t)
    (children_map : gmap Z (list Comment.t)) : res node :=
  let? _ := render_attaches (Comment.attaches root) in
  let? replies := render_reply_tree depth (Comment.id root) children_map in
  Ok (Node root replies).

(** What a call of [build_html] leaves. The comments are changed in place
    before anything is rendered, so they are left changed also when the
    rendering raises: [doc_comments] is the list after the call, [doc_items]
    the rendered items in order, or the exception of the rendering, and
    [doc_total_comments] the count shown in the header. *)
Record document : Type := {
  doc_comments : list Comment.t;
  doc_items : res (list node);
  doc_total_comments : nat
}.

Definition build_html (depth : nat) (comments : list Comment.t) : document :=
  let comments := reconcile_parents comments in
  let '(children, roots) := foldl group (∅, []) comments in
  let roots_sorted := py_sorted_reverse (le_key Comment.sort) roots in
  let items := traverse (fun r => render_root depth r children) roots_sorted in
  Build_document comments items (length comments).

(** ** The command line *)

Inductive outcome : Type :=
  | Exit (code : Z)
  | Written (doc : document) (imgs_by_comment : gmap Z (list (string * string)))
  | Uncaught (e : exn).

Definition startswith (s p : string) : bool := String.prefix p s.

(** [main] after argument parsing, up to the document it hands to the file:
    [sys.exit] with a code, an exception that nothing catches, or the
    document. [depth] is the nesting the interpreter allows to
    [render_reply_tree]. *)
Definition main (W : world) (depth : nat) (url : string) (max_pages : Z)
  : trace → outcome * trace :=
  fun tr =>
    let game_url := strip url in
    if negb (startswith game_url "http://" || startswith game_url "https://")
    then (Exit 2, tr)
    else
      match collect_all_comments W game_url max_pages tr with
      | (Raise RequestException, tr') => (Exit 1, tr')
      | (Raise e, tr') => (Uncaught e, tr')
      | (Ok (meta, comments, imgs_by_comment), tr') =>
          let doc := build_html depth comments in
          match doc_items doc with
          | Ok _ => (Written doc imgs_by_comment, tr')
          | Raise e => (Uncaught e, tr')
          end
      end.

(** The status the process ends with: the code of [sys.exit], 1 after an
    exception that nothing catches, 0 when the document is handed over and
    the file can be written. *)
Definition exit_status (o : outcome) : Z :=
  match o with
  | Exit code => code
  | Uncaught _ => 1
  | Written _ _ => 0
  end.

(** * Vocabulary of the properties

    The functions and predicates the statements below are written with, and
    the inputs of the examples. *)

(** ** Texts and their characters *)

(** The no-break space U+00A0 and the long s U+017F. *)
Definition nbsp : string := String (ascii_of_nat 194) (String (ascii_of_nat 160) EmptyString).

Definition long_s : string := String (ascii_of_nat 197) (String (ascii_of_nat 191) EmptyString).

Fixpoint drop_bytes (n : nat) (s : string) : string :=
  match n, s with
  | S k, String _ s' => drop_bytes k s'
  | _, _ => s
  end.

Definition boundary (b : string) : Prop :=
  match b with
  | EmptyString => True
  | String c _ => continuation c = None
  end.

(** The characters of a text of ASCII are its bytes. *)
Definition ascii_text (s : string) : Prop :=
  Forall (λ a, (N_of_ascii a < 128)%N) (String.list_ascii_of_string s).

Definition byte_char (a : ascii) : N * string := (N_of_ascii a, String a EmptyString).

Definition in_class (ws : N → bool) (c : N * string) : Prop := ws c.1 = true.

(** A list of characters with none of the class [ws] at either end. *)
Definition trimmed (ws : N → bool) (cs : list (N * string)) : Prop :=
  (∀ c, head cs = Some c → ws c.1 = false) ∧ (∀ c, last cs = Some c → ws c.1 = false).

(** A text of white space only. *)
Definition white_space (s : string) : Prop := Forall (in_class is_space) (chars s).

(** Every decimal digit. *)
Definition decimal_points : list N :=
  flat_map (λ z, map (N.add z) [0; 1; 2; 3; 4; 5; 6; 7; 8; 9]%N) decimal_zeros.

Definition digit_of (c : N * string) : Z := default 0 (decimal_value c.1).

(** The number a list of decimal digits writes. *)
Definition digits_value (cs : list (N * string)) : Z :=
  foldl (λ acc c, acc * 10 + digit_of c) 0 cs.

Definition decimal_char (c : N * string) : Prop := is_decimal c.1 = true.

(** ** The binary fetcher *)

(** The events of [k] failed attempts in the order they happen: a GET, then a
    sleep of the base delay doubled once per earlier attempt. *)
Definition backoff (delay : Q) (i : nat) : Q := Nat.iter i (fun q => (q * 2)%Q) delay.

Definition attempts (k : nat) (delay : Q) (url : string) : list event :=
  flat_map (fun i => [Request (ImageGet url); Sleep (backoff delay i)]) (seq 0 k).

Definition attempt_fails (W : world) (tr : trace) (url : string) : Prop :=
  match fetch W tr url with
  | Some resp => usable resp = false
  | None => True
  end.

(** The URLs of the binary GETs of a trace, most recent first. *)
Definition image_gets (tr : trace) : list string :=
  omap (fun e => match e with
                 | Request (ImageGet u) => Some u
                 | _ => None
                 end) tr.

(** A small PNG served with status 200. *)
Definition png_response : http_response :=
  {| status_code := 200; content := [Byte.x89; Byte.x50]; content_type := Some "image/png" |}.


(** A header with a no-break space in front of the type, a space after it and
    a parameter. *)
Definition padded_header : string :=
  String.app nbsp "image/png ; charset=binary".

Definition padded_response : http_response :=
  {| status_code := 200; content := [Byte.x89; Byte.x50];
     content_type := Some padded_header |}.

(** ** Merging records *)

Definition ids (l : list Comment.t) : list Z := map Comment.id l.

(** The comments a batch adds: each record in turn, unless its id is held. *)
Fixpoint fresh (seen : gset Z) (parsed : list Comment.t) : list Comment.t :=
  match parsed with
  | [] => []
  | cm :: rest =>
      if decide (Comment.id cm ∈ seen) then fresh seen rest
      else cm :: fresh ({[Comment.id cm]} ∪ seen) rest
  end.

(** [parse_comment] over a batch: the first exception wins. *)
Fixpoint parse_all (raws : list json) : res (list Comment.t) :=
  match raws with
  | [] => Ok []
  | c :: rest =>
      let? cm := parse_comment c in
      let? cms := parse_all rest in
      Ok (cm :: cms)
  end.

(** ** Pagination *)

(** The records of a page response: [(resp.get("data") or {}).get("comments") or []]. *)
Definition page_records (resp : json) : res json :=
  let? v_data := dict_get resp "data" JNull in
  let? v_comments := dict_get (py_or v_data (JObj [])) "comments" JNull in
  Ok (py_or v_comments (JArr [])).

Definition is_page_call (e : event) : bool :=
  match e with
  | Request (PageCall _ _ _ _) => true
  | _ => false
  end.

(** How many older-page calls a trace holds. *)
Definition page_calls (tr : trace) : Z :=
  Z.of_nat (length (filter (fun e => is_page_call e = true) tr)).



(** The first page and every older page hold the same single record. *)
Definition same_record_world : world := {|
  api := fun tr r =>
    match r with
    | FirstPage _ | PageCall _ _ _ _ =>
        Some (JObj [("data", JObj [("comments",
                JArr [JObj [("id", JInt 7); ("sort", JInt 30)]])])])
    | ThreadCall _ _ _ _ | ImageGet _ => None
    end;
  fetch := fun _ _ => None
|}.

(** The record [same_record_world] keeps serving. *)
Definition same_record : json := JObj [("id", JInt 7); ("sort", JInt 30)].

(** ** Traces *)

(** [emits P m]: whatever the trace before, [m] only puts events that satisfy
    [P] in front of it. *)
Definition emits {A : Type} (P : event → Prop) (m : M A) : Prop :=
  ∀ tr, ∃ ev, snd (m tr) = ev ++ tr ∧ Forall P ev.

(** The events of the binary fetcher, of the thread-completion calls and of
    the pagination. *)
Definition fetch_event (e : event) : Prop :=
  match e with
  | Request (ImageGet _) | Sleep _ => True
  | _ => False
  end.

Definition thread_event (e : event) : Prop :=
  match e with
  | Request (ThreadCall _ _ _ _) | Sleep _ => True
  | _ => False
  end.

Definition page_event (e : event) : Prop :=
  match e with
  | Request (PageCall _ _ _ _) | Sleep _ => True
  | _ => False
  end.

Definition first_event (e : event) : Prop :=
  match e with
  | Request (FirstPage _) => True
  | _ => False
  end.

(** ** A failing page call *)

(** Some older-page call of the trace was answered by a transport failure. *)
Fixpoint failed_page_call (W : world) (tr : trace) : bool :=
  match tr with
  | [] => false
  | Request (PageCall s h u c) :: tr0 =>
      match api W tr0 (PageCall s h u c) with
      | None => true
      | Some _ => failed_page_call W tr0
      end
  | _ :: tr0 => failed_page_call W tr0
  end.

Definition no_page_call (e : event) : Prop :=
  match e with
  | Request (PageCall _ _ _ _) => False
  | _ => True
  end.

(** A run whose first page call succeeds, with one record of positive sort
    key, and whose older-page call fails. *)
Definition failing_page_world : world := {|
  api := fun tr r =>
    match r with
    | FirstPage _ =>
        Some (JObj [("data", JObj [("comments",
                JArr [JObj [("id", JInt 1); ("sort", JInt 10)]])])])
    | _ => None
    end;
  fetch := fun _ _ => None
|}.

(** ** The parser *)

Fixpoint all_chars (f : ascii → bool) (s : string) : bool :=
  match s with
  | EmptyString => true
  | String c s' => f c && all_chars f s'
  end.

(** The parent [parse_comment] infers from the markup. *)
Definition infer_parent (text_html : string) : res Z :=
  match COM_ANS_RE_search text_html with
  | Some ds => py_int (JStr ds)
  | None => Ok 0
  end.

(** [d.get(k, dflt)] on the bindings of a dict. *)
Definition field (kvs : list (string * json)) (k : string) (dflt : json) : json :=
  default dflt (assoc k kvs).

Definition rating_ok (kvs : list (string * json)) : bool :=
  match assoc "raiting" kvs with
  | Some (JObj r) => is_ok (py_int (field r "val" (JInt 0)))
  | _ => true
  end.

Definition user_ok (kvs : list (string * json)) : bool :=
  match py_or (field kvs "user" JNull) (JObj []) with
  | JObj u => is_ok (py_int (field u "id" (JInt 0)))
  | _ => false
  end.

Definition id_ok (kvs : list (string * json)) : bool :=
  match assoc "id" kvs with
  | Some v => is_ok (py_int v)
  | None => false
  end.

Definition str_field (kvs : list (string * json)) (k : string) : string :=
  py_str (py_or (field kvs k JNull) (JStr EmptyString)).

(** What [parse_comment] needs of a record: the places where it calls [int]
    or a method of a nested value, in the order of evaluation; the last one
    is [int] of the digits of the first anchor of the text. *)
Definition well_shaped (kvs : list (string * json)) : bool :=
  rating_ok kvs
  && is_ok (py_int (py_or (field kvs "answer_comment_count" (JInt 0)) (JInt 0)))
  && id_ok kvs
  && user_ok kvs
  && is_ok (py_int (field kvs "sort" (JInt 0)))
  && is_ok (py_int (field kvs "comment_type" (JInt 0)))
  && is_ok (py_int (py_or (field kvs "answer_comment_root_id" (JInt 0)) (JInt 0)))
  && is_ok (infer_parent (str_field kvs "text_template")).

Definition int_of (v : json) : Z :=
  match py_int v with
  | Ok n => n
  | Raise _ => 0
  end.

Definition user_of (u : list (string * json)) : User.t :=
  User.mk (int_of (field u "id" (JInt 0)))
    (str_field u "name") (str_field u "nick") (str_field u "ava")
    (py_bool (field u "admin" (JBool false)))
    (py_bool (field u "is_verified" (JBool false)))
    EmptyString.

Definition rating_of (kvs : list (string * json)) : Z :=
  match assoc "raiting" kvs with
  | Some (JObj r) => int_of (field r "val" (JInt 0))
  | _ => 0
  end.

(** The comment a well-shaped record parses to, field by field. *)
Definition comment_of (kvs : list (string * json)) : Comment.t :=
  Comment.mk (int_of (field kvs "id" JNull))
    (str_field kvs "text_template")
    (str_field kvs "data_create")
    (match py_or (field kvs "user" JNull) (JObj []) with
     | JObj u => user_of u
     | _ => user_of []
     end)
    (rating_of kvs)
    (int_of (field kvs "sort" (JInt 0)))
    (py_bool (field kvs "edited" (JBool false)))
    (py_bool (field kvs "fixed" (JBool false)))
    (int_of (field kvs "comment_type" (JInt 0)))
    (int_of (py_or (field kvs "answer_comment_root_id" (JInt 0)) (JInt 0)))
    (py_or (field kvs "attaches" JNull) (JArr []))
    (match infer_parent (str_field kvs "text_template") with
     | Ok n => n
     | Raise _ => 0
     end)
    (int_of (py_or (field kvs "answer_comment_count" (JInt 0)) (JInt 0))).


Definition default_user : User.t :=
  User.mk 0 EmptyString EmptyString EmptyString false false EmptyString.

Definition default_comment (id : Z) : Comment.t :=
  Comment.mk id EmptyString EmptyString default_user 0 0 false false 0 0 (JArr []) 0 0.


(** ** Parent reconciliation *)

(** The inferred parent the reconciliation leaves on a comment. *)
Definition reconciled_parent (comments : list Comment.t) (c : Comment.t) : Z :=
  if Comment.answer_comment_root_id c =? 0 then 0
  else if negb (Comment.parent_id c =? 0) && bool_decide (Comment.parent_id c ∈ ids comments)
       then Comment.parent_id c
       else Comment.answer_comment_root_id c.

(** Following inferred parents from [p], at most [fuel] steps, up to [target]. *)
Fixpoint resolves (by_id : gmap Z Comment.t) (fuel : nat) (target p : Z) : bool :=
  (p =? target)
  || match fuel with
     | O => false
     | S f =>
         match by_id !! p with
         | Some c => resolves by_id f target (Comment.parent_id c)
         | None => false
         end
     end.

Definition quoted (s : string) : string := String.app dqs (String.app s dqs).

(** Two roots and a reply in the thread of the first whose markup names the
    second. *)
Definition cross_thread_records : list json :=
  [JObj [("id", JInt 42); ("sort", JInt 3)];
   JObj [("id", JInt 50); ("sort", JInt 2)];
   JObj [("id", JInt 5); ("sort", JInt 4); ("answer_comment_root_id", JInt 42);
         ("text_template",
          JStr (String.app "<a class='com_ans' data-id="
                  (String.app (quoted "50") ">@x</a> hello")))]].

Definition cross_thread_comments : list Comment.t :=
  match parse_all cross_thread_records with
  | Ok cs => cs
  | Raise _ => []
  end.

(** ** The assembled tree *)

(** The replies grouped under parent [p], in the order of the collection. *)
Definition children_of (cs : list Comment.t) (p : Z) : list Comment.t :=
  filter (λ c, is_root c = false ∧ Comment.parent_id c = p) cs.

Definition roots_of (cs : list Comment.t) : list Comment.t :=
  filter (λ c, is_root c = true) cs.

Definition kids_at (children : gmap Z (list Comment.t)) (p : Z) : list Comment.t :=
  default [] (children !! p).

Definition node_comment (n : node) : Comment.t :=
  match n with
  | Node c _ => c
  end.

(** Every level below a node lists the replies grouped under it, oldest first,
    replies of equal sort key in the order of the collection. *)
Inductive ordered_tree (cs : list Comment.t) : node → Prop :=
  | ordered_node c replies :
      map node_comment replies ≡ₚ children_of cs (Comment.id c) →
      Sorted (λ a b, Comment.sort a ≤ Comment.sort b) (map node_comment replies) →
      (∀ k, filter (λ a, Comment.sort a = k) (map node_comment replies) =
            filter (λ a, Comment.sort a = k) (children_of cs (Comment.id c))) →
      Forall (ordered_tree cs) replies →
      ordered_tree cs (Node c replies).

(** [at_depth cs r n c]: [c] is [n] replies below the root [r]. *)
Inductive at_depth (cs : list Comment.t) (r : Comment.t) : nat → Comment.t → Prop :=
  | at_depth_root : at_depth cs r 0 r
  | at_depth_reply n c' c :
      at_depth cs r n c' → c ∈ cs → is_root c = false →
      Comment.parent_id c = Comment.id c' → at_depth cs r (S n) c.

(** ** Ordering *)

Definition node_replies (n : node) : list node :=
  match n with
  | Node _ replies => replies
  end.

(** A comment whose attachments [render_attaches] renders. *)
Definition renderable (c : Comment.t) : Prop :=
  is_ok (render_attaches (Comment.attaches c)) = true.

(** One turn of the loop of [render_reply_tree]. *)
Definition render_reply (d : nat) (children : gmap Z (list Comment.t)) (rc : Comment.t)
  : res node :=
  let? _ := render_attaches (Comment.attaches rc) in
  let? replies := render_reply_tree d (Comment.id rc) children in
  Ok (Node rc replies).

(** Three roots with sort keys 10, 5 and 20, three replies to the first with
    sort keys 3, 1 and 2, and a reply to the reply of sort key 1. *)
Definition ordering_records : list json :=
  [JObj [("id", JInt 1); ("sort", JInt 10)];
   JObj [("id", JInt 2); ("sort", JInt 5)];
   JObj [("id", JInt 3); ("sort", JInt 20)];
   JObj [("id", JInt 11); ("sort", JInt 3); ("answer_comment_root_id", JInt 1)];
   JObj [("id", JInt 12); ("sort", JInt 1); ("answer_comment_root_id", JInt 1)];
   JObj [("id", JInt 13); ("sort", JInt 2); ("answer_comment_root_id", JInt 1)];
   JObj [("id", JInt 14); ("sort", JInt 4); ("answer_comment_root_id", JInt 1);
         ("text_template",
          JStr (String.app "<a class='com_ans' data-id=" (quoted "12")))]].

Definition ordering_comments : list Comment.t :=
  match parse_all ordering_records with
  | Ok cs => cs
  | Raise _ => []
  end.

Fixpoint sort_keys (depth : nat) (n : node) : list Z :=
  Comment.sort (node_comment n)
  :: match depth with
     | O => []
     | S d => concat (map (sort_keys d) (node_replies n))
     end.

(** The items of a document whose rendering returned. *)
Definition items_of (d : document) : list node :=
  match doc_items d with
  | Ok items => items
  | Raise _ => []
  end.

Definition ordering_items : list node := items_of (build_html 7 ordering_comments).

(** Roots of equal sort key: the one collected first comes first. *)
Definition tie_comments : list Comment.t :=
  match parse_all [JObj [("id", JInt 1); ("sort", JInt 7)];
                   JObj [("id", JInt 2); ("sort", JInt 9)];
                   JObj [("id", JInt 3); ("sort", JInt 7)];
                   JObj [("id", JInt 4); ("sort", JInt 8); ("answer_comment_root_id", JInt 2)];
                   JObj [("id", JInt 5); ("sort", JInt 8); ("answer_comment_root_id", JInt 2)]] with
  | Ok cs => cs
  | Raise _ => []
  end.

(** A root with an attachment that [discover_image_links] accepts and
    [render_attaches] does not, and a chain of three comments. *)
Definition giffy_comments : list Comment.t :=
  match parse_all [JObj [("id", JInt 1);
                         ("attaches", JArr [JObj [("type", JStr "giffy");
                                                  ("data", JArr [JInt 5])]])]] with
  | Ok cs => cs
  | Raise _ => []
  end.

Definition chain_comments : list Comment.t :=
  match parse_all [JObj [("id", JInt 1); ("sort", JInt 3)];
                   JObj [("id", JInt 2); ("sort", JInt 2); ("answer_comment_root_id", JInt 1)];
                   JObj [("id", JInt 3); ("sort", JInt 1); ("answer_comment_root_id", JInt 1);
                         ("text_template",
                          JStr (String.app "<a class='com_ans' data-id=" (quoted "2")))]] with
  | Ok cs => cs
  | Raise _ => []
  end.

(** ** The collection as a set keyed by id *)

(** [seen] holds exactly the ids of [comments], each once. *)
Definition keyed (seen : gset Z) (comments : list Comment.t) : Prop :=
  seen = list_to_set (ids comments) ∧ NoDup (ids comments).

(** [c'] is [c] but for the inline avatar of its author. *)
Definition only_avatar (c c' : Comment.t) : Prop :=
  c' = Comment.set_user c
         (User.set_ava_data_uri (Comment.user c) (User.ava_data_uri (Comment.user c'))).

(** [c'] is [c] but for the inferred parent. *)
Definition only_parent (c c' : Comment.t) : Prop :=
  c' = Comment.set_parent_id c (Comment.parent_id c').

(** A reply without a parent reference in its markup. *)
Definition plain_reply : Comment.t :=
  match parse_comment (JObj [("id", JInt 5); ("answer_comment_root_id", JInt 42)]) with
  | Ok c => c
  | Raise _ => default_comment 0
  end.

(** ** Thread completion *)

(** The root ids of the thread calls of a trace, most recent first. *)
Definition thread_calls (tr : trace) : list Z :=
  omap (λ e, match e with
             | Request (ThreadCall _ _ _ k) => Some k
             | _ => None
             end) tr.

(** How many thread calls a trace holds for root [k]. *)
Definition calls_for (k : Z) (tr : trace) : nat :=
  length (filter (λ x, x = k) (thread_calls tr)).

(** The replies held for the thread of root [k]. *)
Definition replies_held (k : Z) (comments : list Comment.t) : Z :=
  Z.of_nat (length (filter (λ c, is_root c = false ∧ Comment.answer_comment_root_id c = k)
                      comments)).

(** The test of the loop on a root, against the counts [counts]. *)
Definition under_captured (counts : gmap Z Z) (r : Comment.t) : Prop :=
  default 0 (counts !! Comment.id r) < Comment.reply_expected r.

#[local] Instance under_captured_dec counts r : Decision (under_captured counts r).
Proof. unfold under_captured. apply _. Defined.

(** Two roots after pagination: the first expects 5 replies and holds 2, the
    second expects 1 and holds 1. The thread call returns the 2 held replies
    and 3 more. *)
Definition backfill_reply (id : Z) (root : Z) : json :=
  JObj [("id", JInt id); ("sort", JInt id); ("answer_comment_root_id", JInt root)].

Definition backfill_records : list json :=
  [JObj [("id", JInt 100); ("sort", JInt 100); ("answer_comment_count", JInt 5)];
   JObj [("id", JInt 200); ("sort", JInt 200); ("answer_comment_count", JInt 1)];
   backfill_reply 101 100; backfill_reply 102 100; backfill_reply 201 200].

Definition backfill_comments : list Comment.t :=
  match parse_all backfill_records with
  | Ok cs => cs
  | Raise _ => []
  end.

Definition backfill_world : world := {|
  api := fun tr r =>
    match r with
    | ThreadCall _ _ _ 100 =>
        Some (JObj [("data", JObj [("comments",
                JArr [backfill_reply 101 100; backfill_reply 102 100;
                      backfill_reply 103 100; backfill_reply 104 100;
                      backfill_reply 105 100])])])
    | _ => None
    end;
  fetch := fun _ _ => None
|}.

(** Two roots that each expect one reply and hold none. The thread call for
    the first returns a reply of its own, a reply of the second root and a
    third root that expects five replies; the call for the second fails. *)
Definition late_records : list json :=
  [JObj [("id", JInt 100); ("sort", JInt 100); ("answer_comment_count", JInt 1)];
   JObj [("id", JInt 200); ("sort", JInt 200); ("answer_comment_count", JInt 1)]].

Definition late_comments : list Comment.t :=
  match parse_all late_records with
  | Ok cs => cs
  | Raise _ => []
  end.

Definition late_world : world := {|
  api := fun tr r =>
    match r with
    | ThreadCall _ _ _ 100 =>
        Some (JObj [("data", JObj [("comments",
                JArr [backfill_reply 101 100; backfill_reply 201 200;
                      JObj [("id", JInt 300); ("sort", JInt 300);
                            ("answer_comment_count", JInt 5)]])])])
    | _ => None
    end;
  fetch := fun _ _ => None
|}.

(** What the phase leaves of the run above: the collection and the trace. *)
Definition late_run : list Comment.t * trace :=
  match thread_completion late_world 6289 "null" "https://site/game/"
          (list_to_set (ids late_comments)) late_comments [] with
  | (Ok (_, c', _), tr') => (c', tr')
  | (Raise _, tr') => ([], tr')
  end.

(** ** The two embedding passes *)

(** How many binary GETs a trace holds for [u]. *)
Definition gets_for (u : string) (tr : trace) : nat :=
  length (filter (λ x, x = u) (image_gets tr)).

(** Every GET of [u] is answered at once by a usable response. *)
Definition always_usable (W : world) (u : string) : Prop :=
  ∀ tr, ∃ resp, fetch W tr u = Some resp ∧ usable resp = true.

Definition no_image_get (e : event) : Prop :=
  match e with
  | Request (ImageGet _) => False
  | _ => True
  end.

(** One comment whose author's avatar is also linked from its body; every GET
    succeeds at once. *)
Definition shared_url_world : world := {|
  api := fun tr r =>
    match r with
    | FirstPage _ =>
        Some (JObj [("data", JObj [("comments",
                JArr [JObj [("id", JInt 1);
                            ("user", JObj [("ava", JStr "https://cdn/a.png")]);
                            ("text_template",
                             JStr (String.app "<a href="
                                     (String.app (quoted "https://cdn/a.png") ">pic</a>")))]])])])
    | _ => None
    end;
  fetch := fun _ _ => Some png_response
|}.

(** ** Image links *)


(** A comment that links two images, the second in the text being the smaller
    string; and a world where no GET succeeds. *)
Definition two_links : Comment.t :=
  match parse_comment
          (JObj [("id", JInt 9);
                 ("text_template", JStr "see https://h/b.png then https://h/a.png")]) with
  | Ok c => c
  | Raise _ => default_comment 0
  end.

Definition images_world (ok : bool) : world := {|
  api := fun _ _ => None;
  fetch := fun _ url =>
    if ok && String.eqb url "https://h/b.png" then Some png_response else None
|}.

(** ** Escaping *)

(** How often a character occurs in a text. *)
Fixpoint count_char (c : ascii) (s : string) : nat :=
  match s with
  | EmptyString => O
  | String a s' => ((if Ascii.eqb a c then 1 else 0) + count_char c s')%nat
  end.

(** What one character becomes under [html.escape]. *)
Definition escape_char (quotes : bool) (c : ascii) : string :=
  if Ascii.eqb c "&"%char then "&amp;"
  else if Ascii.eqb c "<"%char then "&lt;"
  else if Ascii.eqb c ">"%char then "&gt;"
  else if quotes && Ascii.eqb c dq then "&quot;"
  else if quotes && Ascii.eqb c sq then "&#x27;"
  else String c EmptyString.

(** ** Query strings *)

(** The requests that go to the comment service. *)
Definition is_api (r : request) : bool :=
  match r with
  | ImageGet _ => false
  | _ => true
  end.

(** A pair of the query as it is sent: the key, and the value through [str]. *)
Definition sent (kv : string * json) : string * string := (fst kv, py_str (snd kv)).

(** One pair of the query. *)
Definition pair_text (kv : string * json) : string :=
  String.app (quote (fst kv)) (String.app "=" (quote (py_str (snd kv)))).

(** ** The name of the output file *)

(** [n] slashes. *)
Fixpoint slashes (n : nat) : string :=
  match n with
  | O => EmptyString
  | S k => String "/"%char (slashes k)
  end.

(** ** Base64 and the media type *)

(** The characters of standard Base64 text. *)
Definition b64_alphabet (c : ascii) : bool :=
  is_alpha c || is_digit c || Ascii.eqb c "+"%char || Ascii.eqb c "/"%char
  || Ascii.eqb c "="%char.

(** ** Integers as text *)

(** The digits [str] writes for a natural number. *)
Definition digits_of (x : N) : string := pretty_N_go x EmptyString.

(** ** Parsed records *)



(** A record whose text answers comment 34, written in Arabic digits. *)
Definition arabic_anchor_record : list (string * json) :=
  [("id", JInt 7);
   ("text_template",
    JStr (String.app "<a data-id=" (String.app (quoted "٣٤") ">x</a>")))].

(** ** The scanners *)

(** A reply anchor as [COM_ANS_RE] reads it: the attribute with a quoted run
    of digits. *)
Definition anchor (ds : string) : string := String.app "data-id=" (quoted ds).

(** A text of decimal digits, of any script. *)
Definition decimal_digits (ds : string) : Prop :=
  ds ≠ EmptyString ∧ Forall decimal_char (chars ds).

(** An [href] attribute as [HREF_RE] reads it. *)
Definition href_attr (u : string) : string := String.app "href=" (quoted u).

(** Whether an anchor starts somewhere inside [pre] when [rest] follows. *)
Definition anchor_before (pre rest : string) : Prop :=
  ∃ p1 p2 ds, pre = String.app p1 p2 ∧ p2 ≠ EmptyString
    ∧ com_ans_at (String.app p2 rest) = Some ds.

(** The scheme of a plain address: [http] or [https] in any case of the
    letters, where the long s (U+017F) may stand for the [s]. *)
Definition http_scheme (scheme : string) : Prop :=
  lower scheme = "http" ∨ lower scheme = "https"
  ∨ ∃ p, lower p = "http" ∧ scheme = String.app p long_s.

(** A plain address as [PLAIN_URL_RE] reads it: the scheme, the separator and
    a run of characters an address may hold. *)
Definition plain_url (g : string) : Prop :=
  ∃ scheme rest, g = String.app scheme (String.app "://" rest)
    ∧ http_scheme scheme
    ∧ rest ≠ EmptyString ∧ Forall (λ c, url_char c.1 = true) (chars rest).

(** What follows a match: nothing, or a character an address cannot hold. *)
Definition url_ends (post : string) : Prop :=
  ∀ c, head (chars post) = Some c → url_char c.1 = false.

(** ** Whole runs *)

(** The events of the pagination of one run: calls for the page address with
    the site and hash of the first page and a positive cursor, and pauses of
    0.12 s. *)
Definition page_event_of (site : Z) (hash url : string) (e : event) : Prop :=
  match e with
  | Request (PageCall s h u c) => s = site ∧ h = hash ∧ u = url ∧ 0 < c
  | Sleep q => (q == 3 # 25)%Q
  | _ => False
  end.

(** The events of the thread completion: calls with the same site, hash and
    address, and pauses of 0.08 s. *)
Definition thread_event_of (site : Z) (hash url : string) (e : event) : Prop :=
  match e with
  | Request (ThreadCall s h u _) => s = site ∧ h = hash ∧ u = url
  | Sleep q => (q == 2 # 25)%Q
  | _ => False
  end.

(** The events of the two embedding passes: GETs of binaries, the pause of
    0.05 s after each address and the pauses of 0.25 s, 0.5 s and 1 s after
    a failed attempt. *)
Definition fetch_event_timed (e : event) : Prop :=
  match e with
  | Request (ImageGet _) => True
  | Sleep q => (q == 1 # 20 ∨ q == 1 # 4 ∨ q == 1 # 2 ∨ q == 1)%Q
  | _ => False
  end.

(** The cursors of the page calls of a trace, the latest first. *)
Definition page_cursors (tr : list event) : list Z :=
  omap (fun e => match e with
                 | Request (PageCall _ _ _ c) => Some c
                 | _ => None
                 end) tr.

(** The metadata of a first page without data. *)
Definition default_meta : Meta.t := Meta.mk "FitGirl Comments" 6289 "null" 0 0.

Definition empty_document : document :=
  {| doc_comments := []; doc_items := Ok []; doc_total_comments := O |}.

(** A first page whose [data] is missing. *)
Definition no_data_world : world := {|
  api := fun _ r => match r with FirstPage _ => Some (JObj [("status", JStr "ok")]) | _ => None end;
  fetch := fun _ _ => None
|}.

(** An address with another scheme, and one padded with a no-break space and
    the next-line character U+0085. *)
Definition padded_url : string :=
  String.app nbsp (String.app "https://site/game/"
                     (String (ascii_of_nat 194) (String (ascii_of_nat 133) EmptyString))).

(** ** The avatar pass *)

(** The inline avatar of the author of a comment. *)
Definition inline_avatar (c : Comment.t) : string := User.ava_data_uri (Comment.user c).

Definition avatar_url (c : Comment.t) : string := User.ava (Comment.user c).

(** ** What the document holds *)

(** The comments of a rendered node, in document order. *)
Fixpoint node_comments (n : node) : list Comment.t :=
  match n with
  | Node c replies => c :: concat (map node_comments replies)
  end.

(** The comments that rendered items show, in document order. *)
Definition rendered (items : list node) : list Comment.t :=
  concat (map node_comments items).

(** A reply whose thread has no root in the collection, and a root. *)
Definition orphan_comments : list Comment.t :=
  match parse_all [JObj [("id", JInt 1); ("sort", JInt 10)];
                   JObj [("id", JInt 5); ("sort", JInt 3); ("answer_comment_root_id", JInt 99)]] with
  | Ok cs => cs
  | Raise _ => []
  end.

Definition orphan_items : list node :=
  match doc_items (build_html 1000 orphan_comments) with
  | Ok items => items
  | Raise _ => []
  end.

(** ** The markup of one comment *)

(** The address [render_ava] puts in the image, empty when there is none. *)
Definition ava_src (u : User.t) : string :=
  if nonempty (User.ava_data_uri u) then User.ava_data_uri u else User.ava u.

Definition badges (u : User.t) : nat :=
  ((if User.admin u then 1 else 0) + (if User.is_verified u then 1 else 0))%nat.

(** A rich preview whose [data] is truthy and not a dict, as a non-empty list
    or a number. *)
Definition broken_preview (a : json) : Prop :=
  ∃ kvs, a = JObj kvs ∧ is_richpreview (field kvs "type" JNull) = true
    ∧ truthy (field kvs "data" JNull) = true
    ∧ isinstance_dict (field kvs "data" JNull) = false.

(** An attachment of a type [render_attaches] does not know. *)
Definition unknown_attach (a : json) : Prop :=
  ∃ kvs, a = JObj kvs ∧ is_richpreview (field kvs "type" JNull) = false
    ∧ is_giffy (field kvs "type" JNull) = false.

(** [r] raises nothing but [AttributeError]. *)
Definition only_attribute_error {A : Type} (r : res A) : Prop :=
  ∀ e, r = Raise e → e = AttributeError.

(** * Properties *)

(** ** Texts and their characters *)

Lemma str_app_assoc (a b c : string) :
  String.app (String.app a b) c = String.app a (String.app b c).
Proof. induction a as [|x a IH]; [done|]. exact (f_equal (String x) IH). Qed.

Lemma str_app_nil_r (a : string) : String.app a EmptyString = a.
Proof. induction a as [|x a IH]; [done|]. exact (f_equal (String x) IH). Qed.

Lemma str_app_length (a b : string) :
  String.length (String.app a b) = (String.length a + String.length b)%nat.
Proof.
  induction a as [|x a IH]; [done|].
  change (String.app (String x a) b) with (String x (String.app a b)).
  cbn [String.length]. by rewrite IH.
Qed.

Lemma take_drop_bytes n s : String.app (take n s) (drop_bytes n s) = s.
Proof.
  revert s. induction n as [|n IH]; intros [|c s]; try done.
  cbn [take drop_bytes]. exact (f_equal (String c) (IH s)).
Qed.

Lemma decode_len a r :
  (1 ≤ (decode a r).2 ≤ S (String.length r))%nat.
Proof.
  unfold decode, stray. cbv zeta.
  repeat (case_match; cbn [snd String.length]; try lia).
Qed.

Lemma chars_from_text k s :
  (k ≤ String.length s)%nat → text (chars_from k s) = drop_bytes k s.
Proof.
  revert k. induction s as [|a r IH]; intros k Hk.
  - by destruct k.
  - destruct k as [|k]; cbn [chars_from drop_bytes].
    + pose proof (decode_len a r) as Hlen.
      destruct (decode a r) as [cp len]. cbn [snd] in Hlen.
      cbn [text foldr snd]. fold (text (chars_from (len - 1) r)).
      rewrite IH by lia.
      destruct len as [|len]; [lia|]. cbn [take]. 
      replace (S len - 1)%nat with len by lia.
      exact (f_equal (String a) (take_drop_bytes len r)).
    + apply IH. cbn [String.length] in Hk. lia.
Qed.

Lemma text_chars s : text (chars s) = s.
Proof. unfold chars. rewrite chars_from_text by lia. done. Qed.

Lemma text_app cs1 cs2 : text (cs1 ++ cs2) = String.app (text cs1) (text cs2).
Proof.
  induction cs1 as [|c cs1 IH]; [done|].
  cbn [app text foldr]. fold (text (cs1 ++ cs2)). fold (text cs1).
  by rewrite IH, str_app_assoc.
Qed.

Lemma chars_from_drop k s :
  (k ≤ String.length s)%nat → chars_from k s = chars (drop_bytes k s).
Proof.
  revert k. induction s as [|a r IH]; intros k Hk; [by destruct k|].
  destruct k as [|k]; [done|]. cbn [chars_from drop_bytes]. apply IH.
  cbn [String.length] in Hk. lia.
Qed.

(** The characters of a text that is not empty: the first one, and those of
    the rest. *)
Lemma chars_cons a r :
  chars (String a r) =
  ((decode a r).1, take (decode a r).2 (String a r))
  :: chars (drop_bytes (decode a r).2 (String a r)).
Proof.
  unfold chars at 1. cbn [chars_from]. pose proof (decode_len a r) as Hlen.
  destruct (decode a r) as [cp len]. cbn [fst snd] in *.
  rewrite chars_from_drop by lia. destruct len as [|len]; [lia|].
  cbn [drop_bytes]. by replace (S len - 1)%nat with len by lia.
Qed.

Lemma decode_app a r b : boundary b → decode a (String.app r b) = decode a r.
Proof.
  intros Hb. unfold decode. cbv zeta.
  destruct r as [|y [|z [|w r]]]; destruct b as [|c b]; cbv [String.append];
    cbn [boundary] in Hb; rewrite ?Hb; try done;
    repeat (case_match; try done).
Qed.

Lemma take_app_le n (a b : string) :
  (n ≤ String.length a)%nat → take n (String.app a b) = take n a.
Proof.
  revert a. induction n as [|n IH]; intros [|x a] Hn; try reflexivity.
  - cbn [String.length] in Hn. lia.
  - change (String.app (String x a) b) with (String x (String.app a b)).
    cbn [take]. f_equal. apply IH. cbn [String.length] in Hn. lia.
Qed.

Lemma drop_bytes_app_le n (a b : string) :
  (n ≤ String.length a)%nat →
  drop_bytes n (String.app a b) = String.app (drop_bytes n a) b.
Proof.
  revert a. induction n as [|n IH]; intros [|x a] Hn; try reflexivity.
  - cbn [String.length] in Hn. lia.
  - change (String.app (String x a) b) with (String x (String.app a b)).
    cbn [drop_bytes]. apply IH. cbn [String.length] in Hn. lia.
Qed.

Lemma drop_bytes_length n s :
  String.length (drop_bytes n s) = (String.length s - n)%nat.
Proof.
  revert s. induction n as [|n IH]; intros [|x s]; try done.
  cbn [drop_bytes String.length]. by rewrite IH.
Qed.

(** A text cut where a character starts: the characters of the two parts. *)
Lemma chars_app a b : boundary b → chars (String.app a b) = chars a ++ chars b.
Proof.
  intros Hb. remember (String.length a) as n eqn:Hn. revert a Hn.
  induction (lt_wf n) as [n _ IH]. intros [|x a] Hn; [done|].
  change (String.app (String x a) b) with (String x (String.app a b)).
  rewrite !chars_cons, decode_app by done.
  pose proof (decode_len x a) as Hlen.
  destruct (decode x a) as [cp len]. cbn [fst snd] in *.
  change (String x (String.app a b)) with (String.app (String x a) b).
  rewrite take_app_le by (cbn [String.length]; lia).
  rewrite drop_bytes_app_le by (cbn [String.length]; lia).
  cbn [app]. f_equal.
  eapply IH; [|reflexivity]. rewrite drop_bytes_length. subst n. cbn [String.length]. lia.
Qed.

Lemma text_cons c cs : text (c :: cs) = String.app c.2 (text cs).
Proof. done. Qed.

(** A character of a text starts where a character can start. *)
Lemma chars_boundary s : boundary s ∨ ∃ c r, s = String c r ∧ decode c r = stray (N_of_ascii c).
Proof.
  destruct s as [|c r]; [by left|]. cbn [boundary].
  unfold continuation. cbv zeta.
  destruct ((128 <=? N_of_ascii c)%N && (N_of_ascii c <? 192)%N) eqn:E; [|by left].
  right. exists c, r. split; [done|]. unfold decode. cbv zeta.
  apply andb_prop in E as [E1 E2]. apply N.leb_le in E1. apply N.ltb_lt in E2.
  destruct (N.ltb_spec (N_of_ascii c) 128); [lia|].
  destruct (N.ltb_spec (N_of_ascii c) 194); [done|lia].
Qed.

Lemma take_take_le n m s : (n ≤ m)%nat → take n (take m s) = take n s.
Proof.
  revert m s. induction n as [|n IH]; intros [|m] [|x s] H; try done; try lia.
  cbn [take]. f_equal. apply IH. lia.
Qed.

Lemma take_length_le n s : (String.length (take n s) ≤ n)%nat.
Proof.
  revert s. induction n as [|n IH]; intros [|x s]; cbn [take String.length]; try lia.
  specialize (IH s). lia.
Qed.

Lemma take_all n s : (String.length s ≤ n)%nat → take n s = s.
Proof.
  revert s. induction n as [|n IH]; intros [|x s] H; try done.
  - cbn [String.length] in H. lia.
  - cbn [take]. f_equal. apply IH. cbn [String.length] in H. lia.
Qed.

(** The first character of a text is read from its own bytes: the bytes that
    follow do not matter, as long as a byte that starts no character is
    followed by fewer bytes, or the same ones. *)
Lemma decode_take a r n :
  ((decode a r).2 ≤ S n)%nat → decode a (take n r) = decode a r.
Proof.
  unfold decode, stray. cbv zeta.
  destruct r as [|y [|z [|w r]]]; destruct n as [|[|[|n]]]; cbn [take];
    repeat (case_match; cbn [snd]; try done; try lia).
Qed.

Lemma take_length_app (p q : string) : take (String.length p) (String.app p q) = p.
Proof. rewrite take_app_le by lia. apply take_all. lia. Qed.

Lemma take_cons n a r : take (S n) (String a r) = String a (take n r).
Proof. done. Qed.

(** The characters of a text, cut anywhere between two of them: each part
    is a text with these characters. *)
Lemma chars_split s l1 l2 :
  chars s = l1 ++ l2 → chars (text l1) = l1 ∧ chars (text l2) = l2.
Proof.
  revert s. induction l1 as [|c l1 IH]; intros s Hs.
  - split; [done|]. cbn [app] in Hs. by rewrite <- Hs, text_chars.
  - destruct s as [|a r]; [done|]. rewrite chars_cons in Hs.
    pose proof (decode_len a r) as Hlen.
    destruct (decode a r) as [cp len] eqn:Hd. cbn [fst snd] in *.
    cbn [app] in Hs. injection Hs as <- Hrest.
    destruct (IH _ Hrest) as [H1 H2]. split; [|done].
    destruct len as [|len]; [lia|]. cbn [drop_bytes] in Hrest.
    assert (r = String.app (String.app (take len r) (text l1)) (text l2)) as Hr.
    { rewrite str_app_assoc, <- text_app, <- Hrest, text_chars. symmetry. apply take_drop_bytes. }
    rewrite text_cons. cbn [snd]. rewrite take_cons.
    change (String.app (String a (take len r)) (text l1))
      with (String a (String.app (take len r) (text l1))).
    set (p := String.app (take len r) (text l1)) in *.
    assert (decode a p = (cp, S len)) as Hp.
    { rewrite <- Hd. pose proof (take_length_app p (text l2)) as Hpr. rewrite <- Hr in Hpr.
      rewrite <- Hpr at 1. apply decode_take. rewrite Hd. cbn [snd]. unfold p.
      rewrite str_app_length.
      assert (String.length (take len r) = len) as ->; [|lia].
      clear -Hlen. revert r Hlen. induction len as [|len IH]; intros [|x r] H; try done;
        cbn [String.length] in *; try lia. cbn [take String.length]. rewrite IH; [done|lia]. }
    rewrite chars_cons, Hp. cbn [fst snd]. rewrite take_cons. cbn [drop_bytes].
    assert (String.length (take len r) = len) as Hl.
    { clear -Hlen. revert r Hlen. induction len as [|len IH]; intros [|x r] H; try done;
        cbn [String.length] in *; try lia. cbn [take String.length]. rewrite IH; [done|lia]. }
    unfold p. rewrite take_app_le by lia. rewrite take_take_le by lia.
    rewrite drop_bytes_app_le by lia.
    assert (drop_bytes len (take len r) = EmptyString) as ->.
    { clear -Hlen. revert r Hlen. induction len as [|len IH]; intros [|x r] H; try done;
        cbn [String.length] in *; try lia. cbn [take drop_bytes]. apply IH. lia. }
    change (String.app EmptyString (text l1)) with (text l1). by rewrite H1.
Qed.

Lemma chars_text_prefix s l1 l2 : chars s = l1 ++ l2 → chars (text l1) = l1.
Proof. intros H. by apply (chars_split s l1 l2). Qed.

Lemma chars_text_suffix s l1 l2 : chars s = l1 ++ l2 → chars (text l2) = l2.
Proof. intros H. by apply (chars_split s l1 l2). Qed.

Lemma chars_text_infix s l1 l2 l3 : chars s = l1 ++ l2 ++ l3 → chars (text l2) = l2.
Proof.
  intros H. apply chars_text_suffix in H. by apply chars_text_prefix in H.
Qed.

Lemma chars_ascii s :
  ascii_text s → chars s = map byte_char (String.list_ascii_of_string s).
Proof.
  unfold ascii_text. induction s as [|a r IH]; [done|].
  cbn [String.list_ascii_of_string map]. intros [Ha Hr]%Forall_cons.
  rewrite chars_cons.
  assert (decode a r = (N_of_ascii a, 1%nat)) as ->.
  { unfold decode. cbv zeta. by destruct (N.ltb_spec (N_of_ascii a) 128); [|lia]. }
  cbn [fst snd take drop_bytes]. by rewrite IH.
Qed.

Lemma take_drop_while {A} (f : A → bool) l : take_while f l ++ drop_while f l = l.
Proof. induction l as [|x l IH]; [done|]. cbn. destruct (f x); [cbn; by rewrite IH|done]. Qed.

Lemma take_while_Forall {A} (f : A → bool) l : Forall (λ x, f x = true) (take_while f l).
Proof.
  induction l as [|x l IH]; [constructor|]. cbn. destruct (f x) eqn:E; [by constructor|constructor].
Qed.

Lemma drop_while_head {A} (f : A → bool) l x l' : drop_while f l = x :: l' → f x = false.
Proof.
  induction l as [|y l IH]; [done|]. cbn. destruct (f y) eqn:E; [done|]. by intros [= <- _].
Qed.

Lemma drop_while_app {A} (f : A → bool) l1 l2 :
  Forall (λ x, f x = true) l1 → drop_while f (l1 ++ l2) = drop_while f l2.
Proof. induction 1 as [|x l1 Hx _ IH]; [done|]. cbn. by rewrite Hx. Qed.

Lemma take_while_app {A} (f : A → bool) l1 l2 :
  Forall (λ x, f x = true) l1 → take_while f (l1 ++ l2) = l1 ++ take_while f l2.
Proof. induction 1 as [|x l1 Hx _ IH]; [done|]. cbn. by rewrite Hx, IH. Qed.

Lemma drop_while_stop {A} (f : A → bool) x l : f x = false → drop_while f (x :: l) = x :: l.
Proof. intros H. cbn. by rewrite H. Qed.

Lemma take_while_stop {A} (f : A → bool) x l : f x = false → take_while f (x :: l) = [].
Proof. intros H. cbn. by rewrite H. Qed.

Lemma drop_while_all {A} (f : A → bool) l : Forall (λ x, f x = true) l → drop_while f l = [].
Proof. induction 1 as [|x l Hx _ IH]; [done|]. cbn. by rewrite Hx. Qed.

Lemma drop_while_idem {A} (f : A → bool) l : drop_while f (drop_while f l) = drop_while f l.
Proof.
  induction l as [|x l IH]; [done|]. cbn. destruct (f x) eqn:E; [done|]. cbn. by rewrite E.
Qed.

Lemma drop_while_trimmed {A} (f : A → bool) l :
  (∀ x, head l = Some x → f x = false) → drop_while f l = l.
Proof. destruct l as [|x l]; [done|]. intros H. cbn. by rewrite (H x). Qed.

Lemma strip_chars_spec ws pad1 core pad2 :
  Forall (in_class ws) pad1 → Forall (in_class ws) pad2 → trimmed ws core →
  strip_chars ws (pad1 ++ core ++ pad2) = core.
Proof.
  intros H1 H2 [Hh Hl]. unfold strip_chars.
  rewrite (drop_while_app (λ c, ws c.1)) by exact H1.
  destruct core as [|x core].
  - cbn [app]. by rewrite (drop_while_all (λ c, ws c.1) pad2) by exact H2.
  - cbn [app]. rewrite drop_while_stop by (by apply Hh).
    change (x :: core ++ pad2) with ((x :: core) ++ pad2).
    rewrite reverse_app, (drop_while_app (λ c, ws c.1)).
    2:{ apply Forall_reverse. exact H2. }
    rewrite drop_while_trimmed; [apply reverse_involutive|].
    intros c Hc. apply Hl. by rewrite <- head_reverse.
Qed.

Lemma strip_chars_decompose ws cs :
  ∃ pad1 pad2, cs = pad1 ++ strip_chars ws cs ++ pad2
    ∧ Forall (in_class ws) pad1 ∧ Forall (in_class ws) pad2 ∧ trimmed ws (strip_chars ws cs).
Proof.
  unfold strip_chars. set (f := λ c : N * string, ws c.1).
  exists (take_while f cs), (reverse (take_while f (reverse (drop_while f cs)))).
  assert (reverse (drop_while f (reverse (drop_while f cs)))
          ++ reverse (take_while f (reverse (drop_while f cs))) = drop_while f cs) as Hr.
  { rewrite <- reverse_app, take_drop_while. apply reverse_involutive. }
  split; [by rewrite Hr, take_drop_while|].
  split; [apply take_while_Forall|]. split; [apply Forall_reverse, take_while_Forall|].
  split.
  - intros c Hc.
    destruct (reverse (drop_while f (reverse (drop_while f cs)))) as [|y l'] eqn:E'; [done|].
    cbn in Hc. injection Hc as ->. cbn [app] in Hr. symmetry in Hr.
    exact (drop_while_head f cs _ _ Hr).
  - intros c Hc. rewrite last_reverse in Hc.
    destruct (drop_while f (reverse (drop_while f cs))) as [|x l] eqn:E; [done|].
    cbn in Hc. injection Hc as ->. exact (drop_while_head f _ _ _ E).
Qed.

Lemma strip_chars_trimmed ws cs : trimmed ws cs → strip_chars ws cs = cs.
Proof.
  intros H. pose proof (strip_chars_spec ws [] cs [] (Forall_nil_2 _) (Forall_nil_2 _) H) as E.
  by rewrite app_nil_r in E.
Qed.

Lemma strip_chars_idem ws cs : strip_chars ws (strip_chars ws cs) = strip_chars ws cs.
Proof.
  destruct (strip_chars_decompose ws cs) as (p1 & p2 & _ & _ & _ & Ht).
  by apply strip_chars_trimmed.
Qed.

(** The characters of a stripped text. *)
Lemma chars_strip s : chars (strip s) = strip_chars is_space (chars s).
Proof.
  unfold strip.
  destruct (strip_chars_decompose is_space (chars s)) as (p1 & p2 & E & _).
  by apply (chars_text_infix s p1 _ p2).
Qed.

(** A text is white space, its stripped form, and white space. *)
Lemma strip_decompose s :
  ∃ pad1 pad2, s = String.app pad1 (String.app (strip s) pad2)
    ∧ white_space pad1 ∧ white_space pad2 ∧ trimmed is_space (chars (strip s)).
Proof.
  destruct (strip_chars_decompose is_space (chars s)) as (p1 & p2 & E & H1 & H2 & Ht).
  exists (text p1), (text p2). unfold white_space.
  rewrite (chars_text_prefix s _ _ E).
  assert (chars s = (p1 ++ strip_chars is_space (chars s)) ++ p2) as E'
    by (by rewrite <- app_assoc).
  rewrite (chars_text_suffix s _ _ E'), chars_strip.
  split; [|done]. unfold strip. by rewrite <- !text_app, <- E, text_chars.
Qed.

Lemma strip_idem s : strip (strip s) = strip s.
Proof. unfold strip at 1. by rewrite chars_strip, strip_chars_idem. Qed.

Lemma span_chars_spec f s :
  s = String.app (span_chars f s).1 (span_chars f s).2
  ∧ chars (span_chars f s).1 = take_while (λ c, f c.1) (chars s)
  ∧ chars (span_chars f s).2 = drop_while (λ c, f c.1) (chars s).
Proof.
  unfold span_chars. cbn [fst snd].
  pose proof (take_drop_while (λ c : N * string, f c.1) (chars s)) as E.
  split; [by rewrite <- text_app, E, text_chars|].
  symmetry in E. split.
  - by apply (chars_text_prefix s _ _ E).
  - by apply (chars_text_suffix s _ _ E).
Qed.

(** A prefix of characters of the class, followed by a character outside it
    or by nothing. *)
Lemma span_chars_app f a b :
  Forall (λ c, f c.1 = true) (chars a) → boundary b →
  (∀ c, head (chars b) = Some c → f c.1 = false) →
  span_chars f (String.app a b) = (a, b).
Proof.
  intros Ha Hb Hc. unfold span_chars. rewrite chars_app by done.
  rewrite (take_while_app (λ c, f c.1)), (drop_while_app (λ c, f c.1)) by done.
  rewrite drop_while_trimmed by done.
  assert (take_while (λ c : N * string, f c.1) (chars b) = []) as ->.
  { destruct (chars b) as [|x l]; [done|]. cbn. by rewrite (Hc x). }
  by rewrite app_nil_r, !text_chars.
Qed.

Lemma decimal_value_spec cp d :
  decimal_value cp = Some d →
  ∃ z, In z decimal_zeros ∧ (z ≤ cp < z + 10)%N ∧ d = Z.of_N (cp - z).
Proof.
  unfold decimal_value.
  destruct (List.find _ decimal_zeros) as [z|] eqn:E; [|done]. intros [= <-].
  apply List.find_some in E as [Hin Hz]. exists z. split; [done|]. split; [|done].
  apply andb_prop in Hz as [H1 H2]. apply N.leb_le in H1. apply N.ltb_lt in H2. lia.
Qed.

Lemma decimal_value_range cp d : decimal_value cp = Some d → 0 ≤ d ≤ 9.
Proof. intros (z & _ & Hz & ->)%decimal_value_spec. lia. Qed.

Lemma is_decimal_points cp : is_decimal cp = true → In cp decimal_points.
Proof.
  unfold is_decimal. destruct (decimal_value cp) as [d|] eqn:E; [|done]. intros _.
  apply decimal_value_spec in E as (z & Hin & Hz & _).
  apply in_flat_map. exists z. split; [done|].
  apply in_map_iff. exists (cp - z)%N. split; [lia|].
  assert (cp - z = 0 ∨ cp - z = 1 ∨ cp - z = 2 ∨ cp - z = 3 ∨ cp - z = 4 ∨ cp - z = 5
          ∨ cp - z = 6 ∨ cp - z = 7 ∨ cp - z = 8 ∨ cp - z = 9)%N as H by lia.
  cbn [In]. intuition auto.
Qed.

(** A test that holds of each of the digits holds of every decimal digit. *)
Lemma decimal_forall (P : N → bool) :
  forallb P decimal_points = true → ∀ cp, is_decimal cp = true → P cp = true.
Proof.
  intros H cp Hcp. rewrite forallb_forall in H. apply H. by apply is_decimal_points.
Qed.

Lemma decimal_not_int_space cp : is_decimal cp = true → is_int_space cp = false.
Proof.
  intros H. apply negb_true_iff. revert cp H.
  apply (decimal_forall (λ cp, negb (is_int_space cp))). vm_compute. reflexivity.
Qed.

Lemma decimal_not_space cp : is_decimal cp = true → is_space cp = false.
Proof.
  intros H. apply negb_true_iff. revert cp H.
  apply (decimal_forall (λ cp, negb (is_space cp))). vm_compute. reflexivity.
Qed.

Lemma decimal_not_mark cp :
  is_decimal cp = true → (cp =? 0x2D)%N = false ∧ (cp =? 0x2B)%N = false
                         ∧ (cp =? 0x5F)%N = false ∧ (cp =? 0x22)%N = false.
Proof.
  intros H.
  assert (negb ((cp =? 0x2D) || (cp =? 0x2B) || (cp =? 0x5F) || (cp =? 0x22))%N = true) as E.
  { revert cp H.
    apply (decimal_forall (λ cp, negb ((cp =? 0x2D) || (cp =? 0x2B) || (cp =? 0x5F)
                                       || (cp =? 0x22))%N)).
    vm_compute. reflexivity. }
  apply negb_true_iff in E. repeat (apply orb_false_elim in E as [E ?]). done.
Qed.

Lemma parse_digits_decimal cs acc count :
  Forall decimal_char cs →
  parse_digits acc count true cs =
    Some (foldl (λ acc c, acc * 10 + digit_of c) acc cs, (count + N.of_nat (length cs))%N).
Proof.
  intros H. revert acc count. induction H as [|c cs Hc _ IH]; intros acc count.
  - cbn. by rewrite N.add_0_r.
  - cbn [parse_digits foldl length]. unfold decimal_char, is_decimal in Hc. unfold digit_of at 2.
    destruct (decimal_value c.1) as [d|]; [|done]. cbn [default from_option id].
    rewrite IH. do 2 f_equal. lia.
Qed.

Lemma parse_number_decimal negative cs :
  Forall decimal_char cs → cs ≠ [] →
  parse_number negative cs =
    if (N.of_nat (length cs) <=? max_str_digits)%N
    then Some (if negative then - digits_value cs else digits_value cs) else None.
Proof.
  intros H Hne. unfold parse_number. destruct cs as [|c cs]; [done|].
  cbn [parse_digits]. pose proof H as [Hc Hcs]%Forall_cons.
  unfold decimal_char, is_decimal in Hc.
  destruct (decimal_value c.1) as [d|] eqn:Ed; [|done].
  rewrite parse_digits_decimal by done.
  replace (0 + 1 + N.of_nat (length cs))%N with (N.of_nat (length (c :: cs)))
    by (cbn [length]; lia).
  unfold digits_value. cbn [foldl]. unfold digit_of. rewrite Ed. reflexivity.
Qed.

(** [int] of a text of decimal digits. *)
Lemma int_of_str_decimal ds :
  Forall decimal_char (chars ds) → ds ≠ EmptyString →
  int_of_str ds =
    if (N.of_nat (length (chars ds)) <=? max_str_digits)%N
    then Some (digits_value (chars ds)) else None.
Proof.
  intros H Hne. unfold int_of_str.
  assert (chars ds ≠ []) as Hcs.
  { destruct ds as [|a r]; [done|]. by rewrite chars_cons. }
  rewrite strip_chars_trimmed.
  2:{ split; intros c Hc.
      - apply decimal_not_int_space. destruct (chars ds) as [|x l]; [done|].
        cbn in Hc. injection Hc as <-. by apply Forall_cons in H as [? _].
      - apply decimal_not_int_space. apply last_Some_elem_of in Hc.
        by apply (proj1 (Forall_forall _ _) H c). }
  destruct (chars ds) as [|c cs] eqn:E; [done|].
  pose proof H as [Hc _]%Forall_cons. apply decimal_not_mark in Hc as (-> & -> & _).
  by apply parse_number_decimal.
Qed.

Lemma digits_value_nonneg cs : 0 ≤ digits_value cs.
Proof.
  unfold digits_value.
  assert (∀ acc, 0 ≤ acc → 0 ≤ foldl (λ acc c, acc * 10 + digit_of c) acc cs) as H.
  { induction cs as [|c cs IH]; intros acc Hacc; [done|]. cbn [foldl]. apply IH.
    unfold digit_of. destruct (decimal_value c.1) as [d|] eqn:E; cbn [default from_option id].
    - apply decimal_value_range in E. lia.
    - lia. }
  by apply H.
Qed.

Lemma strip_prefix_Some p s r : strip_prefix p s = Some r ↔ s = String.app p r.
Proof.
  revert s. induction p as [|a p IH]; intros s.
  - cbn [strip_prefix]. split; [by intros [= ->]|by intros ->].
  - destruct s as [|b s]; cbn [strip_prefix].
    + split; [done|]. cbv [String.append]; discriminate.
    + change (String.app (String a p) r) with (String a (String.app p r)).
      destruct (Ascii.eqb_spec a b) as [->|Hne].
      * rewrite IH. split; [by intros ->|by intros [= ->]].
      * split; [done|]. intros [= ? ?]. done.
Qed.

Lemma strip_prefix_ci_Some p s r :
  strip_prefix_ci p s = Some r →
  ∃ p', s = String.app p' r ∧ lower p' = lower p.
Proof.
  revert s. induction p as [|a p IH]; intros s.
  - cbn [strip_prefix_ci]. intros [= ->]. by exists EmptyString.
  - destruct s as [|b s]; cbn [strip_prefix_ci]; [done|].
    destruct (Ascii.eqb_spec (lower_char a) (lower_char b)) as [Heq|Hne]; [|done].
    intros (p' & -> & Hl)%IH. exists (String b p'). split; [done|].
    cbn [lower]. by rewrite Hl, Heq.
Qed.

Lemma span_spec f s :
  s = String.app (span f s).1 (span f s).2
  ∧ all_chars f (span f s).1 = true
  ∧ match (span f s).2 with
    | EmptyString => True
    | String c _ => f c = false
    end.
Proof.
  induction s as [|c s (IH1 & IH2 & IH3)]; [done|].
  cbn [span]. destruct (f c) eqn:E.
  - destruct (span f s) as [a b]. cbn [fst snd all_chars] in *.
    rewrite E, IH2. split; [|done].
    change (String.app (String c a) b) with (String c (String.app a b)). by rewrite <- IH1.
  - cbn [fst snd all_chars]. by rewrite E.
Qed.

Lemma span_app f a c post :
  all_chars f a = true → f c = false →
  span f (String.app a (String c post)) = (a, String c post).
Proof.
  intros Ha Hc. induction a as [|x a IH].
  - change (String.app EmptyString ?s) with s. cbn [span]. by rewrite Hc.
  - change (String.app (String x a) ?s) with (String x (String.app a s)).
    cbn [all_chars] in Ha. apply andb_prop in Ha as [Hx Ha].
    cbn [span]. by rewrite Hx, IH.
Qed.

(** ** The binary fetcher *)

Lemma backoff_shift delay i : backoff (delay * 2)%Q i = backoff delay (S i).
Proof. unfold backoff. by rewrite Nat.iter_succ_r. Qed.

Lemma attempts_S k delay url :
  attempts (S k) delay url =
  Request (ImageGet url) :: Sleep delay :: attempts k (delay * 2)%Q url.
Proof.
  unfold attempts. rewrite <- cons_seq, <- seq_shift. simpl. do 2 f_equal.
  induction (seq 0 k) as [|i l IH]; simpl; [done|].
  by rewrite IH, backoff_shift.
Qed.

Lemma attempts_trace_S k delay url (tr : trace) :
  rev (attempts (S k) delay url) ++ tr =
  rev (attempts k (delay * 2)%Q url) ++ Sleep delay :: Request (ImageGet url) :: tr.
Proof. rewrite attempts_S. simpl. by rewrite <- !app_assoc. Qed.

Lemma retry_loop_spec W n delay url tr :
  ∃ k : nat, (k ≤ n)%nat ∧
    (∀ i : nat, (i < k)%nat → attempt_fails W (rev (attempts i delay url) ++ tr) url) ∧
    ((k = n ∧
      retry_loop W n delay url tr = (Ok None, rev (attempts k delay url) ++ tr)) ∨
     ((k < n)%nat ∧ ∃ resp,
        fetch W (rev (attempts k delay url) ++ tr) url = Some resp ∧
        usable resp = true ∧
        retry_loop W n delay url tr =
          (Ok (Some (data_uri resp)),
           Request (ImageGet url) :: rev (attempts k delay url) ++ tr))).
Proof.
  revert delay tr. induction n as [|n IH]; intros delay tr.
  - exists 0%nat. split; [lia|]. split; [intros i Hi; lia|]. left. done.
  - assert (Hfail : attempt_fails W tr url →
        retry_loop W (S n) delay url tr =
        retry_loop W n (delay * 2)%Q url (Sleep delay :: Request (ImageGet url) :: tr)).
    { unfold attempt_fails. simpl. unfold bind, session_get, sleep, ret.
      destruct (fetch W tr url) as [resp|]; [intros ->|]; done. }
    destruct (fetch W tr url) as [resp|] eqn:Hf.
    + destruct (usable resp) eqn:Hu.
      * exists 0%nat. split; [lia|]. split; [intros i Hi; lia|]. right.
        split; [lia|]. exists resp. simpl. split; [done|]. split; [done|].
        unfold bind, session_get, ret. by rewrite Hf, Hu.
      * destruct (IH (delay * 2)%Q (Sleep delay :: Request (ImageGet url) :: tr))
          as (k & Hk & Hprev & Hres).
        exists (S k). split; [lia|]. rewrite attempts_trace_S. split.
        { intros [|i] Hi; [unfold attempt_fails; simpl; by rewrite Hf|].
          rewrite attempts_trace_S. apply Hprev. lia. }
        rewrite Hfail by (unfold attempt_fails; by rewrite Hf).
        destruct Hres as [[-> Hr]|(Hlt & resp' & ? & ? & Hr)].
        -- left. done.
        -- right. split; [lia|]. by exists resp'.
    + destruct (IH (delay * 2)%Q (Sleep delay :: Request (ImageGet url) :: tr))
        as (k & Hk & Hprev & Hres).
      exists (S k). split; [lia|]. rewrite attempts_trace_S. split.
      { intros [|i] Hi; [unfold attempt_fails; simpl; by rewrite Hf|].
        rewrite attempts_trace_S. apply Hprev. lia. }
      rewrite Hfail by (unfold attempt_fails; by rewrite Hf).
      destruct Hres as [[-> Hr]|(Hlt & resp' & ? & ? & Hr)].
      * left. done.
      * right. split; [lia|]. by exists resp'.
Qed.

Lemma image_gets_app tr1 tr2 : image_gets (tr1 ++ tr2) = image_gets tr1 ++ image_gets tr2.
Proof. unfold image_gets. apply omap_app. Qed.

Lemma image_gets_attempts k delay url :
  image_gets (rev (attempts k delay url)) = replicate k url.
Proof.
  revert delay. induction k as [|k IH]; intros delay; [done|].
  rewrite attempts_S. simpl. rewrite <- app_assoc, image_gets_app, IH. simpl.
  change (url :: replicate k url) with (replicate (S k) url).
  by rewrite replicate_S_end.
Qed.









Example media_type_examples :
  media_type padded_response = "image/png"
  ∧ data_uri padded_response = "data:image/png;base64,iVA="
  ∧ media_type {| status_code := 200; content := []; content_type := Some " ;x" |}
    = "application/octet-stream"
  ∧ media_type {| status_code := 200; content := [];
                  content_type := Some (String.app "a/b" nbsp) |} = "a/b".
Proof. repeat split; vm_compute; reflexivity. Qed.


(** ** Merging records *)

Lemma fresh_not_seen seen parsed cm : cm ∈ fresh seen parsed → Comment.id cm ∉ seen.
Proof.
  revert seen. induction parsed as [|x rest IH]; intros seen; simpl; [by intros ?%elem_of_nil|].
  destruct (decide (Comment.id x ∈ seen)) as [Hin|Hout]; [by apply IH|].
  intros [->|Hcm]%elem_of_cons; [done|]. apply IH in Hcm. set_solver.
Qed.

Lemma fresh_sublist seen parsed : sublist (fresh seen parsed) parsed.
Proof.
  revert seen. induction parsed as [|x rest IH]; intros seen; simpl; [done|].
  destruct (decide _); [by apply sublist_cons|by apply sublist_skip].
Qed.

Lemma fresh_NoDup seen parsed : NoDup (ids (fresh seen parsed)).
Proof.
  revert seen. induction parsed as [|x rest IH]; intros seen; simpl; [constructor|].
  destruct (decide (Comment.id x ∈ seen)); [by apply IH|].
  simpl. constructor; [|by apply IH].
  intros (cm & Heq & Hcm)%list_elem_of_fmap. apply fresh_not_seen in Hcm. set_solver.
Qed.

Lemma fresh_seen_all seen parsed :
  Forall (fun cm => Comment.id cm ∈ seen) parsed → fresh seen parsed = [].
Proof.
  induction 1 as [|x rest Hx _ IH]; simpl; [done|]. by rewrite decide_True.
Qed.


(** The merge loop computes [fresh] of the parsed batch, or raises as the
    parser does. *)
Lemma merge_records_fresh raws seen comments added :
  merge_records raws seen comments added =
    let? parsed := parse_all raws in
    Ok (list_to_set (ids (fresh seen parsed)) ∪ seen,
        comments ++ fresh seen parsed,
        added + Z.of_nat (length (fresh seen parsed))).
Proof.
  revert seen comments added. induction raws as [|c rest IH]; intros seen comments added; simpl.
  - rewrite app_nil_r, Z.add_0_r. do 3 f_equal. set_solver.
  - destruct (parse_comment c) as [cm|e]; simpl; [|done].
    destruct (decide (Comment.id cm ∈ seen)) as [Hin|Hout]; rewrite IH;
      destruct (parse_all rest) as [parsed|e]; simpl; try done.
    + by rewrite decide_True.
    + rewrite decide_False by done. simpl. rewrite <- app_assoc. simpl.
      f_equal. f_equal; [f_equal|lia]. set_solver.
Qed.

Lemma merge_records_ok raws seen comments added s' c' a' :
  merge_records raws seen comments added = Ok (s', c', a') →
  ∃ parsed, parse_all raws = Ok parsed ∧
    s' = list_to_set (ids (fresh seen parsed)) ∪ seen ∧
    c' = comments ++ fresh seen parsed ∧
    a' = added + Z.of_nat (length (fresh seen parsed)).
Proof.
  rewrite merge_records_fresh. destruct (parse_all raws) as [parsed|e]; simpl; [|done].
  intros [= <- <- <-]. by exists parsed.
Qed.


(** ** Pagination *)



(** One iteration of the loop, exit by exit. *)
Lemma paginate_S W n site hash url pd seen comments tr :
  paginate W (S n) site hash url pd seen comments tr =
  if current_min_sort comments <=? 0
  then (Ok (Build_paged CursorNotPositive pd seen comments), tr)
  else
    let tr1 := Request (PageCall site hash url (current_min_sort comments)) :: tr in
    match api W tr (PageCall site hash url (current_min_sort comments)) with
    | None => (Raise RequestException, tr1)
    | Some resp =>
        match page_records resp with
        | Raise e => (Raise e, tr1)
        | Ok new_raw =>
            if negb (truthy new_raw)
            then (Ok (Build_paged EmptyPage (pd + 1) seen comments), tr1)
            else
              match py_iter new_raw with
              | Raise e => (Raise e, tr1)
              | Ok raws =>
                  match merge_records raws seen comments 0 with
                  | Raise e => (Raise e, tr1)
                  | Ok (seen', comments', added) =>
                      if added =? 0
                      then (Ok (Build_paged NothingNew (pd + 1) seen' comments'), tr1)
                      else paginate W n site hash url (pd + 1) seen' comments'
                             (Sleep (3 # 25) :: tr1)
                  end
              end
        end
    end.
Proof.
  simpl. destruct (current_min_sort comments <=? 0); [done|].
  unfold bind at 1. unfold page_call, get_json.
  destruct (api W tr _) as [resp|]; [|done].
  unfold page_records, lift, bind, rbind.
  destruct (dict_get resp "data" JNull) as [v_data|]; [|done].
  destruct (dict_get (py_or v_data (JObj [])) "comments" JNull) as [v_comments|]; [|done].
  destruct (negb (truthy (py_or v_comments (JArr [])))); [done|].
  destruct (py_iter (py_or v_comments (JArr []))) as [raws|]; [|done].
  destruct (merge_records raws seen comments 0) as [[[seen' comments'] added]|]; [|done].
  destruct (added =? 0); done.
Qed.





Example same_record_stops_after_one_call :
  match collect_all_comments same_record_world "https://site/game/" 400 [] with
  | (Ok (meta, comments, _), tr) => (Meta.pages meta, length comments, page_calls tr)
  | (Raise _, _) => (0, 0%nat, 0)
  end = (1, 1%nat, 1).
Proof. vm_compute. reflexivity. Qed.


(** ** Traces *)

Lemma emits_ret {A} P (a : A) : emits P (ret a).
Proof. intros tr. by exists []. Qed.

Lemma emits_raise {A} P e : emits P (@raise A e).
Proof. intros tr. by exists []. Qed.

Lemma emits_lift {A} P (r : res A) : emits P (lift r).
Proof. intros tr. by exists []. Qed.

Lemma emits_bind {A B} P (m : M A) (k : A → M B) :
  emits P m → (∀ a, emits P (k a)) → emits P (bind m k).
Proof.
  intros Hm Hk tr. unfold bind. destruct (Hm tr) as (ev & Hev & HP).
  destruct (m tr) as [[a|e] tr1]; simpl in *; subst.
  - destruct (Hk a (ev ++ tr)) as (ev' & -> & HP').
    exists (ev' ++ ev). split; [by rewrite app_assoc|by apply Forall_app].
  - by exists ev.
Qed.

Lemma emits_sleep P q : P (Sleep q) → emits P (sleep q).
Proof. intros HP tr. exists [Sleep q]. split; [done|by constructor]. Qed.

Lemma emits_get_json P W r : P (Request r) → emits P (get_json W r).
Proof. intros HP tr. exists [Request r]. split; [done|by constructor]. Qed.

Lemma emits_session_get P W url : P (Request (ImageGet url)) → emits P (session_get W url).
Proof. intros HP tr. exists [Request (ImageGet url)]. split; [done|by constructor]. Qed.

Lemma emits_except_request {A} P (m h : M A) :
  emits P m → emits P h → emits P (except_request m h).
Proof.
  intros Hm Hh tr. unfold except_request. destruct (Hm tr) as (ev & Hev & HP).
  destruct (m tr) as [[a|e] tr1]; simpl in *; subst; [by exists ev|].
  destruct e; try by exists ev.
  destruct (Hh (ev ++ tr)) as (ev' & -> & HP').
  exists (ev' ++ ev). split; [by rewrite app_assoc|by apply Forall_app].
Qed.

Lemma emits_mono {A} (P Q : event → Prop) (m : M A) :
  (∀ e, P e → Q e) → emits P m → emits Q m.
Proof.
  intros HPQ Hm tr. destruct (Hm tr) as (ev & Hev & HP). exists ev.
  split; [done|]. eapply Forall_impl; eauto.
Qed.

Lemma emits_retry_loop W n delay url : emits fetch_event (retry_loop W n delay url).
Proof.
  revert delay. induction n as [|n IH]; intros delay; simpl; [apply emits_ret|].
  apply emits_bind; [by apply emits_session_get|]. intros [resp|].
  - destruct (usable resp); [apply emits_ret|].
    apply emits_bind; [by apply emits_sleep|]. intros _. apply IH.
  - apply emits_bind; [by apply emits_sleep|]. intros _. apply IH.
Qed.

Lemma emits_fill_cache W urls cache : emits fetch_event (fill_cache W urls cache).
Proof.
  revert cache. induction urls as [|u urls IH]; intros cache; simpl; [apply emits_ret|].
  apply emits_bind; [apply emits_retry_loop|]. intros d.
  apply emits_bind; [by apply emits_sleep|]. intros _. apply IH.
Qed.

Lemma emits_embed_avatars W comments : emits fetch_event (embed_avatars W comments).
Proof.
  apply emits_bind; [apply emits_fill_cache|]. intros cache. apply emits_ret.
Qed.

Lemma emits_embed_linked_images W comments :
  emits fetch_event (embed_linked_images W comments).
Proof.
  apply emits_bind; [apply emits_lift|]. intros g.
  apply emits_bind; [apply emits_fill_cache|]. intros cache. apply emits_ret.
Qed.

Lemma emits_complete_threads W roots site hash url seen comments counts :
  emits thread_event (complete_threads W roots site hash url seen comments counts).
Proof.
  revert seen comments counts.
  induction roots as [|root rest IH]; intros seen comments counts; simpl; [apply emits_ret|].
  destruct (_ >? _); [|apply IH].
  apply emits_bind.
  { apply emits_except_request; [|apply emits_ret].
    apply emits_bind; [by apply emits_get_json|]. intros ?. apply emits_ret. }
  intros [tdata|]; [|apply IH].
  apply emits_bind; [apply emits_lift|]; intros v_data.
  apply emits_bind; [apply emits_lift|]; intros v_comments.
  apply emits_bind; [apply emits_lift|]; intros raws.
  apply emits_bind; [apply emits_lift|]; intros [[seen' comments'] added].
  apply emits_bind; [by apply emits_sleep|]. intros _. apply IH.
Qed.

Lemma emits_thread_completion W site hash url seen comments :
  emits thread_event (thread_completion W site hash url seen comments).
Proof. apply emits_complete_threads. Qed.

Lemma emits_paginate W n site hash url pd seen comments :
  emits page_event (paginate W n site hash url pd seen comments).
Proof.
  revert pd seen comments. induction n as [|n IH]; intros pd seen comments; simpl;
    [apply emits_ret|].
  destruct (_ <=? _); [apply emits_ret|].
  apply emits_bind; [by apply emits_get_json|]. intros resp.
  apply emits_bind; [apply emits_lift|]; intros v_data.
  apply emits_bind; [apply emits_lift|]; intros v_comments.
  destruct (negb _); [apply emits_ret|].
  apply emits_bind; [apply emits_lift|]; intros raws.
  apply emits_bind; [apply emits_lift|]; intros [[seen' comments'] added].
  destruct (added =? 0); [apply emits_ret|].
  apply emits_bind; [by apply emits_sleep|]. intros _. apply IH.
Qed.

Lemma emits_initial_batch W url : emits first_event (initial_batch W url).
Proof.
  unfold initial_batch.
  apply emits_bind; [by apply emits_get_json|]. intros initial.
  do 10 (apply emits_bind; [apply emits_lift|]; intros ?).
  apply emits_bind; [apply emits_lift|]; intros [[seen comments] added].
  apply emits_ret.
Qed.

(** ** A failing page call *)

Lemma failed_page_call_app W ev tr :
  Forall no_page_call ev → failed_page_call W (ev ++ tr) = failed_page_call W tr.
Proof.
  induction 1 as [|e ev He _ IH]; [done|]. simpl.
  destruct e as [[]|]; done.
Qed.

Lemma emits_no_failed_page_call {A} W (P : event → Prop) (m : M A) tr :
  emits P m → (∀ e, P e → no_page_call e) →
  failed_page_call W (snd (m tr)) = failed_page_call W tr.
Proof.
  intros Hm HP. destruct (Hm tr) as (ev & -> & Hev).
  apply failed_page_call_app. eapply Forall_impl; eauto.
Qed.

Lemma paginate_failure W n site hash url pd seen comments tr :
  failed_page_call W tr = false →
  match paginate W n site hash url pd seen comments tr with
  | (Ok _, tr') => failed_page_call W tr' = false
  | (Raise e, tr') =>
      failed_page_call W tr' = true →
      e = RequestException ∧
      ∃ c tr0, tr' = Request (PageCall site hash url c) :: tr0 ∧
               api W tr0 (PageCall site hash url c) = None
  end.
Proof.
  revert pd seen comments tr. induction n as [|n IH]; intros pd seen comments tr Htr; [done|].
  rewrite paginate_S. destruct (_ <=? _); [done|]. cbv zeta.
  destruct (api W tr _) as [resp|] eqn:Hapi.
  2:{ intros _. split; [done|]. by eexists _, _. }
  assert (Hok : failed_page_call W
            (Request (PageCall site hash url (current_min_sort comments)) :: tr) = false).
  { simpl. by rewrite Hapi. }
  destruct (page_records resp) as [new_raw|]; [|by rewrite Hok].
  destruct (negb _); [done|].
  destruct (py_iter new_raw) as [raws|]; [|by rewrite Hok].
  destruct (merge_records _ _ _ _) as [[[seen' comments'] added]|]; [|by rewrite Hok].
  destruct (added =? 0); [done|]. by apply IH.
Qed.

Example page_failure_loses_collection :
  api failing_page_world [] (FirstPage "https://site/game/") =
    Some (JObj [("data", JObj [("comments",
            JArr [JObj [("id", JInt 1); ("sort", JInt 10)]])])])
  ∧ api failing_page_world [Request (FirstPage "https://site/game/")]
      (PageCall 6289 "null" "https://site/game/" 10) = None
  ∧ collect_all_comments failing_page_world "https://site/game/" 400 [] =
      (Raise RequestException,
       [Request (PageCall 6289 "null" "https://site/game/" 10);
        Request (FirstPage "https://site/game/")])
  ∧ (∀ depth, fst (main failing_page_world depth "https://site/game/" 400 []) = Exit 1).
Proof. repeat split; try intros depth; vm_compute; reflexivity. Qed.

Lemma no_page_call_first e : first_event e → no_page_call e.
Proof. by destruct e as [[]|]. Qed.

Lemma no_page_call_thread e : thread_event e → no_page_call e.
Proof. by destruct e as [[]|]. Qed.

Lemma no_page_call_fetch e : fetch_event e → no_page_call e.
Proof. by destruct e as [[]|]. Qed.

Lemma collect_page_failure W game_url max_pages r tr' :
  collect_all_comments W game_url max_pages [] = (r, tr') →
  failed_page_call W tr' = true →
  r = Raise RequestException ∧
  ∃ site hash c tr0,
    tr' = Request (PageCall site hash game_url c) :: tr0 ∧
    api W tr0 (PageCall site hash game_url c) = None.
Proof.
  unfold collect_all_comments, bind.
  pose proof (emits_no_failed_page_call W _ (initial_batch W game_url) []
                (emits_initial_batch W game_url) no_page_call_first) as H1.
  destruct (initial_batch W game_url []) as [[b|e] tr1]; simpl in H1.
  2:{ intros [= <- <-] Hf. congruence. }
  pose proof (paginate_failure W (Z.to_nat max_pages) (b_site_id b) (b_hash_val b)
                game_url 0 (b_seen b) (b_comments b) tr1 H1) as H2.
  destruct (paginate W _ _ _ _ _ _ _ tr1) as [[p|e] tr2].
  2:{ intros [= <- <-] Hf. destruct (H2 Hf) as (-> & c & tr0 & -> & Hapi).
      split; [done|]. by eexists _, _, _, _. }
  pose proof (emits_no_failed_page_call W _
                (thread_completion W (b_site_id b) (b_hash_val b) game_url (p_seen p)
                   (p_comments p)) tr2 (emits_thread_completion _ _ _ _ _ _)
                no_page_call_thread) as H3.
  destruct (thread_completion W _ _ _ _ _ tr2) as [[[[seen3 comments3] counts3]|e] tr3];
    simpl in H3.
  2:{ intros [= <- <-] Hf. congruence. }
  pose proof (emits_no_failed_page_call W _ (embed_avatars W comments3) tr3
                (emits_embed_avatars _ _) no_page_call_fetch) as H4.
  destruct (embed_avatars W comments3 tr3) as [[comments4|e] tr4]; simpl in H4.
  2:{ intros [= <- <-] Hf. congruence. }
  pose proof (emits_no_failed_page_call W _ (embed_linked_images W comments4) tr4
                (emits_embed_linked_images _ _) no_page_call_fetch) as H5.
  destruct (embed_linked_images W comments4 tr4) as [[imgs|e] tr5]; simpl in H5.
  - intros [= <- <-] Hf. congruence.
  - intros [= <- <-] Hf. congruence.
Qed.

(** C1, as the code has it. When an older-page call of a run fails at the
    transport level, [collect_all_comments] does not return: the
    [RequestException] leaves it with that call as the last event, no
    collection and no metadata reach the caller, and [main] exits with
    status 1. *)
Theorem later_page_failure_propagates (W : world) (game_url : string) (max_pages : Z) :
  failed_page_call W (snd (collect_all_comments W game_url max_pages [])) = true →
  fst (collect_all_comments W game_url max_pages []) = Raise RequestException
  ∧ (∃ site hash c tr0,
       snd (collect_all_comments W game_url max_pages []) =
         Request (PageCall site hash game_url c) :: tr0 ∧
       api W tr0 (PageCall site hash game_url c) = None)
  ∧ (∀ depth url, strip url = game_url →
       startswith game_url "http://" || startswith game_url "https://" = true →
       main W depth url max_pages [] =
         (Exit 1, snd (collect_all_comments W game_url max_pages []))).
Proof.
  destruct (collect_all_comments W game_url max_pages []) as [r tr'] eqn:Hrun.
  simpl. intros Hf.
  destruct (collect_page_failure W game_url max_pages r tr' Hrun Hf) as (-> & Hcall).
  split; [done|]. split; [done|].
  intros depth url Hs Hu. unfold main. rewrite Hs, Hu. simpl. by rewrite Hrun.
Qed.

Lemma later_page_failure_propagates_witness :
  failed_page_call failing_page_world
    (snd (collect_all_comments failing_page_world "https://site/game/" 400 [])) = true
  ∧ fst (collect_all_comments failing_page_world "https://site/game/" 400 []) =
      Raise RequestException.
Proof.
  split; [vm_compute; reflexivity|].
  apply (later_page_failure_propagates failing_page_world "https://site/game/" 400).
  vm_compute; reflexivity.
Defined.

(** ** The parser *)

Lemma span_all_chars f s : all_chars f (span f s).1 = true.
Proof.
  induction s as [|c s IH]; simpl; [done|].
  destruct (f c) eqn:Hc; [|done]. destruct (span f s) as [a b]. simpl in *.
  by rewrite Hc, IH.
Qed.

Lemma com_ans_at_decimal s ds :
  com_ans_at s = Some ds → Forall decimal_char (chars ds) ∧ ds ≠ EmptyString.
Proof.
  unfold com_ans_at. destruct (strip_prefix _ s) as [r|]; [|done].
  destruct (span_chars_spec is_decimal r) as (_ & Hds & _).
  destruct (span_chars is_decimal r) as [ds' r']. cbn [fst snd] in Hds.
  destruct ds' as [|c ds']; [done|]. destruct r' as [|c' r']; [done|].
  destruct (Ascii.eqb c' dq); [|done]. intros [= <-]. split; [|done].
  rewrite Hds. apply take_while_Forall.
Qed.

Lemma COM_ANS_RE_search_decimal s ds :
  COM_ANS_RE_search s = Some ds → Forall decimal_char (chars ds) ∧ ds ≠ EmptyString.
Proof.
  induction s as [|c s IH]; [done|].
  cbn [COM_ANS_RE_search].
  destruct (com_ans_at (String c s)) eqn:H; [|done]. intros [= <-].
  by apply com_ans_at_decimal in H.
Qed.

(** The parent inferred from the first anchor: the number its digits write,
    unless they are more than [int] converts. *)
Lemma infer_parent_anchor text :
  infer_parent text =
  match COM_ANS_RE_search text with
  | Some ds =>
      if (N.of_nat (length (chars ds)) <=? max_str_digits)%N
      then Ok (digits_value (chars ds)) else Raise ValueError
  | None => Ok 0
  end.
Proof.
  unfold infer_parent. destruct (COM_ANS_RE_search text) as [ds|] eqn:H; [|done].
  apply COM_ANS_RE_search_decimal in H as [Hall Hne]. cbn [py_int].
  rewrite (int_of_str_decimal ds Hall Hne). by destruct (_ <=? _)%N.
Qed.

Lemma py_int_int_of v : is_ok (py_int v) = true → py_int v = Ok (int_of v).
Proof. unfold int_of. by destruct (py_int v). Qed.

Lemma rbind_ok {A B : Type} (a : A) (k : A → res B) : rbind (Ok a) k = k a.
Proof. done. Qed.

Ltac rstep := repeat (rewrite rbind_ok; cbv beta).

Lemma parse_user_ok u :
  is_ok (py_int (field u "id" (JInt 0))) = true → parse_user (JObj u) = Ok (user_of u).
Proof.
  intros H. unfold parse_user. simpl dict_get. rstep. fold (field u "id" (JInt 0)).
  rewrite (py_int_int_of _ H). by rstep.
Qed.

Lemma parse_comment_well_shaped kvs :
  well_shaped kvs = true → parse_comment (JObj kvs) = Ok (comment_of kvs).
Proof.
  unfold well_shaped. intros H.
  repeat (apply andb_prop in H as [H ?]).
  rename H into Hrating, H0 into Hparent, H1 into Hroot, H2 into Htype, H3 into Hsort,
    H4 into Huser, H5 into Hid, H6 into Hcount.
  unfold parse_comment. simpl dict_get. rstep.
  assert (Hr : (if isinstance_dict (default JNull (assoc "raiting" kvs))
                then rbind (dict_item (JObj kvs) "raiting")
                       (λ r, rbind (dict_get r "val" (JInt 0)) (λ v, py_int v))
                else Ok 0) = Ok (rating_of kvs)).
  { unfold rating_ok, rating_of in *. simpl.
    destruct (assoc "raiting" kvs) as [[| | | | | |r]|]; simpl; try done.
    fold (field r "val" (JInt 0)). by apply py_int_int_of. }
  rewrite Hr. rstep.
  fold (field kvs "answer_comment_count" (JInt 0)).
  rewrite (py_int_int_of _ Hcount). rstep.
  unfold id_ok in Hid. unfold dict_item.
  assert (Hidv : field kvs "id" JNull = default JNull (assoc "id" kvs)) by done.
  destruct (assoc "id" kvs) as [v_id|] eqn:Hv; [|done]. simpl in Hidv.
  rstep. rewrite (py_int_int_of _ Hid). rstep.
  unfold user_ok in Huser. fold (field kvs "user" JNull).
  assert (Hu : parse_user (py_or (field kvs "user" JNull) (JObj [])) =
               Ok (match py_or (field kvs "user" JNull) (JObj []) with
                   | JObj u => user_of u
                   | _ => user_of []
                   end)).
  { destruct (py_or (field kvs "user" JNull) (JObj [])); try done.
    by apply parse_user_ok. }
  rewrite Hu. rstep.
  fold (field kvs "sort" (JInt 0)). rewrite (py_int_int_of _ Hsort). rstep.
  fold (field kvs "comment_type" (JInt 0)). rewrite (py_int_int_of _ Htype). rstep.
  fold (field kvs "answer_comment_root_id" (JInt 0)).
  rewrite (py_int_int_of _ Hroot). rstep.
  fold (field kvs "text_template" JNull). fold (str_field kvs "text_template").
  fold (infer_parent (str_field kvs "text_template")).
  unfold comment_of. rewrite Hidv.
  destruct (infer_parent (str_field kvs "text_template")) as [n|e]; [by rstep|done].
Qed.

Ltac in_keys := apply list_elem_of_In; simpl; tauto.







Example absent_fields_default :
  parse_comment (JObj [("id", JStr " 7 "); ("unknown", JNull)]) = Ok (default_comment 7)
  ∧ parse_comment (JObj [("id", JInt 7); ("text_template", JInt 12); ("edited", JStr "yes");
                         ("raiting", JStr "high"); ("attaches", JStr EmptyString);
                         ("user", JObj [("name", JArr [JInt 1])])])
    = Ok (Comment.mk 7 "12" EmptyString
            (User.mk 0 "[1]" EmptyString EmptyString false false EmptyString)
            0 0 true false 0 0 (JArr []) 0 0).
Proof. split; vm_compute; reflexivity. Qed.


(** ** Parent reconciliation *)

Lemma index_by_id_is_Some comments k :
  is_Some (index_by_id comments !! k) ↔ k ∈ ids comments.
Proof.
  unfold index_by_id.
  assert (∀ m : gmap Z Comment.t,
            is_Some (foldl (λ m c, <[Comment.id c := c]> m) m comments !! k) ↔
               k ∈ ids comments ∨ is_Some (m !! k)) as H.
  { induction comments as [|c cs IH]; intros m; simpl.
    - split; [by right|]. intros [?%elem_of_nil|?]; done.
    - rewrite IH, lookup_insert_is_Some, elem_of_cons.
      destruct (decide (Comment.id c = k)); naive_solver. }
  rewrite H, lookup_empty. split; [intros [?|[? ?]]; done|by left].
Qed.

Lemma set_parent_id_same c : Comment.set_parent_id c (Comment.parent_id c) = c.
Proof. by destruct c. Qed.

Lemma reconcile_reconciled_parent comments c :
  reconcile (index_by_id comments) c =
  Comment.set_parent_id c (reconciled_parent comments c).
Proof.
  unfold reconcile, reconciled_parent.
  destruct (Comment.answer_comment_root_id c =? 0); [done|].
  rewrite (bool_decide_ext _ _ (index_by_id_is_Some comments (Comment.parent_id c))).
  destruct (_ && _); [by rewrite set_parent_id_same|done].
Qed.

Lemma reconcile_parents_map comments :
  reconcile_parents comments =
  map (λ c, Comment.set_parent_id c (reconciled_parent comments c)) comments.
Proof.
  unfold reconcile_parents. apply map_ext. intros c. apply reconcile_reconciled_parent.
Qed.

Lemma reconcile_parents_ids comments : ids (reconcile_parents comments) = ids comments.
Proof.
  rewrite reconcile_parents_map. unfold ids. rewrite map_map. by apply map_ext.
Qed.

Example parent_outside_own_thread :
  map (λ c, (Comment.id c, Comment.answer_comment_root_id c, Comment.parent_id c))
      (reconcile_parents cross_thread_comments) = [(42, 0, 0); (50, 0, 0); (5, 42, 50)]
  ∧ (∀ fuel,
       resolves (index_by_id (reconcile_parents cross_thread_comments)) fuel 42 50 = false).
Proof.
  split; [vm_compute; reflexivity|].
  intros [|[|fuel]]; vm_compute; reflexivity.
Qed.

(** C9, as the code has it. After the reconciliation every comment with
    root-id 0 has inferred parent 0. Every comment with another root-id keeps
    the parent inferred from its markup when that is not 0 and is the id of a
    member of the collection, and gets its root-id otherwise (so no markup
    reference and root-id 42 gives 42). Nothing else of a comment changes. *)
Theorem reconcile_parents_result (comments : list Comment.t) :
  reconcile_parents comments =
    map (λ c, Comment.set_parent_id c (reconciled_parent comments c)) comments
  ∧ (∀ c, Comment.answer_comment_root_id c = 0 → reconciled_parent comments c = 0)
  ∧ (∀ c, Comment.answer_comment_root_id c ≠ 0 →
       (Comment.parent_id c ≠ 0 ∧ Comment.parent_id c ∈ ids comments ∧
        reconciled_parent comments c = Comment.parent_id c)
       ∨ ((Comment.parent_id c = 0 ∨ Comment.parent_id c ∉ ids comments) ∧
          reconciled_parent comments c = Comment.answer_comment_root_id c))
  ∧ (∀ c, Comment.answer_comment_root_id c = 42 → Comment.parent_id c = 0 →
       reconciled_parent comments c = 42).
Proof.
  split; [apply reconcile_parents_map|]. split; [|split].
  - intros c Hc. unfold reconciled_parent. by rewrite Hc.
  - intros c Hc. unfold reconciled_parent.
    destruct (Z.eqb_spec (Comment.answer_comment_root_id c) 0) as [|_]; [done|].
    destruct (Z.eqb_spec (Comment.parent_id c) 0) as [Hp|Hp]; simpl.
    + right. split; [by left|done].
    + case_bool_decide; [left|right]; auto.
  - intros c Hc Hp. unfold reconciled_parent. by rewrite Hc, Hp.
Qed.

(** C9, at a concrete reply: no quoted parent, so the thread root. *)
Lemma reconcile_parents_result_witness :
  reconciled_parent [plain_reply] plain_reply = 42.
Proof.
  apply (proj2 (proj2 (proj2 (reconcile_parents_result [plain_reply]))) plain_reply).
  - vm_compute. reflexivity.
  - vm_compute. reflexivity.
Defined.

(** ** The assembled tree *)

Section py_sorted_facts.

Context {A : Type} (le : A → A → bool).

Lemma sorted_insert_Permutation x l : sorted_insert le x l ≡ₚ x :: l.
Proof.
  induction l as [|y l IH]; simpl; [done|].
  destruct (le x y); [done|]. rewrite IH. apply Permutation_swap.
Qed.

Lemma py_sorted_Permutation l : py_sorted le l ≡ₚ l.
Proof.
  induction l as [|x l IH]; simpl; [done|].
  by rewrite sorted_insert_Permutation, IH.
Qed.

Lemma py_sorted_reverse_Permutation l : py_sorted_reverse le l ≡ₚ l.
Proof.
  unfold py_sorted_reverse.
  by rewrite reverse_Permutation, py_sorted_Permutation, reverse_Permutation.
Qed.

Hypothesis le_total : ∀ x y, le x y = true ∨ le y x = true.

Lemma sorted_insert_Sorted x l :
  Sorted (λ a b, le a b = true) l → Sorted (λ a b, le a b = true) (sorted_insert le x l).
Proof.
  induction 1 as [|y l Hl IH Hhd]; simpl; [by repeat constructor|].
  destruct (le x y) eqn:Hxy.
  - constructor; [by constructor|by constructor].
  - constructor; [done|].
    destruct l as [|z l]; simpl in *.
    + constructor. by destruct (le_total x y) as [?|?]; [congruence|].
    + destruct (le x z).
      * constructor. by destruct (le_total x y) as [?|?]; [congruence|].
      * constructor. by inversion Hhd.
Qed.

Lemma py_sorted_Sorted l : Sorted (λ a b, le a b = true) (py_sorted le l).
Proof.
  induction l as [|x l IH]; simpl; [constructor|]. by apply sorted_insert_Sorted.
Qed.

Lemma py_sorted_reverse_Sorted l :
  Sorted (λ a b, le b a = true) (py_sorted_reverse le l).
Proof.
  unfold py_sorted_reverse.
  apply (Sorted_reverse (λ a b, le a b = true)), py_sorted_Sorted.
Qed.

End py_sorted_facts.

Lemma Sorted_weaken {A : Type} (R R' : A → A → Prop) l :
  (∀ a b, R a b → R' a b) → Sorted R l → Sorted R' l.
Proof.
  intros HR. induction 1 as [|x l Hl IH Hhd]; constructor; [done|].
  destruct Hhd; constructor; auto.
Qed.

Section sorted_by_key.

Context {A : Type} (key : A → Z).

Lemma le_key_total (x y : A) : le_key key x y = true ∨ le_key key y x = true.
Proof. unfold le_key. destruct (Z.leb_spec (key x) (key y)); [by left|right]. apply Z.leb_le. lia. Qed.

(** Elements of equal key keep their order: the sort is stable. *)
Lemma sorted_insert_stable k x l :
  filter (λ a, key a = k) (sorted_insert (le_key key) x l) =
  filter (λ a, key a = k) (x :: l).
Proof.
  induction l as [|y l IH]; simpl; [done|].
  unfold le_key at 1. destruct (Z.leb_spec (key x) (key y)) as [Hle|Hlt]; [done|].
  rewrite filter_cons, IH, !filter_cons.
  repeat case_decide; try done; lia.
Qed.

Lemma py_sorted_stable k l :
  filter (λ a, key a = k) (py_sorted (le_key key) l) = filter (λ a, key a = k) l.
Proof.
  induction l as [|x l IH]; simpl; [done|].
  rewrite sorted_insert_stable, !filter_cons. by rewrite IH.
Qed.

Lemma py_sorted_reverse_stable k l :
  filter (λ a, key a = k) (py_sorted_reverse (le_key key) l) = filter (λ a, key a = k) l.
Proof.
  unfold py_sorted_reverse.
  by rewrite filter_reverse, py_sorted_stable, filter_reverse, reverse_involutive.
Qed.

Lemma py_sorted_ascending l :
  Sorted (λ a b, key a ≤ key b) (py_sorted (le_key key) l).
Proof.
  eapply Sorted_weaken; [|apply (py_sorted_Sorted _ le_key_total)].
  intros a b. unfold le_key. apply Z.leb_le.
Qed.

Lemma py_sorted_reverse_descending l :
  Sorted (λ a b, key b ≤ key a) (py_sorted_reverse (le_key key) l).
Proof.
  eapply Sorted_weaken; [|apply (py_sorted_reverse_Sorted _ le_key_total)].
  intros a b. unfold le_key. apply Z.leb_le.
Qed.

End sorted_by_key.

Lemma kids_at_add_child children c p :
  kids_at (add_child children c) p =
  kids_at children p ++ (if decide (Comment.parent_id c = p) then [c] else []).
Proof.
  unfold kids_at, add_child. destruct (decide (Comment.parent_id c = p)) as [<-|Hne].
  - by rewrite lookup_insert_eq.
  - rewrite lookup_insert_ne by done. by rewrite app_nil_r.
Qed.

Lemma foldl_group cs children roots :
  (foldl group (children, roots) cs).2 = roots ++ roots_of cs ∧
  ∀ p, kids_at (foldl group (children, roots) cs).1 p = kids_at children p ++ children_of cs p.
Proof.
  revert children roots. induction cs as [|c cs IH]; intros children roots; simpl.
  - split; [by rewrite app_nil_r|]. intros p. by rewrite app_nil_r.
  - unfold group at 2 4. destruct (is_root c) eqn:Hc; cbn [fst snd].
    + destruct (IH children (roots ++ [c])) as [-> Hk]. split.
      * unfold roots_of. rewrite filter_cons_True by done. by rewrite <- app_assoc.
      * intros p. rewrite Hk. unfold children_of.
        by rewrite filter_cons_False by (intros [? _]; congruence).
    + destruct (IH (add_child children c) roots) as [-> Hk]. split.
      * unfold roots_of. by rewrite filter_cons_False by congruence.
      * intros p. rewrite Hk, kids_at_add_child, <- app_assoc. f_equal.
        unfold children_of. destruct (decide (Comment.parent_id c = p)) as [Hp|Hp].
        -- by rewrite filter_cons_True.
        -- by rewrite filter_cons_False by (intros [_ ?]; done).
Qed.

Lemma group_all cs :
  (foldl group (∅, []) cs).2 = roots_of cs ∧
  ∀ p, kids_at (foldl group (∅, []) cs).1 p = children_of cs p.
Proof.
  destruct (foldl_group cs ∅ []) as [Hr Hk]. split; [done|].
  intros p. rewrite Hk. unfold kids_at. by rewrite lookup_empty.
Qed.

Section depth.

Context (cs : list Comment.t) (r : Comment.t).

Hypothesis ids_NoDup : NoDup (ids cs).

Hypothesis r_in : r ∈ cs.

Hypothesis r_root : is_root r = true.

Lemma same_id (a b : Comment.t) : a ∈ cs → b ∈ cs → Comment.id a = Comment.id b → a = b.
Proof.
  intros Ha Hb Hid. apply list_elem_of_lookup in Ha as [i Hi].
  apply list_elem_of_lookup in Hb as [j Hj].
  assert (i = j) as ->; [|congruence].
  apply (NoDup_lookup (ids cs) i j (Comment.id a)); [exact ids_NoDup| |]; unfold ids.
  - change (map Comment.id cs) with (Comment.id <$> cs).
    by rewrite list_lookup_fmap, Hi.
  - change (map Comment.id cs) with (Comment.id <$> cs).
    by rewrite list_lookup_fmap, Hj, Hid.
Qed.

Lemma at_depth_in n c : at_depth cs r n c → c ∈ cs.
Proof. by destruct 1. Qed.

Lemma at_depth_unique n m c : at_depth cs r n c → at_depth cs r m c → n = m.
Proof.
  intros Hn. revert m. induction Hn as [|n c' c Hc' IH Hin Hroot Hp]; intros m Hm.
  - inversion Hm; subst; [done|congruence].
  - inversion Hm as [|m' c'' c0 Hc'' Hin' Hroot' Hp']; subst; [congruence|].
    f_equal. apply IH.
    assert (c' = c'') as ->; [|done].
    apply same_id; eauto using at_depth_in. congruence.
Qed.

Lemma at_depth_path n c :
  at_depth cs r n c →
  ∃ path, length path = S n ∧ NoDup path ∧
    ∀ x, x ∈ path → ∃ m, (m ≤ n)%nat ∧ at_depth cs r m x.
Proof.
  induction 1 as [|n c' c Hc' (path & Hlen & Hnd & Hp) Hin Hroot Hpar].
  - exists [r]. split; [done|]. split; [apply NoDup_singleton|].
    intros x ->%list_elem_of_singleton. exists 0%nat. split; [lia|constructor].
  - exists (c :: path). split; [simpl; lia|]. split.
    + constructor; [|done]. intros (m & Hm & Hd)%Hp.
      assert (S n = m) by (eapply at_depth_unique; [econstructor|]; eauto). lia.
    + intros x [->|Hx]%elem_of_cons.
      * exists (S n). split; [lia|]. econstructor; eauto.
      * destruct (Hp x Hx) as (m & Hm & Hd). exists m. split; [lia|done].
Qed.

(** A chain of replies is shorter than the collection. *)
Lemma at_depth_bound n c : at_depth cs r n c → (n < length cs)%nat.
Proof.
  intros (path & Hlen & Hnd & Hp)%at_depth_path.
  assert (length path ≤ length cs)%nat; [|lia].
  apply submseteq_length, NoDup_submseteq; [done|].
  intros x (m & _ & Hd)%Hp. by eapply at_depth_in.
Qed.

End depth.

(** ** Ordering *)

Lemma traverse_Ok {A B : Type} (f : A → res B) l ys :
  traverse f l = Ok ys ↔ Forall2 (λ x y, f x = Ok y) l ys.
Proof.
  revert ys. induction l as [|x l IH]; intros ys; cbn [traverse].
  - split; [by intros [= <-]; constructor|]. by inversion 1.
  - split.
    + destruct (f x) as [y|e] eqn:Hy; [|done]. cbn [rbind].
      destruct (traverse f l) as [ys'|e] eqn:Hys; [|done]. cbn [rbind]. intros [= <-].
      constructor; [done|]. by apply IH.
    + inversion 1 as [|? y ? ys' Hy Hys]; subst. rewrite Hy. cbn [rbind].
      apply IH in Hys. by rewrite Hys.
Qed.

Lemma traverse_is_ok {A B : Type} (f : A → res B) l :
  Forall (λ x, is_ok (f x) = true) l → is_ok (traverse f l) = true.
Proof.
  induction 1 as [|x l Hx _ IH]; [done|]. cbn [traverse].
  destruct (f x); [|done]. cbn [rbind]. by destruct (traverse f l).
Qed.

Lemma traverse_map_fst {A B : Type} (f : A → res B) (g : B → A) l ys :
  (∀ x y, f x = Ok y → g y = x) → traverse f l = Ok ys → map g ys = l.
Proof.
  intros Hg H. apply traverse_Ok in H. induction H as [|x y l ys Hy _ IH]; [done|].
  cbn [map]. by rewrite (Hg x y Hy), IH.
Qed.

Lemma render_reply_Ok d children rc nd :
  render_reply d children rc = Ok nd →
  renderable rc ∧ ∃ replies, nd = Node rc replies
    ∧ render_reply_tree d (Comment.id rc) children = Ok replies.
Proof.
  unfold render_reply, renderable.
  destruct (render_attaches (Comment.attaches rc)); [|done]. cbn [rbind].
  destruct (render_reply_tree d (Comment.id rc) children) as [replies|]; [|done].
  cbn [rbind]. intros [= <-]. split; [done|]. by exists replies.
Qed.

Lemma map_key_sorted_insert {A : Type} (key : A → Z) x l :
  map key (sorted_insert (le_key key) x l) = sorted_insert Z.leb (key x) (map key l).
Proof.
  induction l as [|y l IH]; [done|]. cbn [sorted_insert map]. unfold le_key at 1.
  destruct (key x <=? key y); [done|]. cbn [map]. by rewrite IH.
Qed.

(** The keys of a sorted list are the sorted keys. *)
Lemma map_key_py_sorted {A : Type} (key : A → Z) l :
  map key (py_sorted (le_key key) l) = py_sorted Z.leb (map key l).
Proof.
  induction l as [|x l IH]; [done|]. cbn [py_sorted foldr map].
  fold (py_sorted (le_key key) l). fold (py_sorted Z.leb (map key l)).
  by rewrite map_key_sorted_insert, IH.
Qed.

Lemma map_key_py_sorted_reverse {A : Type} (key : A → Z) l :
  map key (py_sorted_reverse (le_key key) l) = py_sorted_reverse Z.leb (map key l).
Proof.
  unfold py_sorted_reverse.
  change (map key) with (fmap (M:=list) key).
  rewrite fmap_reverse. change (fmap (M:=list) key) with (map key).
  rewrite map_key_py_sorted. change (map key) with (fmap (M:=list) key).
  by rewrite fmap_reverse.
Qed.

Section render.

Context (cs : list Comment.t) (children : gmap Z (list Comment.t)).

Hypothesis kids_children : ∀ p, kids_at children p = children_of cs p.

Lemma render_reply_tree_S d node_id :
  render_reply_tree (S d) node_id children =
  traverse (render_reply d children)
    (py_sorted (le_key Comment.sort) (children_of cs node_id)).
Proof. cbn [render_reply_tree]. fold (kids_at children node_id). by rewrite kids_children. Qed.

(** The walk below a comment, when it returns: the replies grouped under it,
    sorted, and below each of them the same. *)
Lemma render_reply_tree_ordered d node_id nodes :
  render_reply_tree d node_id children = Ok nodes →
  map node_comment nodes = py_sorted (le_key Comment.sort) (children_of cs node_id)
  ∧ Forall (ordered_tree cs) nodes.
Proof.
  revert node_id nodes. induction d as [|d IH]; intros node_id nodes; [done|].
  rewrite render_reply_tree_S. intros H. split.
  - apply (traverse_map_fst _ node_comment _ _) in H; [done|].
    intros rc nd (_ & replies & -> & _)%render_reply_Ok. done.
  - apply traverse_Ok in H. clear -H IH.
    induction H as [|rc nd l nodes Hnd _ IHl]; constructor; [|done].
    apply render_reply_Ok in Hnd as (_ & replies & -> & Hr).
    destruct (IH _ _ Hr) as [Hmap Hord]. constructor; [| | |done]; rewrite Hmap.
    + apply py_sorted_Permutation.
    + apply py_sorted_ascending.
    + intros k. apply py_sorted_stable.
Qed.

Hypothesis ids_NoDup : NoDup (ids cs).

Hypothesis all_renderable : Forall renderable cs.

(** With depth left for the longest chain, the walk below a comment
    returns. *)
Lemma render_reply_tree_returns r d n c :
  r ∈ cs → is_root r = true → at_depth cs r n c → (length cs ≤ d + n)%nat →
  is_ok (render_reply_tree d (Comment.id c) children) = true.
Proof.
  intros r_in r_root. revert n c. induction d as [|d IH]; intros n c Hc Hlen.
  { pose proof (at_depth_bound cs r ids_NoDup r_in r_root n c Hc). lia. }
  rewrite render_reply_tree_S. apply traverse_is_ok, Forall_forall. intros rc Hrc.
  rewrite py_sorted_Permutation in Hrc.
  apply list_elem_of_filter in Hrc as [[Hroot Hp] Hin].
  assert (at_depth cs r (S n) rc) as Hd by (by econstructor).
  pose proof (at_depth_bound cs r ids_NoDup r_in r_root (S n) rc Hd).
  unfold render_reply.
  pose proof (proj1 (Forall_forall _ _) all_renderable rc Hin) as Hatt.
  unfold renderable in Hatt. destruct (render_attaches (Comment.attaches rc)); [|done].
  cbn [rbind]. specialize (IH (S n) rc Hd ltac:(lia)).
  by destruct (render_reply_tree d (Comment.id rc) children).
Qed.

End render.

Lemma build_html_unfold depth comments :
  build_html depth comments =
  let cs := reconcile_parents comments in
  let g := foldl group (∅, []) cs in
  Build_document cs
    (traverse (λ r, render_root depth r g.1) (py_sorted_reverse (le_key Comment.sort) g.2))
    (length cs).
Proof. unfold build_html. cbv zeta. by destruct (foldl group _ _). Qed.

Lemma is_root_set_parent_id c p : is_root (Comment.set_parent_id c p) = is_root c.
Proof. done. Qed.

Lemma render_root_Ok depth r children nd :
  render_root depth r children = Ok nd →
  renderable r ∧ ∃ replies, nd = Node r replies
    ∧ render_reply_tree depth (Comment.id r) children = Ok replies.
Proof. apply (render_reply_Ok depth children r nd). Qed.

Lemma filter_roots_set_parent (f : Comment.t → Z) l :
  (∀ c, is_root c = true → f c = 0) →
  filter (λ c, is_root c = true) (map (λ c, Comment.set_parent_id c (f c)) l) =
  map (λ c, Comment.set_parent_id c 0) (filter (λ c, is_root c = true) l).
Proof.
  intros Hf. induction l as [|c l IH]; [done|]. cbn [map].
  rewrite !filter_cons, is_root_set_parent_id, IH.
  case_decide as Hc; [|done]. cbn [map]. by rewrite (Hf c Hc).
Qed.

(** The roots after the reconciliation are the roots before it, with parent
    0. *)
Lemma roots_of_reconciled comments :
  roots_of (map (λ c, Comment.set_parent_id c (reconciled_parent comments c)) comments)
  = map (λ c, Comment.set_parent_id c 0) (roots_of comments).
Proof.
  apply filter_roots_set_parent. intros c Hc. unfold reconciled_parent.
  unfold is_root in Hc. by rewrite Hc.
Qed.

(** C4. The comments [build_html] leaves are those it was given, each with
    its reconciled parent. When the rendering returns, the items are the
    roots in descending order of sort key, and at every depth the replies
    grouped under a comment come in ascending order; roots and replies of
    equal sort key stay in the order of the collection. So roots with sort
    keys 10, 5, 20 come out as 20, 10, 5 and replies with sort keys 3, 1, 2
    as 1, 2, 3. The rendering returns when the ids are unique, every comment
    has attachments that can be rendered, and the depth allowed is at least
    the number of comments. *)
Theorem build_html_fully_ordered (depth : nat) (comments : list Comment.t) :
  let cs := map (λ c, Comment.set_parent_id c (reconciled_parent comments c)) comments in
  doc_comments (build_html depth comments) = cs
  ∧ roots_of cs = map (λ c, Comment.set_parent_id c 0) (roots_of comments)
  ∧ (∀ items, doc_items (build_html depth comments) = Ok items →
       map node_comment items ≡ₚ roots_of cs
       ∧ Sorted (λ a b, Comment.sort b ≤ Comment.sort a) (map node_comment items)
       ∧ (∀ k, filter (λ a, Comment.sort a = k) (map node_comment items) =
               filter (λ a, Comment.sort a = k) (roots_of cs))
       ∧ Forall (ordered_tree cs) items
       ∧ (map Comment.sort (roots_of comments) = [10; 5; 20] →
          map (λ n, Comment.sort (node_comment n)) items = [20; 10; 5])
       ∧ (∀ c replies, Node c replies ∈ items →
            map Comment.sort (children_of cs (Comment.id c)) = [3; 1; 2] →
            map (λ n, Comment.sort (node_comment n)) replies = [1; 2; 3]))
  ∧ (NoDup (ids comments) → (length comments ≤ depth)%nat → Forall renderable comments →
     is_ok (doc_items (build_html depth comments)) = true).
Proof.
  cbv zeta. rewrite <- reconcile_parents_map, build_html_unfold. cbv zeta.
  cbn [doc_comments doc_items].
  set (cs := reconcile_parents comments).
  destruct (group_all cs) as [Hroots Hkids]. rewrite Hroots.
  split; [done|]. split.
  { unfold cs. rewrite reconcile_parents_map. apply roots_of_reconciled. }
  split.
  - intros items Hitems.
    assert (map node_comment items = py_sorted_reverse (le_key Comment.sort) (roots_of cs))
      as Hmap.
    { apply (traverse_map_fst _ node_comment _ _) in Hitems; [done|].
      intros r nd (_ & replies & -> & _)%render_root_Ok. done. }
    rewrite Hmap.
    split; [apply py_sorted_reverse_Permutation|].
    split; [apply py_sorted_reverse_descending|].
    split; [intros k; apply py_sorted_reverse_stable|].
    apply traverse_Ok in Hitems.
    assert (Forall (λ nd, ∃ c replies, nd = Node c replies ∧
              map node_comment replies =
                py_sorted (le_key Comment.sort) (children_of cs (Comment.id c))
              ∧ Forall (ordered_tree cs) replies) items) as Hall.
    { clear -Hitems Hkids. induction Hitems as [|r nd l items Hnd _ IH]; constructor; [|done].
      apply render_root_Ok in Hnd as (_ & replies & -> & Hr).
      exists r, replies. split; [done|].
      by apply (render_reply_tree_ordered cs _ Hkids depth). }
    split; [|split].
    + apply Forall_forall. intros nd Hnd.
      destruct (proj1 (Forall_forall _ _) Hall nd Hnd) as (c & replies & -> & Hm & Hord).
      constructor; [| | |done]; rewrite Hm.
      * apply py_sorted_Permutation.
      * apply py_sorted_ascending.
      * intros k. apply py_sorted_stable.
    + intros Hkeys.
      rewrite <- (map_map node_comment Comment.sort), Hmap, map_key_py_sorted_reverse.
      unfold cs. rewrite reconcile_parents_map, roots_of_reconciled, map_map.
      rewrite (map_ext _ Comment.sort) by done.
      rewrite Hkeys. vm_compute. reflexivity.
    + intros c replies Hin Hkeys.
      destruct (proj1 (Forall_forall _ _) Hall _ Hin) as (c' & replies' & [= <- <-] & Hm & _).
      rewrite <- (map_map node_comment Comment.sort), Hm, map_key_py_sorted, Hkeys.
      vm_compute. reflexivity.
  - intros Hnd Hlen Hatt.
    assert (NoDup (ids cs)) as Hnd' by (unfold cs; by rewrite reconcile_parents_ids).
    assert (length cs = length comments) as Hlen'.
    { unfold cs. rewrite reconcile_parents_map. by rewrite length_map. }
    assert (Forall renderable cs) as Hatt'.
    { unfold cs. rewrite reconcile_parents_map. apply Forall_map.
      eapply Forall_impl; [exact Hatt|]. by intros c Hc. }
    apply traverse_is_ok, Forall_forall. intros r Hr.
    rewrite py_sorted_reverse_Permutation in Hr.
    apply list_elem_of_filter in Hr as [Hroot Hin].
    unfold render_root.
    pose proof (proj1 (Forall_forall _ _) Hatt' r Hin) as Hra. unfold renderable in Hra.
    destruct (render_attaches (Comment.attaches r)); [|done]. cbn [rbind].
    pose proof (render_reply_tree_returns cs _ Hkids Hnd' Hatt' r depth 0 r Hin Hroot
                  (at_depth_root cs r) ltac:(lia)) as Hok.
    by destruct (render_reply_tree depth (Comment.id r) (foldl group (∅, []) cs).1).
Qed.

Example ordering_example :
  doc_items (build_html 7 ordering_comments) = Ok ordering_items
  ∧ map (λ n, Comment.sort (node_comment n)) ordering_items = [20; 10; 5]
  ∧ map (λ n, map (λ m, Comment.sort (node_comment m)) (node_replies n)) ordering_items
    = [[]; [1; 2; 3]; []]
  ∧ map (sort_keys 3) ordering_items = [[20]; [10; 1; 4; 2; 3]; [5]].
Proof. repeat split; vm_compute; reflexivity. Qed.

Lemma renderable_forallb cs :
  forallb (λ c, is_ok (render_attaches (Comment.attaches c))) cs = true → Forall renderable cs.
Proof. intros H. apply Forall_forall. intros c Hc%list_elem_of_In. by apply (proj1 (forallb_forall _ _) H). Qed.

Lemma build_html_fully_ordered_witness :
  (doc_items (build_html 7 ordering_comments) = Ok ordering_items
   ∧ map Comment.sort (roots_of ordering_comments) = [10; 5; 20]
   ∧ map (λ n, Comment.sort (node_comment n)) ordering_items = [20; 10; 5]
   ∧ Forall (ordered_tree
               (map (λ c, Comment.set_parent_id c (reconciled_parent ordering_comments c))
                  ordering_comments)) ordering_items)
  ∧ (NoDup (ids ordering_comments) ∧ (length ordering_comments ≤ 7)%nat
     ∧ Forall renderable ordering_comments
     ∧ is_ok (doc_items (build_html 7 ordering_comments)) = true).
Proof.
  assert (doc_items (build_html 7 ordering_comments) = Ok ordering_items) as H
    by (vm_compute; reflexivity).
  assert (map Comment.sort (roots_of ordering_comments) = [10; 5; 20]) as K
    by (vm_compute; reflexivity).
  assert (NoDup (ids ordering_comments)) as Hnd.
  { apply (bool_decide_unpack _). vm_compute. reflexivity. }
  assert (length ordering_comments ≤ 7)%nat as Hlen.
  { apply Nat.leb_le. vm_compute. reflexivity. }
  assert (Forall renderable ordering_comments) as Hatt.
  { apply renderable_forallb. vm_compute. reflexivity. }
  destruct (build_html_fully_ordered 7 ordering_comments) as (_ & _ & T & S).
  destruct (T ordering_items H) as (_ & _ & _ & Hord & Hkeys & _).
  split.
  - split; [exact H|]. split; [exact K|]. split; [exact (Hkeys K)|exact Hord].
  - split; [exact Hnd|]. split; [exact Hlen|]. split; [exact Hatt|exact (S Hnd Hlen Hatt)].
Defined.

Example ties_keep_collection_order :
  is_ok (doc_items (build_html 5 tie_comments)) = true
  ∧ map (λ n, Comment.id (node_comment n)) (items_of (build_html 5 tie_comments)) = [2; 1; 3]
  ∧ map (λ n, map (λ m, Comment.id (node_comment m)) (node_replies n))
        (items_of (build_html 5 tie_comments)) = [[4; 5]; []; []].
Proof. repeat split; vm_compute; reflexivity. Qed.

Example rendering_raises :
  map discover_image_links giffy_comments = [Ok []]
  ∧ doc_items (build_html 7 giffy_comments) = Raise AttributeError
  ∧ map Comment.parent_id (doc_comments (build_html 2 chain_comments)) = [0; 1; 2]
  ∧ doc_items (build_html 2 chain_comments) = Raise RecursionError
  ∧ is_ok (doc_items (build_html 3 chain_comments)) = true.
Proof. repeat split; vm_compute; reflexivity. Qed.

(** ** The collection as a set keyed by id *)

Lemma keyed_empty : keyed ∅ [].
Proof. split; [done|constructor]. Qed.

Lemma ids_app l1 l2 : ids (l1 ++ l2) = ids l1 ++ ids l2.
Proof. unfold ids. apply map_app. Qed.

(** A comment a batch adds is the first record of the batch with its id. *)
Lemma fresh_first seen parsed cm :
  cm ∈ fresh seen parsed →
  ∃ l1 l2, parsed = l1 ++ cm :: l2 ∧ Comment.id cm ∉ ids l1.
Proof.
  revert seen. induction parsed as [|x rest IH]; intros seen; simpl; [by intros ?%elem_of_nil|].
  destruct (decide (Comment.id x ∈ seen)) as [Hin|Hout].
  - intros Hcm. pose proof (fresh_not_seen _ _ _ Hcm) as Hns.
    destruct (IH _ Hcm) as (l1 & l2 & -> & Hl1).
    exists (x :: l1), l2. split; [done|]. simpl. rewrite not_elem_of_cons. split; [|done].
    intros Heq. by rewrite Heq in Hns.
  - intros [->|Hcm]%elem_of_cons.
    + exists [], rest. split; [done|]. apply not_elem_of_nil.
    + pose proof (fresh_not_seen _ _ _ Hcm) as Hns.
      destruct (IH _ Hcm) as (l1 & l2 & -> & Hl1).
      exists (x :: l1), l2. split; [done|]. simpl. rewrite not_elem_of_cons. split; [|done].
      set_solver.
Qed.

Lemma keyed_fresh seen comments parsed :
  keyed seen comments →
  keyed (list_to_set (ids (fresh seen parsed)) ∪ seen) (comments ++ fresh seen parsed).
Proof.
  intros [-> Hnd]. split.
  - rewrite ids_app, list_to_set_app_L. set_solver.
  - rewrite ids_app. apply NoDup_app. split; [done|]. split; [|apply fresh_NoDup].
    intros k Hk (cm & -> & Hcm)%list_elem_of_fmap.
    apply fresh_not_seen in Hcm. apply Hcm. by apply elem_of_list_to_set.
Qed.

Lemma merge_records_keyed raws seen comments added s' c' a' :
  keyed seen comments →
  merge_records raws seen comments added = Ok (s', c', a') →
  keyed s' c' ∧ comments `prefix_of` c' ∧
  ∃ parsed, parse_all raws = Ok parsed ∧ c' = comments ++ fresh seen parsed.
Proof.
  intros Hk (parsed & Hp & -> & -> & ->)%merge_records_ok.
  split; [by apply keyed_fresh|]. split; [by apply prefix_app_r|]. by exists parsed.
Qed.

Lemma merge_records_duplicate r cm seen comments added :
  parse_comment r = Ok cm → Comment.id cm ∈ seen →
  merge_records [r] seen comments added = Ok (seen, comments, added).
Proof. intros Hp Hin. simpl. rewrite Hp. simpl. by rewrite decide_True. Qed.

Lemma paginate_keyed W n site hash url pd seen comments tr p tr' :
  keyed seen comments →
  paginate W n site hash url pd seen comments tr = (Ok p, tr') →
  keyed (p_seen p) (p_comments p) ∧ comments `prefix_of` p_comments p.
Proof.
  revert pd seen comments tr. induction n as [|n IH]; intros pd seen comments tr Hk.
  { intros [= <- <-]. done. }
  rewrite paginate_S. destruct (_ <=? _); [by intros [= <- <-]|]. cbv zeta.
  destruct (api W tr _) as [resp|]; [|done].
  destruct (page_records resp) as [new_raw|]; [|done].
  destruct (negb _); [by intros [= <- <-]|].
  destruct (py_iter new_raw) as [raws|]; [|done].
  destruct (merge_records _ _ _ _) as [[[seen' comments'] added]|] eqn:Hm; [|done].
  destruct (merge_records_keyed _ _ _ _ _ _ _ Hk Hm) as (Hk' & Hpre & _).
  destruct (added =? 0); [by intros [= <- <-]|].
  intros Hrun. destruct (IH _ _ _ _ Hk' Hrun) as [? ?]. split; [done|]. by etrans.
Qed.

(** One root of the thread-completion loop, exit by exit. *)
Lemma complete_threads_cons W root rest site hash url seen comments counts tr :
  complete_threads W (root :: rest) site hash url seen comments counts tr =
  if Comment.reply_expected root >? default 0 (counts !! Comment.id root) then
    let tr1 := Request (ThreadCall site hash url (Comment.id root)) :: tr in
    match api W tr (ThreadCall site hash url (Comment.id root)) with
    | None => complete_threads W rest site hash url seen comments counts tr1
    | Some tdata =>
        match page_records tdata with
        | Raise e => (Raise e, tr1)
        | Ok new_raw =>
            match py_iter new_raw with
            | Raise e => (Raise e, tr1)
            | Ok raws =>
                match merge_records raws seen comments 0 with
                | Raise e => (Raise e, tr1)
                | Ok (seen', comments', added) =>
                    complete_threads W rest site hash url seen' comments'
                      (if added =? 0 then counts
                       else <[Comment.id root := count_in_thread (Comment.id root) comments']>
                              counts)
                      (Sleep (2 # 25) :: tr1)
                end
            end
        end
    end
  else complete_threads W rest site hash url seen comments counts tr.
Proof.
  simpl. destruct (_ >? _); [|done].
  unfold bind at 1. unfold except_request, bind at 1. unfold thread_call, get_json, ret.
  destruct (api W tr _) as [tdata|]; [|done].
  unfold page_records, lift, bind, rbind.
  destruct (dict_get tdata "data" JNull) as [v_data|]; [|done].
  destruct (dict_get (py_or v_data (JObj [])) "comments" JNull) as [v_comments|]; [|done].
  destruct (py_iter (py_or v_comments (JArr []))) as [raws|]; [|done].
  destruct (merge_records raws seen comments 0) as [[[seen' comments'] added]|]; done.
Qed.

Lemma complete_threads_keyed W roots site hash url seen comments counts tr s' c' counts' tr' :
  keyed seen comments →
  complete_threads W roots site hash url seen comments counts tr = (Ok (s', c', counts'), tr') →
  keyed s' c' ∧ comments `prefix_of` c'.
Proof.
  revert seen comments counts tr.
  induction roots as [|root rest IH]; intros seen comments counts tr Hk.
  { intros [= <- <- <- <-]. done. }
  rewrite complete_threads_cons. destruct (_ >? _); [|by apply IH]. cbv zeta.
  destruct (api W tr _) as [tdata|]; [|by apply IH].
  destruct (page_records tdata) as [new_raw|]; [|done].
  destruct (py_iter new_raw) as [raws|]; [|done].
  destruct (merge_records _ _ _ _) as [[[seen' comments'] added]|] eqn:Hm; [|done].
  destruct (merge_records_keyed _ _ _ _ _ _ _ Hk Hm) as (Hk' & Hpre & _).
  intros Hrun. destruct (IH _ _ _ _ Hk' Hrun) as [? ?]. split; [done|]. by etrans.
Qed.

Lemma initial_batch_keyed W url tr b tr' :
  initial_batch W url tr = (Ok b, tr') → keyed (b_seen b) (b_comments b).
Proof.
  unfold initial_batch, bind, lift, first_page, get_json.
  destruct (api W tr _) as [initial|]; [|done].
  repeat match goal with
         | |- context [match ?r with Ok _ => _ | Raise _ => _ end] =>
             destruct r as [?|?] eqn:?; [|done]
         end.
  match goal with
  | H : merge_records _ _ _ _ = Ok ?m |- _ => destruct m as [[seen comments] added]
  end.
  intros [= <- <-]. simpl.
  eapply merge_records_keyed; [apply keyed_empty|done].
Qed.

(** A successful run, phase by phase. *)
Lemma collect_all_comments_ok W url max_pages tr meta cs imgs tr' :
  collect_all_comments W url max_pages tr = (Ok (meta, cs, imgs), tr') →
  ∃ b tr1 p tr2 s3 c3 k3 tr3 tr4,
    initial_batch W url tr = (Ok b, tr1) ∧
    paginate W (Z.to_nat max_pages) (b_site_id b) (b_hash_val b) url 0
      (b_seen b) (b_comments b) tr1 = (Ok p, tr2) ∧
    thread_completion W (b_site_id b) (b_hash_val b) url (p_seen p) (p_comments p) tr2 =
      (Ok (s3, c3, k3), tr3) ∧
    embed_avatars W c3 tr3 = (Ok cs, tr4) ∧
    embed_linked_images W cs tr4 = (Ok imgs, tr') ∧
    meta = Meta.mk (b_title b) (b_site_id b) (b_hash_val b) (b_total_count b) (p_pages_done p).
Proof.
  unfold collect_all_comments, bind.
  destruct (initial_batch W url tr) as [[b|?] tr1] eqn:E1; [|done].
  destruct (paginate W _ _ _ _ _ _ _ tr1) as [[p|?] tr2] eqn:E2; [|done].
  destruct (thread_completion W _ _ _ _ _ tr2) as [[[[s3 c3] k3]|?] tr3] eqn:E3; [|done].
  destruct (embed_avatars W c3 tr3) as [[cs4|?] tr4] eqn:E4; [|done].
  destruct (embed_linked_images W cs4 tr4) as [[imgs5|?] tr5] eqn:E5; [|done].
  intros [= <- <- <- <-]. exists b, tr1, p, tr2, s3, c3, k3, tr3, tr4. done.
Qed.

Lemma retry_loop_returns W n delay url tr :
  ∃ d tr', retry_loop W n delay url tr = (Ok d, tr').
Proof.
  destruct (retry_loop_spec W n delay url tr)
    as (k & _ & _ & [[_ ->]|(_ & resp & _ & _ & ->)]); by eexists _, _.
Qed.

Lemma fill_cache_returns W urls cache tr :
  ∃ cache' tr', fill_cache W urls cache tr = (Ok cache', tr').
Proof.
  revert cache tr. induction urls as [|u urls IH]; intros cache tr; simpl.
  - by eexists _, _.
  - unfold bind at 1. unfold url_to_data_uri.
    destruct (retry_loop_returns W (Z.to_nat 3) (1 # 4) u tr) as (d & tr1 & ->).
    unfold bind, sleep. apply IH.
Qed.

Lemma backfill_avatar_only cache c : only_avatar c (backfill_avatar cache c).
Proof.
  unfold only_avatar, backfill_avatar.
  destruct (nonempty _); [|by destruct c as [? ? ? []]].
  destruct (cache_hit _ _); [done|by destruct c as [? ? ? []]].
Qed.

Lemma embed_avatars_only W cs tr :
  ∃ cs' tr', embed_avatars W cs tr = (Ok cs', tr') ∧ Forall2 only_avatar cs cs'.
Proof.
  unfold embed_avatars, bind.
  destruct (fill_cache_returns W (elements (avatar_urls cs)) ∅ tr) as (cache & tr' & ->).
  eexists _, _. split; [done|].
  apply Forall2_fmap_r, Forall_Forall2_diag, Forall_forall.
  intros c _. apply backfill_avatar_only.
Qed.

Lemma only_avatar_ids cs cs' : Forall2 only_avatar cs cs' → ids cs' = ids cs.
Proof.
  induction 1 as [|c c' cs cs' Hc _ IH]; [done|]. simpl. rewrite IH. f_equal.
  unfold only_avatar in Hc. by rewrite Hc.
Qed.

Lemma build_html_only_parent depth cs :
  Forall2 only_parent cs (doc_comments (build_html depth cs)).
Proof.
  rewrite build_html_unfold. simpl. rewrite reconcile_parents_map.
  apply Forall2_fmap_r, Forall_Forall2_diag, Forall_forall. by intros c _.
Qed.

Lemma collect_all_comments_keyed W url max_pages tr meta cs imgs tr' :
  collect_all_comments W url max_pages tr = (Ok (meta, cs, imgs), tr') →
  NoDup (ids cs).
Proof.
  intros (b & tr1 & p & tr2 & s3 & c3 & k3 & tr3 & tr4 & H1 & H2 & H3 & H4 & _)
    %collect_all_comments_ok.
  apply initial_batch_keyed in H1.
  apply (paginate_keyed _ _ _ _ _ _ _ _ _ _ _ H1) in H2 as [H2 _].
  apply (complete_threads_keyed _ _ _ _ _ _ _ _ _ _ _ _ _ H2) in H3 as [[_ H3] _].
  destruct (embed_avatars_only W c3 tr3) as (cs' & tr'' & Heq & Hav).
  rewrite Heq in H4. injection H4 as <- <-.
  by rewrite (only_avatar_ids _ _ Hav).
Qed.

Example build_html_rewrites_parent :
  map Comment.parent_id [plain_reply] = [0]
  ∧ (∀ depth, map Comment.parent_id (doc_comments (build_html depth [plain_reply])) = [42]).
Proof. split; try intros depth; vm_compute; reflexivity. Qed.

(** C2, as the code has it. The collection is keyed by id: a record whose id
    is held changes nothing, a batch adds the first record of each new id at
    the end, and pagination and thread completion only extend the list.
    [embed_avatars] changes nothing but the inline avatar of an author, and
    the tree assembly nothing but the inferred parent, which it rewrites; the
    list a run returns holds no id twice. *)
Theorem collection_keyed_by_id (W : world) :
  (∀ r cm seen comments added,
     parse_comment r = Ok cm → Comment.id cm ∈ seen →
     merge_records [r] seen comments added = Ok (seen, comments, added))
  ∧ (∀ raws seen comments added s' c' a',
       keyed seen comments →
       merge_records raws seen comments added = Ok (s', c', a') →
       keyed s' c' ∧
       ∃ parsed, parse_all raws = Ok parsed ∧ c' = comments ++ fresh seen parsed ∧
         ∀ cm, cm ∈ fresh seen parsed →
           (Comment.id cm ∉ seen) ∧
           ∃ l1 l2, parsed = l1 ++ cm :: l2 ∧ Comment.id cm ∉ ids l1)
  ∧ (∀ n site hash url pd seen comments tr p tr',
       keyed seen comments →
       paginate W n site hash url pd seen comments tr = (Ok p, tr') →
       keyed (p_seen p) (p_comments p) ∧ comments `prefix_of` p_comments p)
  ∧ (∀ site hash url seen comments tr s' c' counts' tr',
       keyed seen comments →
       thread_completion W site hash url seen comments tr = (Ok (s', c', counts'), tr') →
       keyed s' c' ∧ comments `prefix_of` c')
  ∧ (∀ cs tr, ∃ cs' tr',
       embed_avatars W cs tr = (Ok cs', tr') ∧ Forall2 only_avatar cs cs')
  ∧ (∀ depth cs, Forall2 only_parent cs (doc_comments (build_html depth cs)))
  ∧ (∀ depth url max_pages tr meta cs imgs tr',
       collect_all_comments W url max_pages tr = (Ok (meta, cs, imgs), tr') →
       NoDup (ids cs) ∧ NoDup (ids (doc_comments (build_html depth cs)))).
Proof.
  split; [exact merge_records_duplicate|]. split.
  { intros raws seen comments added s' c' a' Hk Hm.
    destruct (merge_records_keyed _ _ _ _ _ _ _ Hk Hm) as (Hk' & _ & parsed & Hp & ->).
    split; [done|]. exists parsed. split; [done|]. split; [done|].
    intros cm Hcm. split; [by eapply fresh_not_seen|by eapply fresh_first]. }
  split; [intros; by eapply paginate_keyed|].
  split; [intros; by eapply complete_threads_keyed|].
  split; [apply embed_avatars_only|]. split; [apply build_html_only_parent|].
  intros depth url max_pages tr meta cs imgs tr' Hrun.
  pose proof (collect_all_comments_keyed _ _ _ _ _ _ _ _ Hrun) as Hnd.
  split; [done|]. rewrite build_html_unfold. simpl. by rewrite reconcile_parents_ids.
Qed.

(** C2, at a concrete record: an id already held changes nothing. *)
Lemma collection_keyed_by_id_witness :
  merge_records [same_record] {[7]} [comment_of [("id", JInt 7); ("sort", JInt 30)]] 0 =
    Ok ({[7]}, [comment_of [("id", JInt 7); ("sort", JInt 30)]], 0).
Proof.
  apply (proj1 (collection_keyed_by_id same_record_world) same_record
           (comment_of [("id", JInt 7); ("sort", JInt 30)])).
  - vm_compute. reflexivity.
  - apply (bool_decide_unpack _). vm_compute. reflexivity.
Defined.

(** ** Thread completion *)

Lemma foldl_count_reply comments (counts : gmap Z Z) k :
  default 0 (foldl count_reply counts comments !! k) =
  default 0 (counts !! k) + replies_held k comments.
Proof.
  revert counts. induction comments as [|c cs IH]; intros counts; simpl.
  - unfold replies_held. simpl. lia.
  - rewrite IH. unfold count_reply, replies_held. rewrite filter_cons.
    destruct (is_root c) eqn:Hc.
    + rewrite decide_False by (intros [? _]; done). done.
    + destruct (decide (Comment.answer_comment_root_id c = k)) as [<-|Hne].
      * rewrite decide_True by done. rewrite lookup_insert_eq. simpl. lia.
      * rewrite decide_False by (intros [_ ?]; done).
        by rewrite lookup_insert_ne.
Qed.

Lemma by_root_count_replies_held comments k :
  default 0 (foldl count_reply ∅ comments !! k) = replies_held k comments.
Proof. rewrite foldl_count_reply, lookup_empty. simpl. lia. Qed.

Lemma filter_agree {A} (P Q : A → Prop) `{∀ x, Decision (P x)} `{∀ x, Decision (Q x)} l :
  Forall (λ x, P x ↔ Q x) l → filter P l = filter Q l.
Proof.
  induction 1 as [|x l Hx _ IH]; [done|]. rewrite !filter_cons, IH.
  destruct (decide (P x)), (decide (Q x)); naive_solver.
Qed.

Lemma under_captured_other counts k v rest :
  k ∉ ids rest →
  filter (under_captured (<[k := v]> counts)) rest = filter (under_captured counts) rest.
Proof.
  intros Hk. apply filter_agree, Forall_forall. intros r Hr. unfold under_captured.
  rewrite lookup_insert_ne; [done|]. intros ->. apply Hk. by apply list_elem_of_fmap_2.
Qed.

Lemma thread_calls_request tr s h u k :
  thread_calls (Request (ThreadCall s h u k) :: tr) = k :: thread_calls tr.
Proof. done. Qed.

(** The calls of the loop: one for each root that the counts it starts from
    show under-captured, in the order of the roots. *)
Lemma complete_threads_calls W roots site hash url seen comments counts tr out tr' :
  NoDup (ids roots) →
  complete_threads W roots site hash url seen comments counts tr = (Ok out, tr') →
  thread_calls tr' = reverse (ids (filter (under_captured counts) roots)) ++ thread_calls tr.
Proof.
  revert seen comments counts tr.
  induction roots as [|root rest IH]; intros seen comments counts tr Hnd.
  { intros [= <- <-]. done. }
  apply NoDup_cons in Hnd as [Hroot Hnd].
  rewrite complete_threads_cons.
  destruct (Z.gtb_spec (Comment.reply_expected root) (default 0 (counts !! Comment.id root)))
    as [Hgt|Hle].
  2:{ rewrite filter_cons_False by (unfold under_captured; lia). by apply IH. }
  rewrite filter_cons_True by (unfold under_captured; lia).
  simpl ids. rewrite reverse_cons, <- app_assoc. simpl. cbv zeta.
  destruct (api W tr _) as [tdata|].
  2:{ intros Hrun. by rewrite (IH _ _ _ _ Hnd Hrun). }
  destruct (page_records tdata) as [new_raw|]; [|done].
  destruct (py_iter new_raw) as [raws|]; [|done].
  destruct (merge_records _ _ _ _) as [[[seen' comments'] added]|]; [|done].
  intros Hrun. rewrite (IH _ _ _ _ Hnd Hrun). simpl. f_equal. do 2 f_equal.
  destruct (added =? 0); [done|]. by apply under_captured_other.
Qed.

Lemma filter_absent (k : Z) (l : list Z) : k ∉ l → filter (λ x, x = k) l = [].
Proof.
  induction l as [|x l IH]; [done|]. intros [Hx Hl]%not_elem_of_cons.
  rewrite filter_cons_False by congruence. by apply IH.
Qed.

Lemma ids_filter_absent (P : Comment.t → Prop) `{∀ x, Decision (P x)} roots k :
  k ∉ ids roots → k ∉ ids (filter P roots).
Proof.
  intros Hk (y & -> & Hy)%list_elem_of_fmap. apply Hk.
  apply list_elem_of_fmap_2. by apply list_elem_of_filter in Hy as [_ ?].
Qed.

Lemma count_selected (P : Comment.t → Prop) `{∀ x, Decision (P x)} roots r :
  NoDup (ids roots) → r ∈ roots →
  length (filter (λ x, x = Comment.id r) (ids (filter P roots))) =
  if decide (P r) then 1%nat else 0%nat.
Proof.
  induction roots as [|x roots IH]; [by intros _ ?%elem_of_nil|].
  intros [Hx Hnd]%NoDup_cons Hr.
  apply elem_of_cons in Hr as [->|Hr].
  - rewrite filter_cons. destruct (decide (P x)).
    + simpl. rewrite filter_cons_True by done. simpl.
      by rewrite filter_absent by (by apply ids_filter_absent).
    + by rewrite filter_absent by (by apply ids_filter_absent).
  - rewrite <- (IH Hnd Hr). rewrite filter_cons. destruct (decide (P x)); [|done].
    simpl. rewrite filter_cons_False; [done|].
    intros Heq. apply Hx. rewrite Heq. by apply list_elem_of_fmap_2.
Qed.

Lemma roots_NoDup comments :
  NoDup (ids comments) → NoDup (ids (filter (λ c, is_root c = true) comments)).
Proof.
  intros Hnd. apply (sublist_NoDup _ _ Hnd).
  unfold ids. change (map Comment.id) with (fmap (M:=list) Comment.id).
  apply fmap_sublist, sublist_filter.
Qed.

Lemma calls_for_app k ev tr :
  calls_for k (ev ++ tr) = (calls_for k ev + calls_for k tr)%nat.
Proof.
  unfold calls_for, thread_calls. by rewrite omap_app, filter_app, length_app.
Qed.

Lemma thread_completion_calls W site hash url seen comments tr out tr' r :
  NoDup (ids comments) →
  thread_completion W site hash url seen comments tr = (Ok out, tr') →
  r ∈ comments → is_root r = true →
  calls_for (Comment.id r) tr' =
    (calls_for (Comment.id r) tr +
     if decide (replies_held (Comment.id r) comments < Comment.reply_expected r)%Z
     then 1 else 0)%nat.
Proof.
  intros Hnd Hrun Hr Hroot. unfold thread_completion in Hrun.
  apply complete_threads_calls in Hrun; [|by apply roots_NoDup].
  unfold calls_for at 1. rewrite Hrun, filter_app, length_app, filter_reverse, length_reverse.
  fold (calls_for (Comment.id r) tr). rewrite Nat.add_comm. f_equal.
  rewrite count_selected; [|by apply roots_NoDup|by apply list_elem_of_filter].
  pose proof (by_root_count_replies_held comments (Comment.id r)) as Hc.
  destruct (decide (under_captured _ r)) as [H1|H1],
           (decide (replies_held _ _ < _)) as [H2|H2]; try done;
    unfold under_captured in H1; rewrite Hc in H1; done.
Qed.

Lemma thread_completion_no_call W site hash url seen comments tr out tr' k :
  NoDup (ids comments) →
  thread_completion W site hash url seen comments tr = (Ok out, tr') →
  (∀ r, r ∈ comments → is_root r = true → Comment.id r ≠ k) →
  calls_for k tr' = calls_for k tr.
Proof.
  intros Hnd Hrun Hk. unfold thread_completion in Hrun.
  apply complete_threads_calls in Hrun; [|by apply roots_NoDup].
  unfold calls_for. rewrite Hrun, filter_app, length_app, filter_reverse, length_reverse.
  rewrite filter_absent; [done|].
  intros (r & -> & Hr)%list_elem_of_fmap.
  apply list_elem_of_filter in Hr as [_ Hr]. apply list_elem_of_filter in Hr as [Hroot Hr].
  by apply (Hk r).
Qed.

Lemma prefix_new_ids (comments c' : list Comment.t) cm :
  NoDup (ids c') → comments `prefix_of` c' → cm ∈ c' →
  cm ∈ comments ∨ Comment.id cm ∉ ids comments.
Proof.
  intros Hnd [k ->] [Hcm|Hcm]%elem_of_app; [by left|right].
  rewrite ids_app in Hnd. apply NoDup_app in Hnd as (_ & Hdisj & _).
  intros Hin. apply (Hdisj _ Hin). by apply list_elem_of_fmap_2.
Qed.

(** C5, as the code has it. The roots and the number of replies held for
    each are taken once, from the collection the phase starts from. For each
    of these roots the phase issues one thread call when the expected reply
    count of the root exceeds the number of replies held for its thread at
    the start, and none otherwise; for an id that is no root of the start
    collection it issues none. The phase only appends: the collection it
    starts from is a prefix of the one it leaves, still keyed by id, and every
    comment added has an id that was not held. *)
Theorem thread_completion_backfill (W : world) (site : Z) (hash url : string)
    (seen : gset Z) (comments : list Comment.t) (tr : trace)
    (s' : gset Z) (c' : list Comment.t) (counts' : gmap Z Z) (tr' : trace) :
  keyed seen comments →
  thread_completion W site hash url seen comments tr = (Ok (s', c', counts'), tr') →
  (∀ r, r ∈ comments → is_root r = true →
     calls_for (Comment.id r) tr' =
       (calls_for (Comment.id r) tr +
        if decide (replies_held (Comment.id r) comments < Comment.reply_expected r)%Z
        then 1 else 0)%nat)
  ∧ (∀ k, (∀ r, r ∈ comments → is_root r = true → Comment.id r ≠ k) →
       calls_for k tr' = calls_for k tr)
  ∧ keyed s' c'
  ∧ comments `prefix_of` c'
  ∧ (∀ cm, cm ∈ c' → cm ∈ comments ∨ Comment.id cm ∉ seen).
Proof.
  intros Hk Hrun.
  destruct (complete_threads_keyed _ _ _ _ _ _ _ _ _ _ _ _ _ Hk Hrun) as [Hk' Hpre].
  split; [|split; [|split; [done|split; [done|]]]].
  - intros r Hr Hroot. eapply thread_completion_calls; eauto. by destruct Hk.
  - intros k Hno. eapply thread_completion_no_call; eauto. by destruct Hk.
  - intros cm Hcm. destruct Hk as [-> _], Hk' as [_ Hnd'].
    destruct (prefix_new_ids _ _ _ Hnd' Hpre Hcm) as [?|Hn]; [by left|right].
    by rewrite elem_of_list_to_set.
Qed.

Example backfill_example :
  match thread_completion backfill_world 6289 "null" "https://site/game/"
          (list_to_set (ids backfill_comments)) backfill_comments [] with
  | (Ok (_, c', _), tr') => (ids c', thread_calls tr')
  | (Raise _, _) => ([], [])
  end = ([100; 200; 101; 102; 201; 103; 104; 105], [100]).
Proof. vm_compute. reflexivity. Qed.

(** The call for the second root goes out although the reply the first call
    brought fills its thread, and the third root, which holds none of its five
    replies, gets no call. *)
Example stale_count_and_late_root :
  late_run.2 =
    [Request (ThreadCall 6289 "null" "https://site/game/" 200); Sleep (2 # 25);
     Request (ThreadCall 6289 "null" "https://site/game/" 100)]
  ∧ map (λ c, (Comment.id c, Comment.answer_comment_root_id c, Comment.reply_expected c))
      late_run.1 = [(100, 0, 1); (200, 0, 1); (101, 100, 0); (201, 200, 0); (300, 0, 5)]
  ∧ replies_held 200 late_run.1 = 1
  ∧ calls_for 200 late_run.2 = 1%nat
  ∧ replies_held 300 late_run.1 = 0
  ∧ calls_for 300 late_run.2 = 0%nat.
Proof. repeat split; vm_compute; reflexivity. Qed.

Lemma thread_completion_backfill_witness :
  ∃ s' c' counts' tr',
    thread_completion backfill_world 6289 "null" "https://site/game/"
      (list_to_set (ids backfill_comments)) backfill_comments [] = (Ok (s', c', counts'), tr')
    ∧ backfill_comments `prefix_of` c'.
Proof.
  destruct (thread_completion backfill_world 6289 "null" "https://site/game/"
              (list_to_set (ids backfill_comments)) backfill_comments [])
    as [[[[s' c'] counts']|e] tr'] eqn:Hrun.
  - exists s', c', counts', tr'. split; [reflexivity|].
    refine (proj1 (proj2 (proj2 (proj2 (thread_completion_backfill backfill_world 6289 "null"
              "https://site/game/" (list_to_set (ids backfill_comments)) backfill_comments []
              s' c' counts' tr' _ Hrun))))).
    split; [reflexivity|]. apply (bool_decide_unpack _). vm_compute. reflexivity.
  - vm_compute in Hrun. discriminate Hrun.
Defined.

(** ** The two embedding passes *)

Lemma gets_for_replicate u m url tr :
  image_gets tr = replicate m url →
  gets_for u tr = if decide (url = u) then m else 0%nat.
Proof.
  unfold gets_for. intros ->. induction m as [|m IH]; simpl; [by destruct (decide _)|].
  rewrite filter_cons. destruct (decide (url = u)); simpl; [by rewrite IH|done].
Qed.

Lemma gets_for_app u ev tr : gets_for u (ev ++ tr) = (gets_for u ev + gets_for u tr)%nat.
Proof. unfold gets_for. by rewrite image_gets_app, filter_app, length_app. Qed.

(** One resolution: between one and [n] GETs of the URL, one when the first
    answer is usable, and none of another URL. *)
Lemma retry_loop_events W n delay url tr :
  ∃ d ev m, retry_loop W (S n) delay url tr = (Ok d, ev ++ tr) ∧
    image_gets ev = replicate m url ∧ (1 ≤ m ≤ S n)%nat ∧
    (always_usable W url → m = 1%nat).
Proof.
  destruct (retry_loop_spec W (S n) delay url tr)
    as (k & Hk & Hfail & [[-> ->]|(Hlt & resp & Hf & Hu & ->)]).
  - exists None, (rev (attempts (S n) delay url)), (S n).
    split; [done|]. split; [apply image_gets_attempts|]. split; [lia|].
    intros Hall. exfalso. specialize (Hfail 0%nat ltac:(lia)).
    unfold attempt_fails in Hfail. simpl in Hfail.
    destruct (Hall tr) as (resp & Hf & Hu). rewrite Hf in Hfail. congruence.
  - exists (Some (data_uri resp)), (Request (ImageGet url) :: rev (attempts k delay url)), (S k).
    split; [done|]. split.
    { simpl. rewrite image_gets_attempts. done. }
    split; [lia|]. intros Hall. destruct k as [|k]; [done|]. exfalso.
    specialize (Hfail 0%nat ltac:(lia)).
    unfold attempt_fails in Hfail. simpl in Hfail.
    destruct (Hall tr) as (resp' & Hf' & Hu'). rewrite Hf' in Hfail. congruence.
Qed.

(** The cache loop resolves each URL of the list once. *)
Lemma fill_cache_events W urls cache tr :
  NoDup urls →
  ∃ cache' ev, fill_cache W urls cache tr = (Ok cache', ev ++ tr) ∧
    ∀ u, ∃ m, gets_for u ev = m ∧
      (u ∈ urls → (1 ≤ m ≤ 3)%nat) ∧ (u ∉ urls → m = 0%nat) ∧
      (always_usable W u → u ∈ urls → m = 1%nat).
Proof.
  revert cache tr. induction urls as [|url urls IH]; intros cache tr Hnd.
  { exists cache, []. split; [done|]. intros u. exists 0%nat.
    split; [done|]. split; [by intros ?%elem_of_nil|]. split; [done|by intros _ ?%elem_of_nil]. }
  apply NoDup_cons in Hnd as [Hurl Hnd]. simpl. unfold bind at 1. unfold url_to_data_uri.
  change (Z.to_nat 3) with 3%nat.
  destruct (retry_loop_events W 2 (1 # 4) url tr) as (d & ev1 & m1 & -> & Hg1 & Hm1 & Hone).
  unfold bind at 1. unfold sleep.
  destruct (IH (<[url := d]> cache) (Sleep (1 # 20) :: ev1 ++ tr) Hnd)
    as (cache' & ev2 & -> & Hev2).
  exists cache', (ev2 ++ Sleep (1 # 20) :: ev1).
  split; [by rewrite <- app_assoc|].
  intros u. destruct (Hev2 u) as (m2 & Hm2 & Hin2 & Hout2 & Hone2).
  eexists. split; [reflexivity|].
  rewrite gets_for_app.
  change (Sleep (1 # 20) :: ev1) with ([Sleep (1 # 20)] ++ ev1).
  rewrite (gets_for_app u [Sleep (1 # 20)]).
  rewrite (gets_for_replicate u m1 url ev1 Hg1), Hm2. simpl.
  destruct (decide (url = u)) as [->|Hne].
  - rewrite (Hout2 Hurl). split; [intros _; lia|]. split; [intros []; by left|].
    intros Hall _. rewrite (Hone Hall). done.
  - split; [|split].
    + intros [?|Hu]%elem_of_cons; [done|]. specialize (Hin2 Hu). lia.
    + intros Hu. rewrite Hout2; [done|]. intros ?. apply Hu. by right.
    + intros Hall [?|Hu]%elem_of_cons; [done|]. rewrite (Hone2 Hall Hu). done.
Qed.

Lemma embed_avatars_events W cs tr :
  ∃ cache ev, embed_avatars W cs tr = (Ok (map (backfill_avatar cache) cs), ev ++ tr) ∧
    ∀ u, ∃ m, gets_for u ev = m ∧
      (u ∈ avatar_urls cs → (1 ≤ m ≤ 3)%nat) ∧ (u ∉ avatar_urls cs → m = 0%nat) ∧
      (always_usable W u → u ∈ avatar_urls cs → m = 1%nat).
Proof.
  unfold embed_avatars, bind.
  destruct (fill_cache_events W (elements (avatar_urls cs)) ∅ tr (NoDup_elements _))
    as (cache & ev & -> & Hev).
  exists cache, ev. split; [done|]. intros u. destruct (Hev u) as (m & ? & ? & ? & ?).
  exists m. rewrite elem_of_elements in *. done.
Qed.

Lemma embed_linked_images_events W cs tr pcu all :
  gather_links cs ∅ ∅ = Ok (pcu, all) →
  ∃ cache ev, embed_linked_images W cs tr = (Ok (items_by_comment cache pcu), ev ++ tr) ∧
    ∀ u, ∃ m, gets_for u ev = m ∧
      (u ∈ all → (1 ≤ m ≤ 3)%nat) ∧ (u ∉ all → m = 0%nat) ∧
      (always_usable W u → u ∈ all → m = 1%nat).
Proof.
  intros Hg. unfold embed_linked_images, bind, lift. rewrite Hg. simpl.
  destruct (fill_cache_events W (elements all) ∅ tr (NoDup_elements _))
    as (cache & ev & -> & Hev).
  exists cache, ev. split; [done|]. intros u. destruct (Hev u) as (m & ? & ? & ? & ?).
  exists m. rewrite elem_of_elements in *. done.
Qed.

Lemma image_gets_none ev : Forall no_image_get ev → image_gets ev = [].
Proof. induction 1 as [|e ev He _ IH]; [done|]. by destruct e as [[]|]. Qed.

Lemma emits_no_gets {A} (P : event → Prop) (m : M A) tr u :
  emits P m → (∀ e, P e → no_image_get e) →
  gets_for u (snd (m tr)) = gets_for u tr.
Proof.
  intros Hm HP. destruct (Hm tr) as (ev & -> & Hev). rewrite gets_for_app.
  unfold gets_for at 1. rewrite image_gets_none; [done|]. eapply Forall_impl; eauto.
Qed.

Lemma no_image_get_first e : first_event e → no_image_get e.
Proof. by destruct e as [[]|]. Qed.

Lemma no_image_get_page e : page_event e → no_image_get e.
Proof. by destruct e as [[]|]. Qed.

Lemma no_image_get_thread e : thread_event e → no_image_get e.
Proof. by destruct e as [[]|]. Qed.

Lemma avatar_urls_foldl (acc acc' : gset string) cs cs' :
  acc = acc' →
  Forall2 (λ c c', User.ava (Comment.user c) = User.ava (Comment.user c')) cs cs' →
  foldl (λ urls c, if nonempty (User.ava (Comment.user c))
                   then {[User.ava (Comment.user c)]} ∪ urls else urls) acc cs =
  foldl (λ urls c, if nonempty (User.ava (Comment.user c))
                   then {[User.ava (Comment.user c)]} ∪ urls else urls) acc' cs'.
Proof.
  intros Hacc Hall. revert acc acc' Hacc.
  induction Hall as [|c c' cs cs' Hc _ IH]; intros acc acc' ->; [done|].
  simpl. apply IH. by rewrite Hc.
Qed.

Lemma avatar_urls_backfill cache cs :
  avatar_urls (map (backfill_avatar cache) cs) = avatar_urls cs.
Proof.
  unfold avatar_urls. symmetry. apply avatar_urls_foldl; [done|].
  apply Forall2_fmap_r, Forall_Forall2_diag, Forall_forall. intros c _.
  unfold backfill_avatar. simpl.
  destruct (nonempty (User.ava (Comment.user c))); [|done].
  by destruct (cache_hit cache (User.ava (Comment.user c))).
Qed.

Lemma collect_all_comments_gets W url max_pages meta cs imgs tr' :
  collect_all_comments W url max_pages [] = (Ok (meta, cs, imgs), tr') →
  ∃ pcu all, gather_links cs ∅ ∅ = Ok (pcu, all) ∧
    ∀ u, always_usable W u →
      gets_for u tr' =
        ((if decide (u ∈ avatar_urls cs) then 1 else 0) +
         (if decide (u ∈ all) then 1 else 0))%nat.
Proof.
  intros (b & tr1 & p & tr2 & s3 & c3 & k3 & tr3 & tr4 & H1 & H2 & H3 & H4 & H5 & _)
    %collect_all_comments_ok.
  assert (∀ u, gets_for u tr3 = 0%nat) as Htr3.
  { intros u.
    pose proof (emits_no_gets _ (initial_batch W url) [] u (emits_initial_batch _ _)
                  no_image_get_first) as E1. rewrite H1 in E1.
    pose proof (emits_no_gets _ (paginate W (Z.to_nat max_pages) (b_site_id b)
                  (b_hash_val b) url 0 (b_seen b) (b_comments b)) tr1 u
                  (emits_paginate _ _ _ _ _ _ _ _) no_image_get_page) as E2. rewrite H2 in E2.
    pose proof (emits_no_gets _ (thread_completion W (b_site_id b) (b_hash_val b) url
                  (p_seen p) (p_comments p)) tr2 u
                  (emits_thread_completion _ _ _ _ _ _) no_image_get_thread) as E3.
    rewrite H3 in E3. simpl in *. by rewrite E3, E2, E1. }
  destruct (embed_avatars_events W c3 tr3) as (cache & ev4 & E4 & Hev4).
  rewrite E4 in H4. injection H4 as <- <-.
  destruct (gather_links (map (backfill_avatar cache) c3) ∅ ∅) as [[pcu all]|e] eqn:Hg.
  2:{ unfold embed_linked_images, bind, lift in H5. by rewrite Hg in H5. }
  exists pcu, all. split; [done|]. intros u Hu.
  destruct (embed_linked_images_events W _ (ev4 ++ tr3) pcu all Hg) as (cache5 & ev5 & E5 & Hev5).
  rewrite E5 in H5. injection H5 as _ <-.
  rewrite !gets_for_app, Htr3, Nat.add_0_r, Nat.add_comm.
  destruct (Hev4 u) as (m4 & -> & _ & Hout4 & Hone4).
  destruct (Hev5 u) as (m5 & -> & _ & Hout5 & Hone5).
  rewrite avatar_urls_backfill.
  f_equal; case_decide; auto.
Qed.

Example avatar_and_link_fetched_twice :
  image_gets (collect_all_comments shared_url_world "https://site/game/" 400 []).2 =
    ["https://cdn/a.png"; "https://cdn/a.png"]
  ∧ gets_for "https://cdn/a.png"
      (collect_all_comments shared_url_world "https://site/game/" 400 []).2 = 2%nat.
Proof. split; vm_compute; reflexivity. Qed.

(** C7, as the code has it. Each pass keeps a cache of its own. Within the
    avatar pass and within the linked-image pass every distinct URL is
    resolved once, by one to three GETs (one when the first answer is
    usable), and every occurrence in that pass reads the one cached result. A
    URL that is an avatar and a linked image is resolved once in each pass:
    over a run whose GETs of it succeed at once it is fetched as many times
    as there are passes that hold it. *)
Theorem binary_fetch_memoized_per_pass (W : world) :
  (∀ cs tr, ∃ cache ev,
     embed_avatars W cs tr = (Ok (map (backfill_avatar cache) cs), ev ++ tr) ∧
     ∀ u, ∃ m, gets_for u ev = m ∧
       (u ∈ avatar_urls cs → (1 ≤ m ≤ 3)%nat) ∧ (u ∉ avatar_urls cs → m = 0%nat) ∧
       (always_usable W u → u ∈ avatar_urls cs → m = 1%nat))
  ∧ (∀ cs tr pcu all,
       gather_links cs ∅ ∅ = Ok (pcu, all) →
       ∃ cache ev,
         embed_linked_images W cs tr = (Ok (items_by_comment cache pcu), ev ++ tr) ∧
         ∀ u, ∃ m, gets_for u ev = m ∧
           (u ∈ all → (1 ≤ m ≤ 3)%nat) ∧ (u ∉ all → m = 0%nat) ∧
           (always_usable W u → u ∈ all → m = 1%nat))
  ∧ (∀ url max_pages meta cs imgs tr',
       collect_all_comments W url max_pages [] = (Ok (meta, cs, imgs), tr') →
       ∃ pcu all, gather_links cs ∅ ∅ = Ok (pcu, all) ∧
         ∀ u, always_usable W u →
           gets_for u tr' =
             ((if decide (u ∈ avatar_urls cs) then 1 else 0) +
              (if decide (u ∈ all) then 1 else 0))%nat).
Proof.
  split; [apply embed_avatars_events|]. split; [apply embed_linked_images_events|].
  apply collect_all_comments_gets.
Qed.

(** C7, at a concrete run: the collection succeeds and the link pass has its
    own memo. *)
Lemma binary_fetch_memoized_per_pass_witness :
  ∃ meta cs imgs tr',
    collect_all_comments shared_url_world "https://site/game/" 400 [] =
      (Ok (meta, cs, imgs), tr')
    ∧ ∃ pcu all, gather_links cs ∅ ∅ = Ok (pcu, all).
Proof.
  destruct (collect_all_comments shared_url_world "https://site/game/" 400 [])
    as [[[[meta cs] imgs]|e] tr'] eqn:Hrun.
  - exists meta, cs, imgs, tr'. split; [reflexivity|].
    destruct (proj2 (proj2 (binary_fetch_memoized_per_pass shared_url_world))
                "https://site/game/" 400 meta cs imgs tr' Hrun) as (pcu & all & Hg & _).
    by exists pcu, all.
  - vm_compute in Hrun. discriminate Hrun.
Defined.

(** ** Image links *)










Lemma cache_hit_Some cache u d :
  cache_hit cache u = Some d → cache !! u = Some (Some d) ∧ d ≠ EmptyString.
Proof.
  unfold cache_hit. destruct (cache !! u) as [[[|ch s]|]|]; try done. by intros [= <-].
Qed.


Lemma fill_cache_values W urls cache tr cache' tr' u v :
  fill_cache W urls cache tr = (Ok cache', tr') → cache' !! u = Some v →
  cache !! u = Some v ∨ ∃ tr0 tr1, url_to_data_uri W u 3 tr0 = (Ok v, tr1).
Proof.
  revert cache tr. induction urls as [|url urls IH]; intros cache tr; simpl.
  { intros [= <- <-]. by left. }
  unfold bind at 1. destruct (url_to_data_uri W url 3 tr) as [[d|?] tr1] eqn:Hd; [|done].
  unfold bind at 1. unfold sleep. intros Hrest Hl.
  destruct (IH _ _ Hrest Hl) as [Hl0|?]; [|by right].
  destruct (decide (url = u)) as [->|Hne].
  - rewrite lookup_insert_eq in Hl0. injection Hl0 as <-. right. by eexists _, _.
  - rewrite lookup_insert_ne in Hl0 by done. by left.
Qed.


Example links_sorted_not_by_appearance :
  PLAIN_URL_RE_findall (Comment.text_html two_links) = ["https://h/b.png"; "https://h/a.png"]
  ∧ discover_image_links two_links = Ok ["https://h/a.png"; "https://h/b.png"].
Proof. split; vm_compute; reflexivity. Qed.

(** A bare link ends at white space of any script, and its scheme is read
    without regard to case. *)
Example link_ends_at_white_space :
  PLAIN_URL_RE_findall (String.app "https://h/a.png" (String.app nbsp "more"))
    = ["https://h/a.png"]
  ∧ PLAIN_URL_RE_findall (String.app "HTTP" (String.app long_s "://h/a.png b"))
    = [String.app "HTTP" (String.app long_s "://h/a.png")].
Proof. split; vm_compute; reflexivity. Qed.

Example unresolved_comment_absent :
  match embed_linked_images (images_world false) [two_links] [] with
  | (Ok imgs, _) => imgs !! 9
  | (Raise _, _) => Some []
  end = None
  ∧ match embed_linked_images (images_world true) [two_links] [] with
    | (Ok imgs, _) => imgs !! 9
    | (Raise _, _) => None
    end = Some [("https://h/b.png", data_uri png_response)].
Proof. split; vm_compute; reflexivity. Qed.



(** ** Escaping *)

Lemma count_char_app c s t :
  count_char c (String.app s t) = (count_char c s + count_char c t)%nat.
Proof. induction s as [|a s IH]; simpl; [done|]. rewrite IH. lia. Qed.

Lemma replace_char_app c b s t :
  replace_char c b (String.app s t) =
    String.app (replace_char c b s) (replace_char c b t).
Proof.
  induction s as [|a s IH]; simpl; [done|].
  destruct (Ascii.eqb a c); rewrite IH; [|done].
  by rewrite str_app_assoc.
Qed.

Lemma replace_char_ne c b a s :
  Ascii.eqb a c = false → replace_char c b (String a s) = String a (replace_char c b s).
Proof. intros H. simpl. by rewrite H. Qed.

Lemma html_escape_cons c s quotes :
  html_escape (String c s) quotes =
    String.app (escape_char quotes c) (html_escape s quotes).
Proof.
  unfold html_escape, escape_char.
  destruct (Ascii.eqb c "&"%char) eqn:E1.
  { apply Ascii.eqb_eq in E1 as ->. simpl. by destruct quotes. }
  destruct (Ascii.eqb c "<"%char) eqn:E2.
  { apply Ascii.eqb_eq in E2 as ->. simpl. by destruct quotes. }
  destruct (Ascii.eqb c ">"%char) eqn:E3.
  { apply Ascii.eqb_eq in E3 as ->. simpl. by destruct quotes. }
  rewrite !replace_char_ne by done.
  destruct quotes; [|done]. cbn [andb].
  destruct (Ascii.eqb c dq) eqn:E4.
  { apply Ascii.eqb_eq in E4 as ->. reflexivity. }
  rewrite !replace_char_ne by done.
  destruct (Ascii.eqb c sq) eqn:E5.
  { apply Ascii.eqb_eq in E5 as ->. reflexivity. }
  by rewrite !replace_char_ne by done.
Qed.

Lemma escape_char_count quotes c x :
  x = "<"%char ∨ x = ">"%char ∨ (quotes = true ∧ (x = dq ∨ x = sq)) →
  count_char x (escape_char quotes c) = O.
Proof.
  unfold escape_char.
  intros Hx.
  destruct (Ascii.eqb c "&"%char) eqn:E1.
  { destruct Hx as [->|[->|[_ [->| ->]]]]; reflexivity. }
  destruct (Ascii.eqb c "<"%char) eqn:E2.
  { destruct Hx as [->|[->|[_ [->| ->]]]]; reflexivity. }
  destruct (Ascii.eqb c ">"%char) eqn:E3.
  { destruct Hx as [->|[->|[_ [->| ->]]]]; reflexivity. }
  destruct quotes; simpl.
  - destruct (Ascii.eqb c dq) eqn:E4.
    { destruct Hx as [->|[->|[_ [->| ->]]]]; reflexivity. }
    destruct (Ascii.eqb c sq) eqn:E5.
    { destruct Hx as [->|[->|[_ [->| ->]]]]; reflexivity. }
    simpl. destruct Hx as [->|[->|[_ [->| ->]]]]; by rewrite ?E2, ?E3, ?E4, ?E5.
  - destruct Hx as [->|[->|[? _]]]; [by rewrite E2|by rewrite E3|done].
Qed.

Lemma html_escape_count quotes s x :
  x = "<"%char ∨ x = ">"%char ∨ (quotes = true ∧ (x = dq ∨ x = sq)) →
  count_char x (html_escape s quotes) = O.
Proof.
  intros Hx. induction s as [|c s IH]; [by destruct quotes|].
  rewrite html_escape_cons, count_char_app, IH, escape_char_count; done.
Qed.

(** X1. The escaped text holds no angle bracket, and with [quote=True], the
    default every call of the exporter uses, no quote of either kind: whatever
    the text, it cannot open a tag or close an attribute. *)
Theorem html_escape_leaves_no_markup (s : string) :
  count_char "<"%char (html_escape s false) = O
  ∧ count_char ">"%char (html_escape s false) = O
  ∧ count_char "<"%char (safe_attr s) = O
  ∧ count_char ">"%char (safe_attr s) = O
  ∧ count_char dq (safe_attr s) = O
  ∧ count_char sq (safe_attr s) = O.
Proof.
  unfold safe_attr.
  repeat split; apply html_escape_count; auto.
Qed.

Lemma escape_char_cases quotes c :
  (c = "&"%char ∧ escape_char quotes c = "&amp;")
  ∨ (c = "<"%char ∧ escape_char quotes c = "&lt;")
  ∨ (c = ">"%char ∧ escape_char quotes c = "&gt;")
  ∨ (c = dq ∧ escape_char quotes c = "&quot;")
  ∨ (c = sq ∧ escape_char quotes c = "&#x27;")
  ∨ (c ≠ "&"%char ∧ escape_char quotes c = String c EmptyString).
Proof.
  unfold escape_char.
  destruct (Ascii.eqb c "&"%char) eqn:E1; [apply Ascii.eqb_eq in E1; tauto|].
  destruct (Ascii.eqb c "<"%char) eqn:E2; [apply Ascii.eqb_eq in E2; tauto|].
  destruct (Ascii.eqb c ">"%char) eqn:E3; [apply Ascii.eqb_eq in E3; tauto|].
  apply Ascii.eqb_neq in E1.
  destruct quotes; cbn [andb]; [|tauto].
  destruct (Ascii.eqb c dq) eqn:E4; [apply Ascii.eqb_eq in E4; tauto|].
  destruct (Ascii.eqb c sq) eqn:E5; [apply Ascii.eqb_eq in E5; tauto|].
  tauto.
Qed.

Lemma escape_char_prefix_free quotes c1 c2 r1 r2 :
  String.app (escape_char quotes c1) r1 = String.app (escape_char quotes c2) r2 →
  c1 = c2 ∧ r1 = r2.
Proof.
  destruct (escape_char_cases quotes c1) as [[E1 ->]|[[E1 ->]|[[E1 ->]|[[E1 ->]|[[E1 ->]|[E1 ->]]]]]];
  destruct (escape_char_cases quotes c2) as [[E2 ->]|[[E2 ->]|[[E2 ->]|[[E2 ->]|[[E2 ->]|[E2 ->]]]]]];
  cbv [String.append]; intros H; simplify_eq; done.
Qed.

(** X2. Escaping loses nothing: two texts with the same escaped form are the same
    text, with and without the quotes escaped. *)
Theorem html_escape_injective (quotes : bool) (s1 s2 : string) :
  html_escape s1 quotes = html_escape s2 quotes → s1 = s2.
Proof.
  revert s2. induction s1 as [|c1 s1 IH]; intros [|c2 s2].
  - done.
  - rewrite html_escape_cons. unfold escape_char.
    replace (html_escape EmptyString quotes) with EmptyString by (by destruct quotes).
    repeat case_match; discriminate.
  - rewrite html_escape_cons. unfold escape_char.
    replace (html_escape EmptyString quotes) with EmptyString by (by destruct quotes).
    repeat case_match; discriminate.
  - rewrite !html_escape_cons. intros H.
    apply escape_char_prefix_free in H as [-> H]. f_equal. by apply IH.
Qed.

(** X2, on a text with an angle bracket. *)
Lemma html_escape_injective_witness :
  html_escape "a<b" true = html_escape "a<b" true ∧ "a<b" = "a<b".
Proof.
  split; [reflexivity|]. apply (html_escape_injective true "a<b" "a<b"). reflexivity.
Defined.

(** ** Query strings *)

Lemma nat_of_ascii_lt c : (nat_of_ascii c < 256)%nat.
Proof. apply nat_ascii_bounded. Qed.

Lemma ascii_of_nat_inj a b :
  (a < 256)%nat → (b < 256)%nat → ascii_of_nat a = ascii_of_nat b → a = b.
Proof.
  intros Ha Hb H. rewrite <- (nat_ascii_embedding a), <- (nat_ascii_embedding b) by done.
  by rewrite H.
Qed.

Lemma hex_upper_inj a b :
  (a < 16)%nat → (b < 16)%nat → hex_upper a = hex_upper b → a = b.
Proof.
  unfold hex_upper. intros Ha Hb H.
  apply ascii_of_nat_inj in H.
  - destruct (a <? 10)%nat eqn:Ea, (b <? 10)%nat eqn:Eb;
      rewrite ?Nat.ltb_lt, ?Nat.ltb_ge in *; lia.
  - destruct (a <? 10)%nat; lia.
  - destruct (b <? 10)%nat; lia.
Qed.

Lemma hex_upper_safe n : (n < 16)%nat → always_safe (hex_upper n) = true.
Proof.
  intros H. do 16 (destruct n as [|n]; [reflexivity|]). lia.
Qed.

Lemma always_safe_percent : always_safe "%"%char = false.
Proof. reflexivity. Qed.

Lemma quote_char_count x c :
  always_safe x = false → x ≠ "%"%char → count_char x (quote_char c) = O.
Proof.
  intros Hx Hp. unfold quote_char.
  assert (∀ a, always_safe a = true → Ascii.eqb a x = false) as Hne.
  { intros a Ha. apply Ascii.eqb_neq. intros ->. congruence. }
  destruct (always_safe c) eqn:Ec; cbn [count_char].
  - by rewrite Hne.
  - assert (Ascii.eqb "%"%char x = false) as -> by (apply Ascii.eqb_neq; congruence).
    rewrite !Hne; [done|apply hex_upper_safe..].
    + apply Nat.mod_upper_bound. lia.
    + pose proof (nat_of_ascii_lt c). apply Nat.Div0.div_lt_upper_bound. lia.
Qed.

Lemma quote_count x s :
  always_safe x = false → x ≠ "%"%char → count_char x (quote s) = O.
Proof.
  intros Hx Hp. induction s as [|c s IH]; [done|].
  cbn [quote]. by rewrite count_char_app, quote_char_count, IH.
Qed.

(** X3. [quote] writes letters, digits, the four marks and the percent sign and
    nothing else: no character that is not always safe, the percent sign
    apart, occurs in its result. *)
Theorem quote_alphabet (x : ascii) (s : string) :
  always_safe x = false → x ≠ "%"%char → count_char x (quote s) = O.
Proof. apply quote_count. Qed.

(** X3, for the ampersand in a text with reserved characters. *)
Lemma quote_alphabet_witness :
  always_safe "&"%char = false ∧ "&"%char ≠ "%"%char
  ∧ count_char "&"%char (quote "a&b=c d") = O.
Proof.
  split; [reflexivity|]. split; [discriminate|].
  apply (quote_alphabet "&"%char "a&b=c d"); [reflexivity|discriminate].
Defined.

Lemma quote_char_prefix_free c1 c2 r1 r2 :
  String.app (quote_char c1) r1 = String.app (quote_char c2) r2 → c1 = c2 ∧ r1 = r2.
Proof.
  unfold quote_char.
  destruct (always_safe c1) eqn:E1, (always_safe c2) eqn:E2;
    cbv [String.append]; intros H.
  - by injection H as -> ->.
  - injection H as -> _. by rewrite always_safe_percent in E1.
  - injection H as <- _. by rewrite always_safe_percent in E2.
  - injection H as Ha Hb ->. split; [|done].
    change (fst (Nat.divmod ?a 15 0 15)) with (a / 16)%nat in Ha.
    change (15 - snd (Nat.divmod ?a 15 0 15))%nat with (a mod 16)%nat in Hb.
    pose proof (nat_of_ascii_lt c1). pose proof (nat_of_ascii_lt c2).
    apply hex_upper_inj in Ha; [|apply Nat.Div0.div_lt_upper_bound; lia..].
    apply hex_upper_inj in Hb; [|apply Nat.mod_upper_bound; lia..].
    rewrite <- (ascii_nat_embedding c1), <- (ascii_nat_embedding c2).
    f_equal.
    rewrite (Nat.div_mod_eq (nat_of_ascii c1) 16), (Nat.div_mod_eq (nat_of_ascii c2) 16).
    congruence.
Qed.

Lemma quote_inj s1 s2 : quote s1 = quote s2 → s1 = s2.
Proof.
  revert s2. induction s1 as [|c1 s1 IH]; intros [|c2 s2]; cbn [quote].
  - done.
  - unfold quote_char. destruct (always_safe c2); cbv [String.append]; discriminate.
  - unfold quote_char. destruct (always_safe c1); cbv [String.append]; discriminate.
  - intros H. apply quote_char_prefix_free in H as [-> H]. f_equal. by apply IH.
Qed.

(** X4. [quote] loses nothing: two texts with the same quoted form are the same
    text. *)
Theorem quote_injective (s1 s2 : string) : quote s1 = quote s2 → s1 = s2.
Proof. apply quote_inj. Qed.

(** X4, on a text with a space. *)
Lemma quote_injective_witness :
  quote "a b" = quote "a b" ∧ "a b" = "a b".
Proof. split; [reflexivity|]. apply (quote_injective "a b" "a b"). reflexivity. Defined.

Lemma first_occurrence x a a' r r' :
  count_char x a = O → count_char x a' = O →
  String.app a (String x r) = String.app a' (String x r') → a = a' ∧ r = r'.
Proof.
  revert a'. induction a as [|c a IH]; intros [|c' a']; cbn [count_char];
    cbv [String.append]; fold String.append; intros Ha Ha' H.
  - by simplify_eq.
  - simplify_eq. rewrite Ascii.eqb_refl in Ha'. lia.
  - simplify_eq. rewrite Ascii.eqb_refl in Ha. lia.
  - simplify_eq. destruct (IH a') as [-> ->]; [lia..|done|done].
Qed.

Lemma no_occurrence x a r a' :
  count_char x a' = O → String.app a (String x r) ≠ a'.
Proof.
  intros Ha' H. subst a'. rewrite count_char_app in Ha'. cbn [count_char] in Ha'.
  rewrite Ascii.eqb_refl in Ha'. lia.
Qed.

Lemma urlencode_join params : urlencode params = join "&" (map pair_text params).
Proof. reflexivity. Qed.

Lemma join_cons2 sep x y ys :
  join sep (x :: y :: ys) = String.app x (String.app sep (join sep (y :: ys))).
Proof. reflexivity. Qed.

Lemma pair_text_count x kv :
  always_safe x = false → x ≠ "%"%char →
  count_char x (pair_text kv) = if Ascii.eqb "="%char x then 1%nat else 0%nat.
Proof.
  intros Hx Hp. unfold pair_text.
  rewrite count_char_app, quote_count by done.
  change (String.app "=" ?s) with (String "="%char s).
  cbn [count_char]. rewrite quote_count by done. lia.
Qed.

(** X5. The query has one equals sign per pair and one ampersand between two
    pairs, whatever the keys and values hold, and none of the other characters
    that [quote] escapes: a value cannot add a parameter or end the query. *)
Theorem urlencode_fields (params : list (string * json)) :
  count_char "="%char (urlencode params) = length params
  ∧ count_char "&"%char (urlencode params) = pred (length params)
  ∧ ∀ x, always_safe x = false → x ≠ "%"%char → x ≠ "="%char → x ≠ "&"%char →
      count_char x (urlencode params) = O.
Proof.
  rewrite urlencode_join.
  induction params as [|p [|q ps] IH].
  - done.
  - cbn [map join length pred]. rewrite !pair_text_count by done.
    split; [done|]. split; [done|]. intros x Hx Hp He Ha.
    rewrite pair_text_count by done.
    by apply Ascii.eqb_neq in He; rewrite Ascii.eqb_sym, He.
  - destruct IH as (IH1 & IH2 & IH3).
    cbn [map] in *. rewrite join_cons2.
    change (String.app "&" ?s) with (String "&"%char s).
    rewrite !count_char_app. cbn [count_char]. rewrite IH1, IH2.
    rewrite !pair_text_count by done. cbn [length pred Ascii.eqb]. simpl.
    split; [done|]. split; [lia|]. intros x Hx Hp He Ha.
    rewrite count_char_app, pair_text_count by done. cbn [count_char].
    rewrite IH3 by done.
    apply Ascii.eqb_neq in He, Ha. rewrite (Ascii.eqb_sym "="%char), He.
    rewrite (Ascii.eqb_sym "&"%char), Ha. done.
Qed.

(** X5, for the question mark in a page address with a query of its own. *)
Lemma urlencode_fields_witness :
  count_char "?"%char
    (urlencode [("url", JStr "https://site/game/?a=1&b=2"); ("sort", JInt 1)]) = O.
Proof.
  apply (proj2 (proj2 (urlencode_fields
           [("url", JStr "https://site/game/?a=1&b=2"); ("sort", JInt 1)])));
    [reflexivity|discriminate..].
Defined.

Lemma pair_text_inj p q : pair_text p = pair_text q → sent p = sent q.
Proof.
  unfold pair_text, sent.
  change (String.app "=" ?s) with (String "="%char s).
  intros H. apply first_occurrence in H as [H1 H2].
  - apply quote_inj in H1, H2. by rewrite H1, H2.
  - by apply quote_count.
  - by apply quote_count.
Qed.

Lemma pair_text_amp kv : count_char "&"%char (pair_text kv) = O.
Proof. by rewrite pair_text_count. Qed.

Lemma urlencode_inj ps qs : urlencode ps = urlencode qs → map sent ps = map sent qs.
Proof.
  rewrite !urlencode_join.
  revert qs. induction ps as [|p [|p' ps] IH]; intros [|q [|q' qs]];
    cbn [map]; rewrite ?join_cons2;
    change (String.app "&" ?s) with (String "&"%char s); intros H.
  - done.
  - exfalso. cbn [join] in H. apply (f_equal (count_char "="%char)) in H.
    rewrite pair_text_count in H by done. done.
  - exfalso. apply (f_equal (count_char "="%char)) in H.
    rewrite count_char_app, pair_text_count in H by done. done.
  - exfalso. cbn [join] in H. apply (f_equal (count_char "="%char)) in H.
    rewrite pair_text_count in H by done. done.
  - cbn [join] in H. by rewrite (pair_text_inj _ _ H).
  - exfalso. cbn [join] in H. symmetry in H.
    by eapply no_occurrence, H; apply pair_text_amp.
  - exfalso. apply (f_equal (count_char "="%char)) in H.
    rewrite count_char_app, pair_text_count in H by done. done.
  - exfalso. cbn [join] in H.
    by eapply no_occurrence, H; apply pair_text_amp.
  - apply first_occurrence in H as [H1 H2]; [|apply pair_text_amp..].
    rewrite (pair_text_inj _ _ H1). f_equal. by apply (IH (q' :: qs)).
Qed.

(** X6. Two requests to the comment service that differ in anything, the kind of
    call, the site, the hash, the page address, the cursor or the root, go to
    different addresses. *)
Theorem request_url_injective (r1 r2 : request) :
  is_api r1 = true → is_api r2 = true → request_url r1 = request_url r2 → r1 = r2.
Proof.
  intros A1 A2 H.
  destruct r1 as [u1|s1 h1 u1 c1|s1 h1 u1 c1|?], r2 as [u2|s2 h2 u2 c2|s2 h2 u2 c2|?];
    try discriminate; clear A1 A2;
    cbn [request_url] in H;
    unfold first_page_url, page_call_url, thread_call_url in H;
    apply (inj (String.app BASE)) in H;
    try (exfalso; cbv [String.append] in H; discriminate H).
  - apply (inj (String.app "/first?")), urlencode_inj in H.
    cbn [map sent fst snd py_str] in H. by simplify_eq.
  - apply (inj (String.app "/first?")), urlencode_inj in H.
    cbn [map sent fst snd py_str] in H. by simplify_eq.
  - apply (inj (String.app "/page?")), urlencode_inj in H.
    cbn [map sent fst snd py_str py_repr] in H. by simplify_eq.
  - apply (inj (String.app "/first?")), urlencode_inj in H.
    cbn [map sent fst snd py_str] in H. by simplify_eq.
  - apply (inj (String.app "/first?")), urlencode_inj in H.
    cbn [map sent fst snd py_str py_repr] in H. by simplify_eq.
Qed.

(** X6, on a page call. *)
Lemma request_url_injective_witness :
  is_api (PageCall 6289 "null" "https://site/game/" 30) = true
  ∧ PageCall 6289 "null" "https://site/game/" 30 = PageCall 6289 "null" "https://site/game/" 30.
Proof.
  split; [reflexivity|].
  apply (request_url_injective (PageCall 6289 "null" "https://site/game/" 30)
           (PageCall 6289 "null" "https://site/game/" 30)); reflexivity.
Defined.

(** ** The name of the output file *)

Lemma split_cons_ne sep a s :
  Ascii.eqb a sep = false →
  split sep (String a s) =
    match split sep s with
    | x :: xs => String a x :: xs
    | [] => [String a EmptyString]
    end.
Proof. intros H. cbn [split]. by rewrite H. Qed.

Lemma split_length sep s : length (split sep s) = S (count_char sep s).
Proof.
  induction s as [|a s IH]; [done|].
  cbn [split count_char]. destruct (Ascii.eqb a sep).
  - cbn [length]. by rewrite IH.
  - destruct (split sep s); cbn [length] in *; lia.
Qed.

Lemma split_no_sep sep s : Forall (λ x, count_char sep x = O) (split sep s).
Proof.
  induction s as [|a s IH]; [by repeat constructor|].
  cbn [split]. destruct (Ascii.eqb a sep) eqn:E.
  - by constructor.
  - destruct (split sep s) as [|x xs]; [repeat constructor; cbn [count_char]; by rewrite E|].
    apply Forall_cons in IH as [Hx Hxs]. constructor; [|done].
    cbn [count_char]. by rewrite E.
Qed.

Lemma split_none sep s : count_char sep s = O → split sep s = [s].
Proof.
  induction s as [|a s IH]; [done|].
  cbn [count_char split]. destruct (Ascii.eqb a sep); [lia|].
  intros H. by rewrite IH by lia.
Qed.

Lemma last_split_app sep a slug :
  count_char sep slug = O →
  last (split sep (String.app a (String sep slug))) = Some slug.
Proof.
  intros Hs. induction a as [|c a IH].
  - change (String.app EmptyString ?s) with s. cbn [split].
    rewrite Ascii.eqb_refl, split_none by done. done.
  - change (String.app (String c a) ?s) with (String c (String.app a s)).
    cbn [split]. destruct (Ascii.eqb c sep).
    + rewrite last_cons, IH. done.
    + pose proof (split_length sep (String.app a (String sep slug))) as Hl.
      rewrite count_char_app in Hl. cbn [count_char] in Hl.
      rewrite Ascii.eqb_refl in Hl.
      destruct (split sep (String.app a (String sep slug))) as [|x [|y ys]];
        cbn [length] in Hl; [lia..|].
      by rewrite last_cons_cons in IH |- *.
Qed.

Lemma rstrip_char_keep c s : count_char c s = O → rstrip_char c s = s.
Proof.
  induction s as [|a s IH]; [done|].
  cbn [count_char rstrip_char]. destruct (Ascii.eqb a c); [lia|].
  intros H. rewrite IH by lia. by destruct s.
Qed.

Lemma rstrip_char_slashes n : rstrip_char "/"%char (slashes n) = EmptyString.
Proof. induction n as [|n IH]; [done|]. cbn [slashes rstrip_char]. by rewrite IH. Qed.

Lemma rstrip_char_app c a b :
  rstrip_char c b ≠ EmptyString →
  rstrip_char c (String.app a b) = String.app a (rstrip_char c b).
Proof.
  intros Hb. induction a as [|x a IH]; [done|].
  change (String.app (String x a) ?s) with (String x (String.app a s)).
  cbn [rstrip_char]. rewrite IH.
  destruct (String.app a (rstrip_char c b)) eqn:E; [|done].
  destruct a; [|discriminate]. by destruct (rstrip_char c b).
Qed.

Lemma rstrip_char_snoc slug n :
  slug ≠ EmptyString → count_char "/"%char slug = O →
  rstrip_char "/"%char (String.app slug (slashes n)) = slug.
Proof.
  intros Hne Hs. induction slug as [|a s IH]; [done|].
  change (String.app (String a s) ?t) with (String a (String.app s t)).
  cbn [count_char] in Hs. cbn [rstrip_char].
  destruct (Ascii.eqb a "/"%char) eqn:E; [lia|].
  destruct s as [|b s].
  - change (String.app EmptyString ?t) with t. by rewrite rstrip_char_slashes.
  - rewrite IH by (done || lia). done.
Qed.

Lemma lstrip_char_cases c base rest :
  lstrip_char c (String.app base (String c rest)) = lstrip_char c rest
  ∨ ∃ b', lstrip_char c (String.app base (String c rest)) = String.app b' (String c rest).
Proof.
  induction base as [|a base IH].
  - left. change (String.app EmptyString ?s) with s. cbn [lstrip_char].
    by rewrite Ascii.eqb_refl.
  - change (String.app (String a base) ?s) with (String a (String.app base s)).
    cbn [lstrip_char]. destruct (Ascii.eqb a c); [done|].
    right. by exists (String a base).
Qed.

Lemma lstrip_char_keep c s :
  match s with String a _ => Ascii.eqb a c = false | EmptyString => True end →
  lstrip_char c s = s.
Proof. destruct s as [|a s]; [done|]. cbn [lstrip_char]. by intros ->. Qed.

Lemma count_char_first c s :
  s ≠ EmptyString → count_char c s = O →
  match s with String a _ => Ascii.eqb a c = false | EmptyString => True end.
Proof.
  destruct s as [|a s]; [done|]. cbn [count_char].
  destruct (Ascii.eqb a c); [lia|done].
Qed.

Lemma nonempty_true s : s ≠ EmptyString → nonempty s = true.
Proof. by destruct s. Qed.

(** X7. The derived file name always has a slug in front of the fixed ending and
    never holds a slash, so the file lands in the current directory; an
    output name given on the command line is taken as it is, an empty one
    counts as none. *)
Theorem out_path_shape (game_url : string) :
  count_char "/"%char (default_out_path game_url) = O
  ∧ (∃ slug, slug ≠ EmptyString ∧ default_out_path game_url = String.app slug "-comments.html")
  ∧ out_path None game_url = default_out_path game_url
  ∧ out_path (Some EmptyString) game_url = default_out_path game_url
  ∧ ∀ c o, out_path (Some (String c o)) game_url = String c o.
Proof.
  split; [|split; [|done]].
  - unfold default_out_path.
    pose proof (split_no_sep "/"%char (strip_char "/"%char game_url)) as Hall.
    destruct (last (split "/"%char (strip_char "/"%char game_url))) as [slug|] eqn:El;
      cbn [default from_option id].
    + apply last_Some_elem_of in El.
      rewrite Forall_forall in Hall. specialize (Hall _ El). cbv beta in Hall.
      rewrite count_char_app. destruct (nonempty slug); [by rewrite Hall|done].
    + done.
  - unfold default_out_path.
    destruct (default EmptyString (last (split "/"%char (strip_char "/"%char game_url))))
      as [|a s]; cbn [nonempty].
    + by exists "fitgirl-comments".
    + by exists (String a s).
Qed.

(** X8. For an address that ends in a slash, a segment without slashes and any
    number of slashes, the file is named after that segment. *)
Theorem out_path_last_segment (base slug : string) (n : nat) :
  slug ≠ EmptyString → count_char "/"%char slug = O →
  default_out_path (String.app base (String "/"%char (String.app slug (slashes n)))) =
    String.app slug "-comments.html".
Proof.
  intros Hne Hs. unfold default_out_path, strip_char.
  assert (rstrip_char "/"%char (String.app slug (slashes n)) ≠ EmptyString) as Hr
    by by rewrite rstrip_char_snoc.
  assert (lstrip_char "/"%char (String.app slug (slashes n)) = String.app slug (slashes n))
    as Hl.
  { apply lstrip_char_keep. destruct slug as [|a s]; [done|].
    change (String.app (String a s) ?t) with (String a (String.app s t)).
    cbv beta iota. cbn [count_char] in Hs. destruct (Ascii.eqb a "/"%char); [lia|done]. }
  destruct (lstrip_char_cases "/"%char base (String.app slug (slashes n))) as [->|[b' ->]].
  - rewrite Hl, rstrip_char_snoc, split_none by done.
    cbn [last default from_option id]. by rewrite nonempty_true.
  - assert (String.app b' (String "/"%char (String.app slug (slashes n))) =
            String.app (String.app b' "/") (String.app slug (slashes n))) as ->.
    { by rewrite str_app_assoc. }
    rewrite rstrip_char_app, rstrip_char_snoc by done.
    rewrite str_app_assoc. change (String.app "/" ?s) with (String "/"%char s).
    rewrite last_split_app by done. cbn [default from_option id]. by rewrite nonempty_true.
Qed.

(** X8, on the address of the usage note. *)
Lemma out_path_last_segment_witness :
  default_out_path "https://fitgirl-repacks.site/session-skate-sim/" =
    "session-skate-sim-comments.html".
Proof.
  apply (out_path_last_segment "https://fitgirl-repacks.site" "session-skate-sim" 1);
    [discriminate|reflexivity].
Defined.

(** ** Base64 and the media type *)

Lemma below_64 (P : N → Prop) :
  Forall (λ k, P (N.of_nat k)) (seq 0 64) → ∀ n, (n < 64)%N → P n.
Proof.
  intros H n Hn. rewrite Forall_forall in H.
  rewrite <- (N2Nat.id n). apply H, elem_of_seq. lia.
Qed.

Lemma b64_char_alphabet n : (n < 64)%N → b64_alphabet (b64_char n) = true.
Proof.
  revert n. apply below_64.
  apply (bool_decide_unpack _). vm_compute. reflexivity.
Qed.

Lemma b64_char_not_pad n : (n < 64)%N → b64_char n ≠ "="%char.
Proof.
  revert n. apply below_64.
  apply (bool_decide_unpack _). vm_compute. reflexivity.
Qed.

Lemma b64_char_inj n m : (n < 64)%N → (m < 64)%N → b64_char n = b64_char m → n = m.
Proof.
  intros Hn Hm Heq.
  rewrite <- (N2Nat.id n), <- (N2Nat.id m) in Heq |- *.
  assert (N.to_nat n ∈ seq 0 64) as Hi by (apply elem_of_seq; lia).
  assert (N.to_nat m ∈ seq 0 64) as Hj by (apply elem_of_seq; lia).
  revert Hi Hj Heq. generalize (N.to_nat n) (N.to_nat m). clear. intros i j Hi Hj Heq.
  assert (Forall (λ i, Forall (λ j,
            Ascii.eqb (b64_char (N.of_nat i)) (b64_char (N.of_nat j)) = true → i = j)
            (seq 0 64)) (seq 0 64)) as Hall.
  { apply (bool_decide_unpack _). vm_compute. reflexivity. }
  rewrite Forall_forall in Hall. specialize (Hall i Hi).
  rewrite Forall_forall in Hall. f_equal. apply (Hall j Hj). by apply Ascii.eqb_eq.
Qed.

Lemma list_ind3 {A} (P : list A → Prop) :
  P [] → (∀ a, P [a]) → (∀ a b, P [a; b]) →
  (∀ a b c rest, P rest → P (a :: b :: c :: rest)) →
  ∀ l, P l.
Proof.
  intros H0 H1 H2 H3 l.
  assert (P l ∧ (∀ a, P (a :: l)) ∧ (∀ a b, P (a :: b :: l))) as [? _]; [|done].
  induction l as [|x l (IH0 & IH1 & IH2)]; [by auto|].
  split; [apply IH1|]. split; [intros a; apply IH2|]. intros a b. by apply H3.
Qed.

Lemma byte_bound a : (Byte.to_N a < 256)%N.
Proof. pose proof (Byte.to_N_bounded a). lia. Qed.

Lemma byte_to_N_inj a b : Byte.to_N a = Byte.to_N b → a = b.
Proof.
  intros H. pose proof (Byte.of_to_N a) as Ha. rewrite H, Byte.of_to_N in Ha. congruence.
Qed.

Ltac b64_bounds :=
  repeat match goal with
  | a : Byte.byte |- _ =>
      lazymatch goal with
      | _ : (Byte.to_N a < 256)%N |- _ => fail
      | _ => pose proof (byte_bound a)
      end
  end.

Lemma b64encode_length bs :
  String.length (b64encode bs) = (4 * ((length bs + 2) / 3))%nat.
Proof.
  induction bs as [|a|a b|a b c rest IH] using list_ind3; [done..|].
  cbn [b64encode String.length length]. rewrite IH.
  replace (S (S (S (length rest))) + 2)%nat with (length rest + 2 + 1 * 3)%nat by lia.
  rewrite Nat.div_add by done. lia.
Qed.

Lemma b64encode_alphabet bs : all_chars b64_alphabet (b64encode bs) = true.
Proof.
  induction bs as [|a|a b|a b c rest IH] using list_ind3; [done|..];
    cbn [b64encode all_chars]; b64_bounds;
    rewrite ?IH, ?b64_char_alphabet; try done;
    try (apply N.mod_lt; lia); try (apply N.Div0.div_lt_upper_bound; lia).
Qed.

(** X9. The Base64 text has four characters for every three bytes begun, all of
    them of the Base64 alphabet. *)
Theorem b64encode_shape (bs : list Byte.byte) :
  String.length (b64encode bs) = (4 * ((length bs + 2) / 3))%nat
  ∧ all_chars b64_alphabet (b64encode bs) = true.
Proof. split; [apply b64encode_length|apply b64encode_alphabet]. Qed.

Ltac b64_digits :=
  repeat match goal with
  | H : b64_char _ = b64_char _ |- _ =>
      apply b64_char_inj in H;
        [|first [apply N.mod_lt; lia | apply N.Div0.div_lt_upper_bound; lia]..]
  | H : b64_char ?x = "="%char |- _ =>
      exfalso; revert H; apply b64_char_not_pad;
        first [apply N.mod_lt; lia | apply N.Div0.div_lt_upper_bound; lia]
  | H : "="%char = b64_char ?x |- _ =>
      exfalso; symmetry in H; revert H; apply b64_char_not_pad;
        first [apply N.mod_lt; lia | apply N.Div0.div_lt_upper_bound; lia]
  end.

Lemma radix64_2 n n' :
  (n / 64 = n' / 64 → n mod 64 = n' mod 64 → n = n')%N.
Proof.
  intros H1 H2. rewrite (N.div_mod' n 64), (N.div_mod' n' 64). congruence.
Qed.

Lemma radix64_3 n n' :
  (n / 4096 = n' / 4096 → (n / 64) mod 64 = (n' / 64) mod 64 → n mod 64 = n' mod 64 →
   n = n')%N.
Proof.
  intros H1 H2 H3. apply radix64_2; [|done].
  apply radix64_2; [|done]. rewrite !N.Div0.div_div. exact H1.
Qed.

Lemma radix64_4 n n' :
  (n / 262144 = n' / 262144 → (n / 4096) mod 64 = (n' / 4096) mod 64 →
   (n / 64) mod 64 = (n' / 64) mod 64 → n mod 64 = n' mod 64 → n = n')%N.
Proof.
  intros H1 H2 H3 H4. apply radix64_3; [|done..].
  apply radix64_2; [|done]. rewrite !N.Div0.div_div. exact H1.
Qed.

Lemma b64encode_inj l1 l2 : b64encode l1 = b64encode l2 → l1 = l2.
Proof.
  revert l2.
  induction l1 as [|a|a b|a b c rest IH] using list_ind3;
    intros [|a' [|b' [|c' rest']]]; cbn [b64encode]; intros H;
    try discriminate H; try done; b64_bounds; injection H as ?; b64_digits.
  - f_equal. apply byte_to_N_inj.
    match goal with
    | H1 : (_ / 64 = _ / 64)%N, H2 : (_ mod 64 = _ mod 64)%N |- _ =>
        pose proof (radix64_2 _ _ H1 H2)
    end. lia.
  - assert (Byte.to_N a = Byte.to_N a' ∧ Byte.to_N b = Byte.to_N b') as [? ?].
    { match goal with
      | H1 : (_ / 4096 = _ / 4096)%N, H2 : ((_ / 64) mod 64 = (_ / 64) mod 64)%N,
        H3 : (_ mod 64 = _ mod 64)%N |- _ =>
          pose proof (radix64_3 _ _ H1 H2 H3)
      end. lia. }
    f_equal; [|f_equal]; by apply byte_to_N_inj.
  - assert (Byte.to_N a = Byte.to_N a' ∧ Byte.to_N b = Byte.to_N b'
            ∧ Byte.to_N c = Byte.to_N c') as (? & ? & ?).
    { match goal with
      | H1 : (_ / 262144 = _ / 262144)%N, H2 : ((_ / 4096) mod 64 = (_ / 4096) mod 64)%N,
        H3 : ((_ / 64) mod 64 = (_ / 64) mod 64)%N, H4 : (_ mod 64 = _ mod 64)%N |- _ =>
          pose proof (radix64_4 _ _ H1 H2 H3 H4)
      end. lia. }
    f_equal; [|f_equal; [|f_equal]]; try by apply byte_to_N_inj.
    by apply IH.
Qed.

(** X10. Base64 loses nothing: two byte strings with the same Base64 text are the
    same bytes, so two different files never get the same [data:] address. *)
Theorem b64encode_injective (l1 l2 : list Byte.byte) :
  b64encode l1 = b64encode l2 → l1 = l2.
Proof. apply b64encode_inj. Qed.

(** X10, on two bytes. *)
Lemma b64encode_injective_witness :
  b64encode [Byte.x89; Byte.x50] = b64encode [Byte.x89; Byte.x50]
  ∧ [Byte.x89; Byte.x50] = [Byte.x89; Byte.x50].
Proof.
  split; [reflexivity|].
  apply (b64encode_injective [Byte.x89; Byte.x50] [Byte.x89; Byte.x50]). reflexivity.
Defined.

Lemma span_fst_count x s :
  count_char x (fst (span (fun c => negb (Ascii.eqb c x)) s)) = O.
Proof.
  induction s as [|a s IH]; [done|].
  cbn [span]. destruct (Ascii.eqb a x) eqn:E; cbn [negb]; [done|].
  destruct (span _ s) as [p q]. cbn [fst count_char] in *. by rewrite E, IH.
Qed.

Lemma strip_count x s : (count_char x (strip s) ≤ count_char x s)%nat.
Proof.
  destruct (strip_decompose s) as (pad1 & pad2 & E & _).
  rewrite E at 2. rewrite !count_char_app. lia.
Qed.

(** X11. The media type written into a [data:] address is never empty, holds no
    semicolon and has no white space around it, whatever header the server
    sent. A header is white space, a type, white space, and then nothing or a
    semicolon with what follows it: the media type is that type, or the
    generic binary type when the type is empty. *)
Theorem media_type_shape (resp : http_response) :
  media_type resp ≠ EmptyString
  ∧ count_char ";"%char (media_type resp) = O
  ∧ strip (media_type resp) = media_type resp
  ∧ (content_type resp = None → media_type resp = "application/octet-stream")
  ∧ (∀ hdr, content_type resp = Some hdr →
       ∃ pad1 type pad2 rest,
         hdr = String.app pad1 (String.app type (String.app pad2 rest))
         ∧ white_space pad1 ∧ white_space pad2
         ∧ trimmed is_space (chars type) ∧ count_char ";"%char type = O
         ∧ (rest = EmptyString ∨ ∃ r, rest = String ";"%char r)
         ∧ media_type resp = match type with
                             | EmptyString => "application/octet-stream"
                             | _ => type
                             end).
Proof.
  unfold media_type.
  set (raw := default EmptyString (content_type resp)).
  set (first := fst (span _ raw)).
  pose proof (span_fst_count ";"%char raw) as Hc. fold first in Hc.
  pose proof (strip_count ";"%char first) as H1.
  pose proof (strip_idem first) as H3.
  split; [by destruct (strip first)|].
  split; [destruct (strip first); [done|lia]|].
  split.
  { destruct (strip first) as [|a t]; [vm_compute; reflexivity|done]. }
  split; [intros E; unfold first, raw; by rewrite E|].
  intros hdr E.
  destruct (span_spec (λ c, negb (Ascii.eqb c ";"%char)) raw) as (Hraw & _ & Hrest).
  fold first in Hraw. set (rest := snd (span _ raw)) in *.
  destruct (strip_decompose first) as (pad1 & pad2 & Hfirst & Hp1 & Hp2 & Htrim).
  exists pad1, (strip first), pad2, rest.
  split; [|split; [done|split; [done|split; [done|split; [lia|split;
    [|by destruct (strip first)]]]]]].
  - unfold raw in Hraw. rewrite E in Hraw. cbn [default from_option id] in Hraw.
    rewrite Hraw at 1. rewrite Hfirst at 1. by rewrite !str_app_assoc.
  - destruct rest as [|c r]; [by left|right]. exists r. f_equal.
    apply negb_false_iff in Hrest. by apply Ascii.eqb_eq in Hrest.
Qed.

(** X11, at a header padded with a no-break space. *)
Lemma media_type_shape_witness :
  content_type padded_response = Some padded_header
  ∧ media_type padded_response = "image/png"
  ∧ ∃ pad1 type pad2 rest,
      padded_header = String.app pad1 (String.app type (String.app pad2 rest))
      ∧ white_space pad1 ∧ white_space pad2
      ∧ trimmed is_space (chars type) ∧ count_char ";"%char type = O
      ∧ (rest = EmptyString ∨ ∃ r, rest = String ";"%char r)
      ∧ media_type padded_response = match type with
                                     | EmptyString => "application/octet-stream"
                                     | _ => type
                                     end.
Proof.
  split; [reflexivity|]. split; [vm_compute; reflexivity|].
  exact (proj2 (proj2 (proj2 (proj2 (media_type_shape padded_response))))
           padded_header eq_refl).
Defined.

(** ** Integers as text *)

Lemma pretty_N_go_app x s : pretty_N_go x s = String.app (digits_of x) s.
Proof.
  unfold digits_of. revert s. induction (N.lt_wf_0 x) as [x _ IH]; intros s.
  assert (x = 0 ∨ 0 < x)%N as [->|Hx] by lia; [by rewrite !pretty_N_go_0|].
  rewrite (pretty_N_go_step x s), (pretty_N_go_step x EmptyString) by done.
  assert (∀ t, pretty_N_go (x `div` 10) t =
               String.app (pretty_N_go (x `div` 10) EmptyString) t) as Hd.
  { intros t. apply IH. by apply N.div_lt. }
  rewrite (Hd (String _ s)), (Hd (String _ EmptyString)). by rewrite str_app_assoc.
Qed.

Lemma digits_of_step x :
  (0 < x)%N →
  digits_of x = String.app (digits_of (x `div` 10)) (String (pretty_N_char (x `mod` 10)) EmptyString).
Proof. intros Hx. unfold digits_of at 1. by rewrite pretty_N_go_step, pretty_N_go_app. Qed.

Lemma pretty_N_char_decimal d :
  (d < 10)%N →
  (N_of_ascii (pretty_N_char d) < 128)%N
  ∧ decimal_value (N_of_ascii (pretty_N_char d)) = Some (Z.of_N d).
Proof.
  intros H. assert (d = 0 ∨ d = 1 ∨ d = 2 ∨ d = 3 ∨ d = 4 ∨ d = 5 ∨ d = 6 ∨ d = 7
                    ∨ d = 8 ∨ d = 9)%N as Hd by lia.
  repeat destruct Hd as [->|Hd]; try subst d; by vm_compute.
Qed.

Lemma list_ascii_app (a b : string) :
  String.list_ascii_of_string (String.app a b) =
  String.list_ascii_of_string a ++ String.list_ascii_of_string b.
Proof.
  induction a as [|x a IH]; [done|].
  change (String.app (String x a) b) with (String x (String.app a b)).
  cbn [String.list_ascii_of_string app]. by rewrite IH.
Qed.

Lemma digits_of_ascii x : ascii_text (digits_of x).
Proof.
  unfold ascii_text. induction (N.lt_wf_0 x) as [x _ IH].
  assert (x = 0 ∨ 0 < x)%N as [->|Hx] by lia; [constructor|].
  rewrite digits_of_step, list_ascii_app by done. apply Forall_app. split.
  - apply IH. by apply N.div_lt.
  - repeat constructor. apply pretty_N_char_decimal. by apply N.mod_lt.
Qed.

(** The characters of the digits of a number: those of the number without
    its last digit, and the last digit. *)
Lemma chars_digits_of x :
  (0 < x)%N →
  chars (digits_of x) =
  chars (digits_of (x `div` 10)) ++ [byte_char (pretty_N_char (x `mod` 10))].
Proof.
  intros Hx. rewrite (chars_ascii (digits_of x)) by apply digits_of_ascii.
  rewrite (chars_ascii (digits_of (x `div` 10))) by apply digits_of_ascii.
  by rewrite digits_of_step, list_ascii_app, map_app by done.
Qed.

Lemma digits_of_decimal x : Forall decimal_char (chars (digits_of x)).
Proof.
  induction (N.lt_wf_0 x) as [x _ IH].
  assert (x = 0 ∨ 0 < x)%N as [->|Hx] by lia; [constructor|].
  rewrite chars_digits_of by done. apply Forall_app. split.
  - apply IH. by apply N.div_lt.
  - repeat constructor. unfold decimal_char, is_decimal, byte_char. cbn [fst].
    by rewrite (proj2 (pretty_N_char_decimal (x `mod` 10) ltac:(by apply N.mod_lt))).
Qed.

Lemma digits_of_value x : digits_value (chars (digits_of x)) = Z.of_N x.
Proof.
  unfold digits_value. induction (N.lt_wf_0 x) as [x _ IH].
  assert (x = 0 ∨ 0 < x)%N as [->|Hx] by lia; [done|].
  rewrite chars_digits_of, foldl_app by done. cbn [foldl].
  rewrite IH by (by apply N.div_lt). unfold digit_of, byte_char. cbn [fst].
  rewrite (proj2 (pretty_N_char_decimal (x `mod` 10) ltac:(by apply N.mod_lt))).
  cbn [default from_option id]. pose proof (N.div_mod' x 10). lia.
Qed.

Lemma digits_of_length x (k : nat) :
  Z.of_N x < 10 ^ Z.of_nat k → (length (chars (digits_of x)) ≤ k)%nat.
Proof.
  revert k. induction (N.lt_wf_0 x) as [x _ IH]; intros k Hk.
  assert (x = 0 ∨ 0 < x)%N as [->|Hx] by lia.
  { change (chars (digits_of 0)) with (@nil (N * string)). cbn [length]. lia. }
  rewrite chars_digits_of, length_app by done. cbn [length].
  destruct k as [|k]; [rewrite Z.pow_0_r in Hk; lia|].
  assert (length (chars (digits_of (x `div` 10))) ≤ k)%nat; [|lia].
  apply IH; [by apply N.div_lt|].
  rewrite Nat2Z.inj_succ, Z.pow_succ_r in Hk by lia.
  rewrite N2Z.inj_div. change (Z.of_N 10) with 10.
  apply Z.div_lt_upper_bound; lia.
Qed.

Lemma digits_of_nonempty x : (0 < x)%N → digits_of x ≠ EmptyString.
Proof.
  intros Hx. rewrite digits_of_step by done. by destruct (digits_of (x `div` 10)).
Qed.

Lemma pretty_pos p : pretty (Zpos p) = digits_of (Npos p).
Proof.
  change (pretty (Zpos p)) with (pretty (Npos p)). unfold pretty, pretty_N.
  by rewrite decide_False by done.
Qed.

Lemma all_chars_app f (a b : string) :
  all_chars f (String.app a b) = all_chars f a && all_chars f b.
Proof.
  induction a as [|x a IH]; [done|].
  change (String.app (String x a) b) with (String x (String.app a b)).
  cbn [all_chars]. by rewrite IH, andb_assoc.
Qed.

Lemma pretty_N_char_digit d : (d < 10)%N → is_digit (pretty_N_char d) = true.
Proof.
  intros H. assert (d = 0 ∨ d = 1 ∨ d = 2 ∨ d = 3 ∨ d = 4 ∨ d = 5 ∨ d = 6 ∨ d = 7
                    ∨ d = 8 ∨ d = 9)%N as Hd by lia.
  by repeat destruct Hd as [->|Hd]; try subst d.
Qed.

Lemma pretty_pos_digits p : all_chars is_digit (pretty (Zpos p)) = true.
Proof.
  rewrite pretty_pos. generalize (Npos p). intros x.
  induction (N.lt_wf_0 x) as [x _ IH].
  assert (x = 0 ∨ 0 < x)%N as [->|Hx] by lia; [done|].
  rewrite digits_of_step, all_chars_app, IH by (done || by apply N.div_lt).
  cbn [all_chars andb]. rewrite pretty_N_char_digit; [done|]. by apply N.mod_lt.
Qed.

Lemma digits_within_limit p :
  Zpos p < 10 ^ 4300 →
  (N.of_nat (length (chars (digits_of (Npos p)))) <=? max_str_digits)%N = true.
Proof.
  intros H. apply N.leb_le.
  pose proof (digits_of_length (Npos p) 4300) as Hl.
  change (Z.of_nat 4300) with 4300 in Hl. change (Z.of_N (N.pos p)) with (Z.pos p) in Hl.
  specialize (Hl H). unfold max_str_digits. lia.
Qed.

Lemma int_of_str_pos p : Zpos p < 10 ^ 4300 → int_of_str (pretty (Zpos p)) = Some (Zpos p).
Proof.
  intros H. rewrite pretty_pos.
  rewrite int_of_str_decimal; [|apply digits_of_decimal|by apply digits_of_nonempty].
  by rewrite digits_within_limit, digits_of_value.
Qed.

Lemma int_of_str_neg p : Zpos p < 10 ^ 4300 → int_of_str (pretty (Zneg p)) = Some (Zneg p).
Proof.
  intros H.
  change (pretty (Zneg p)) with (String "-"%char (pretty (Zpos p))). rewrite pretty_pos.
  unfold int_of_str. rewrite chars_cons.
  change (decode "-"%char (digits_of (N.pos p))) with (45%N, 1%nat).
  cbn [fst snd take drop_bytes].
  pose proof (digits_of_decimal (Npos p)) as Hd.
  pose proof (digits_of_nonempty (Npos p) eq_refl) as Hne.
  assert (chars (digits_of (N.pos p)) ≠ []) as Hcs.
  { destruct (digits_of (N.pos p)) as [|a r]; [done|]. by rewrite chars_cons. }
  rewrite strip_chars_trimmed.
  2:{ split; intros c Hc.
      - cbn in Hc. by injection Hc as <-.
      - rewrite last_cons in Hc. destruct (last (chars (digits_of (N.pos p)))) as [y|] eqn:El.
        + injection Hc as <-. apply decimal_not_int_space.
          apply last_Some_elem_of in El. by apply (proj1 (Forall_forall _ _) Hd y).
        + apply last_None in El. done. }
  cbn [fst]. change (45 =? 0x2D)%N with true. cbv iota.
  rewrite parse_number_decimal by done.
  by rewrite digits_within_limit, digits_of_value.
Qed.

(** X12. Reading back with [int] what [str] wrote gives the number again: ids,
    cursors and counts survive the way through text. The bound is the limit
    of the interpreter on the digits of a number it converts, 4300 by
    default. *)
Theorem int_str_round_trip (n : Z) :
  Z.abs n < 10 ^ 4300 → py_int (JStr (py_str (JInt n))) = Ok n.
Proof.
  intros H. cbn [py_str py_repr py_int].
  destruct n as [|p|p].
  - reflexivity.
  - by rewrite int_of_str_pos.
  - by rewrite int_of_str_neg.
Qed.

(** X12, on a negative number. *)
Lemma int_str_round_trip_witness :
  Z.abs (-6289) < 10 ^ 4300 ∧ py_int (JStr (py_str (JInt (-6289)))) = Ok (-6289).
Proof.
  assert (Z.abs (-6289) < 10 ^ 4300) as H by (vm_compute; reflexivity).
  split; [exact H|]. exact (int_str_round_trip (-6289) H).
Defined.

(** ** Parsed records *)

Lemma is_ok_rbind {A B : Type} (m : res A) (k : A → res B) :
  is_ok (rbind m k) = match m with Ok a => is_ok (k a) | Raise _ => false end.
Proof. by destruct m. Qed.

Lemma parse_user_raise u e :
  py_int (field u "id" (JInt 0)) = Raise e → parse_user (JObj u) = Raise e.
Proof.
  intros H. unfold parse_user. simpl dict_get. rstep.
  fold (field u "id" (JInt 0)). by rewrite H.
Qed.

Lemma parse_user_is_ok u :
  is_ok (parse_user (JObj u)) = is_ok (py_int (field u "id" (JInt 0))).
Proof.
  destruct (py_int (field u "id" (JInt 0))) as [n|e] eqn:E.
  - rewrite parse_user_ok; [done|]. by rewrite E.
  - by rewrite (parse_user_raise _ _ E).
Qed.

Lemma parse_comment_not_well_shaped kvs :
  well_shaped kvs = false → is_ok (parse_comment (JObj kvs)) = false.
Proof.
  unfold well_shaped. intros H.
  unfold parse_comment. simpl dict_get. rstep.
  rewrite is_ok_rbind.
  destruct (if isinstance_dict (default JNull (assoc "raiting" kvs)) then _ else _)
    as [rating|] eqn:Erating; [|done].
  assert (rating_ok kvs = true) as Hr.
  { unfold rating_ok. unfold dict_item in Erating.
    destruct (assoc "raiting" kvs) as [[| | | | | |r]|]; try done.
    simpl in Erating. unfold field. by rewrite Erating. }
  rewrite Hr in H. cbn [andb] in H. clear Erating Hr.
  rstep. rewrite is_ok_rbind. fold (field kvs "answer_comment_count" (JInt 0)).
  destruct (py_int (py_or (field kvs "answer_comment_count" (JInt 0)) (JInt 0)))
    as [count|]; [|done].
  cbn [is_ok andb] in H.
  rstep. rewrite is_ok_rbind. unfold dict_item, id_ok in *.
  destruct (assoc "id" kvs) as [v_id|]; [|done].
  rstep. rewrite is_ok_rbind. destruct (py_int v_id) as [id|]; [|done].
  cbn [is_ok andb] in H.
  rstep. rewrite is_ok_rbind. unfold user_ok in H. fold (field kvs "user" JNull).
  destruct (parse_user (py_or (field kvs "user" JNull) (JObj []))) as [user|] eqn:Eu; [|done].
  assert ((match py_or (field kvs "user" JNull) (JObj []) with
           | JObj u => is_ok (py_int (field u "id" (JInt 0)))
           | _ => false
           end) = true) as Hu.
  { destruct (py_or (field kvs "user" JNull) (JObj [])) as [| | | | | |u]; try done.
    by rewrite <- parse_user_is_ok, Eu. }
  rewrite Hu in H. cbn [andb] in H. clear Hu Eu.
  rstep. rewrite is_ok_rbind. fold (field kvs "sort" (JInt 0)).
  destruct (py_int (field kvs "sort" (JInt 0))) as [sort|]; [|done].
  cbn [is_ok andb] in H.
  rstep. rewrite is_ok_rbind. fold (field kvs "comment_type" (JInt 0)).
  destruct (py_int (field kvs "comment_type" (JInt 0))) as [ty|]; [|done].
  cbn [is_ok andb] in H.
  rstep. rewrite is_ok_rbind. fold (field kvs "answer_comment_root_id" (JInt 0)).
  destruct (py_int (py_or (field kvs "answer_comment_root_id" (JInt 0)) (JInt 0)))
    as [root|]; [|done].
  cbn [is_ok andb] in H.
  rstep. rewrite is_ok_rbind. unfold infer_parent, str_field, field in H.
  by destruct (match COM_ANS_RE_search _ with Some _ => _ | None => _ end).
Qed.

Lemma parse_comment_is_ok kvs : is_ok (parse_comment (JObj kvs)) = well_shaped kvs.
Proof.
  destruct (well_shaped kvs) eqn:E.
  - by rewrite parse_comment_well_shaped.
  - by apply parse_comment_not_well_shaped.
Qed.

Lemma parse_comment_ok_inv kvs cm : parse_comment (JObj kvs) = Ok cm → cm = comment_of kvs.
Proof.
  intros H. pose proof (parse_comment_is_ok kvs) as Hiff. rewrite H in Hiff.
  symmetry in Hiff. rewrite (parse_comment_well_shaped _ Hiff) in H. congruence.
Qed.



(** X15. The parent a comment is parsed with is zero when its text holds no
    reply anchor, and otherwise the number that the digits of the first anchor
    write, which are at most 4300; it is never negative. *)
Theorem parse_comment_parent_from_anchor (c : json) (cm : Comment.t) :
  parse_comment c = Ok cm →
  match COM_ANS_RE_search (Comment.text_html cm) with
  | Some ds =>
      Comment.parent_id cm = digits_value (chars ds)
      ∧ (N.of_nat (length (chars ds)) ≤ max_str_digits)%N
  | None => Comment.parent_id cm = 0
  end
  ∧ 0 ≤ Comment.parent_id cm.
Proof.
  intros H. destruct c as [| | | | | |kvs]; try discriminate H.
  pose proof (parse_comment_is_ok kvs) as Hok. rewrite H in Hok. symmetry in Hok.
  apply parse_comment_ok_inv in H as ->.
  unfold well_shaped in Hok. apply andb_prop in Hok as [_ Hp].
  cbn [comment_of Comment.parent_id Comment.text_html].
  rewrite infer_parent_anchor in *.
  destruct (COM_ANS_RE_search (str_field kvs "text_template")) as [ds|]; [|done].
  destruct (N.leb_spec (N.of_nat (length (chars ds))) max_str_digits); [|done].
  split; [done|]. apply digits_value_nonneg.
Qed.

(** X15, on that record. *)
Lemma parse_comment_parent_from_anchor_witness :
  parse_comment (JObj arabic_anchor_record) = Ok (comment_of arabic_anchor_record)
  ∧ COM_ANS_RE_search (Comment.text_html (comment_of arabic_anchor_record)) = Some "٣٤"
  ∧ Comment.parent_id (comment_of arabic_anchor_record) = 34.
Proof.
  assert (parse_comment (JObj arabic_anchor_record) = Ok (comment_of arabic_anchor_record))
    as H by (vm_compute; reflexivity).
  assert (COM_ANS_RE_search (Comment.text_html (comment_of arabic_anchor_record))
          = Some "٣٤") as Hs by (vm_compute; reflexivity).
  split; [exact H|]. split; [exact Hs|].
  pose proof (parse_comment_parent_from_anchor _ _ H) as [Hp _].
  rewrite Hs in Hp. destruct Hp as [-> _]. vm_compute. reflexivity.
Defined.

(** ** The scanners *)

Lemma chars_quote post :
  boundary (String dq post) ∧ head (chars (String dq post)) = Some (34%N, dqs).
Proof. split; [done|]. by rewrite chars_cons. Qed.

Lemma com_ans_at_spec s ds :
  com_ans_at s = Some ds ↔
  decimal_digits ds ∧ ∃ post, s = String.app (anchor ds) post.
Proof.
  unfold com_ans_at, anchor, quoted, decimal_digits. split.
  - destruct (strip_prefix _ s) as [r|] eqn:Ep; [|done].
    apply strip_prefix_Some in Ep as ->.
    destruct (span_chars_spec is_decimal r) as (Hr & Hd & _).
    destruct (span_chars is_decimal r) as [a b]. cbn [fst snd] in *.
    destruct a as [|x a]; [done|]. destruct b as [|c b]; [done|].
    destruct (Ascii.eqb_spec c dq) as [->|]; [|done].
    intros [= <-]. split.
    + split; [done|]. rewrite Hd. apply take_while_Forall.
    + exists b. rewrite Hr, !str_app_assoc. done.
  - intros ((Hne & Hd) & post & ->).
    rewrite !str_app_assoc.
    assert (strip_prefix (String.app "data-id=" dqs)
              (String.app "data-id=" (String.app dqs (String.app ds (String.app dqs post))))
            = Some (String.app ds (String.app dqs post))) as ->.
    { apply strip_prefix_Some. by rewrite !str_app_assoc. }
    change (String.app dqs post) with (String dq post).
    destruct (chars_quote post) as [Hb Hh].
    rewrite span_chars_app; [| exact Hd | exact Hb |].
    + destruct ds; [done|]. by rewrite Ascii.eqb_refl.
    + intros c Hc. rewrite Hh in Hc. by injection Hc as <-.
Qed.

Lemma COM_ANS_RE_search_Some s ds :
  COM_ANS_RE_search s = Some ds →
  ∃ pre post, s = String.app pre (String.app (anchor ds) post)
    ∧ decimal_digits ds
    ∧ ¬ anchor_before pre (String.app (anchor ds) post).
Proof.
  induction s as [|c s IH].
  - cbn [COM_ANS_RE_search]. destruct (com_ans_at EmptyString) eqn:E; [|done].
    apply com_ans_at_spec in E as (_ & post & E).
    exfalso. revert E. unfold anchor. cbv [String.append]. discriminate.
  - cbn [COM_ANS_RE_search]. destruct (com_ans_at (String c s)) as [ds'|] eqn:E.
    + intros [= ->]. apply com_ans_at_spec in E as (Hd & post & E).
      exists EmptyString, post. split; [done|]. split; [done|].
      intros (p1 & p2 & ? & Hp & Hp2 & _). by destruct p1, p2.
    + intros (pre & post & -> & Hd & Hnb)%IH.
      exists (String c pre), post. split; [done|]. split; [done|].
      intros (p1 & p2 & ds' & Hp & Hp2 & Hat).
      destruct p1 as [|x p1].
      * change (String.app EmptyString p2) with p2 in Hp. subst p2.
        change (String.app (String c pre) ?t) with (String c (String.app pre t)) in Hat.
        congruence.
      * injection Hp as -> ->. apply Hnb. by exists p1, p2, ds'.
Qed.

Lemma COM_ANS_RE_search_None s :
  COM_ANS_RE_search s = None →
  ∀ pre ds post, decimal_digits ds →
    s ≠ String.app pre (String.app (anchor ds) post).
Proof.
  induction s as [|c s IH]; cbn [COM_ANS_RE_search].
  - intros _ pre ds post Hd. destruct pre; unfold anchor; cbv [String.append]; discriminate.
  - destruct (com_ans_at (String c s)) as [ds'|] eqn:E; [done|].
    intros Hs pre ds post Hd Heq. destruct pre as [|x pre].
    + change (String.app EmptyString ?t) with t in Heq.
      assert (com_ans_at (String c s) = Some ds) as Hat
        by (apply com_ans_at_spec; eauto).
      congruence.
    + injection Heq as -> ->. by eapply IH.
Qed.

(** X16. [COM_ANS_RE.search] finds the first reply anchor of the text: where it
    answers with digits (decimal digits of any script), the text holds that
    anchor and no anchor starts before it; where it answers nothing, the text
    holds no anchor at all. *)
Theorem COM_ANS_RE_search_first_anchor (s : string) :
  (∀ ds, COM_ANS_RE_search s = Some ds →
     ∃ pre post, s = String.app pre (String.app (anchor ds) post)
       ∧ decimal_digits ds
       ∧ ¬ anchor_before pre (String.app (anchor ds) post))
  ∧ (COM_ANS_RE_search s = None →
     ∀ pre ds post, decimal_digits ds →
       s ≠ String.app pre (String.app (anchor ds) post)).
Proof.
  split; [apply COM_ANS_RE_search_Some|apply COM_ANS_RE_search_None].
Qed.

(** X16, on a reply anchor written with an Arabic digit. *)
Lemma COM_ANS_RE_search_first_anchor_witness :
  COM_ANS_RE_search (String.app "<a class='com_ans' " (String.app (anchor "1٣") ">x</a>"))
    = Some "1٣"
  ∧ ∃ pre post, String.app "<a class='com_ans' " (String.app (anchor "1٣") ">x</a>") =
      String.app pre (String.app (anchor "1٣") post)
    ∧ decimal_digits "1٣"
    ∧ ¬ anchor_before pre (String.app (anchor "1٣") post).
Proof.
  assert (COM_ANS_RE_search
            (String.app "<a class='com_ans' " (String.app (anchor "1٣") ">x</a>"))
          = Some "1٣") as H by (vm_compute; reflexivity).
  split; [exact H|].
  exact (proj1 (COM_ANS_RE_search_first_anchor
                  (String.app "<a class='com_ans' " (String.app (anchor "1٣") ">x</a>")))
           "1٣" H).
Defined.

Lemma findall_elem at_ skip s u :
  u ∈ findall at_ skip s →
  ∃ pre suf len, s = String.app pre suf ∧ at_ suf = Some (u, len).
Proof.
  revert skip. induction s as [|c s IH]; intros skip; cbn [findall].
  - by intros ?%elem_of_nil.
  - assert (∀ k, u ∈ findall at_ k s →
              ∃ pre suf len, String c s = String.app pre suf ∧ at_ suf = Some (u, len)) as Hs.
    { intros k (pre & suf & len & -> & Hat)%IH. by exists (String c pre), suf, len. }
    destruct skip as [|k]; [|by apply Hs].
    destruct (at_ (String c s)) as [[g len]|] eqn:E; [|by apply Hs].
    intros [->|Hin]%elem_of_cons; [|by eapply Hs].
    by exists EmptyString, (String c s), len.
Qed.

Lemma findall_nil at_ s :
  findall at_ 0 s = [] →
  ∀ pre suf, s = String.app pre suf → suf ≠ EmptyString → at_ suf = None.
Proof.
  induction s as [|c s IH]; cbn [findall].
  - intros _ pre suf H. by destruct pre, suf.
  - destruct (at_ (String c s)) as [[g len]|] eqn:E; [done|].
    intros Hs pre suf Heq Hne. destruct pre as [|x pre].
    + change (String.app EmptyString suf) with suf in Heq. by subst suf.
    + injection Heq as -> ->. by eapply IH.
Qed.

Lemma all_chars_count x s :
  all_chars (fun c => negb (Ascii.eqb c x)) s = true → count_char x s = O.
Proof.
  induction s as [|c s IH]; [done|]. cbn [all_chars count_char].
  intros [Hc Hs]%andb_prop. apply negb_true_iff in Hc. by rewrite Hc, IH.
Qed.

Lemma count_all_chars x s :
  count_char x s = O → all_chars (fun c => negb (Ascii.eqb c x)) s = true.
Proof.
  induction s as [|c s IH]; [done|]. cbn [all_chars count_char].
  destruct (Ascii.eqb c x); [lia|]. intros H. by rewrite IH by lia.
Qed.

Lemma href_at_Some s u len :
  href_at s = Some (u, len) →
  u ≠ EmptyString ∧ count_char dq u = O ∧ ∃ post, s = String.app (href_attr u) post.
Proof.
  unfold href_at, href_attr, quoted.
  destruct (strip_prefix _ s) as [r|] eqn:Ep; [|done].
  apply strip_prefix_Some in Ep as ->.
  destruct (span_spec (fun c => negb (Ascii.eqb c dq)) r) as (Hr & Hd & Hb).
  destruct (span _ r) as [a b]. cbn [fst snd] in *.
  destruct a as [|x a]; [done|]. destruct b as [|c b]; [done|].
  intros [= <- _]. split; [done|]. split; [by apply all_chars_count|].
  apply negb_false_iff, Ascii.eqb_eq in Hb as ->.
  exists b. rewrite Hr, !str_app_assoc. done.
Qed.

Lemma href_at_complete u post :
  u ≠ EmptyString → count_char dq u = O →
  is_Some (href_at (String.app (href_attr u) post)).
Proof.
  intros Hne Hc. unfold href_at, href_attr, quoted. rewrite !str_app_assoc.
  assert (strip_prefix (String.app "href=" dqs)
            (String.app "href=" (String.app dqs (String.app u (String.app dqs post))))
          = Some (String.app u (String.app dqs post))) as ->.
  { apply strip_prefix_Some. by rewrite !str_app_assoc. }
  change (String.app dqs post) with (String dq post).
  rewrite span_app; [|by apply count_all_chars|by rewrite Ascii.eqb_refl].
  by destruct u.
Qed.

(** X17. Every link [HREF_RE.findall] returns stands in the text as the value of an
    [href] attribute, is not empty and holds no double quote; and the scan
    returns nothing only for a text without such an attribute. *)
Theorem HREF_RE_findall_sound (s : string) :
  (∀ u, u ∈ HREF_RE_findall s →
     u ≠ EmptyString ∧ count_char dq u = O
     ∧ ∃ pre post, s = String.app pre (String.app (href_attr u) post))
  ∧ (HREF_RE_findall s = [] →
     ∀ pre u post, u ≠ EmptyString → count_char dq u = O →
       s ≠ String.app pre (String.app (href_attr u) post)).
Proof.
  split.
  - intros u (pre & suf & len & -> & Hat)%findall_elem.
    apply href_at_Some in Hat as (Hne & Hc & post & ->). eauto.
  - intros Hnil pre u post Hne Hc Heq.
    destruct (href_at_complete u post Hne Hc) as [m Hm].
    rewrite (findall_nil _ _ Hnil pre _ Heq) in Hm; [done|].
    unfold href_attr. cbv [String.append]. discriminate.
Qed.

(** X17, on a link. *)
Lemma HREF_RE_findall_sound_witness :
  "https://h/a.png" ≠ EmptyString ∧ count_char dq "https://h/a.png" = O
  ∧ ∃ pre post, String.app "<a " (String.app (href_attr "https://h/a.png") ">pic</a>") =
      String.app pre (String.app (href_attr "https://h/a.png") post).
Proof.
  apply (proj1 (HREF_RE_findall_sound
                  (String.app "<a " (String.app (href_attr "https://h/a.png") ">pic</a>")))).
  apply (bool_decide_unpack _). vm_compute. reflexivity.
Defined.

Lemma take_app a b : take (String.length a) (String.app a b) = a.
Proof.
  induction a as [|x a IH]; [by destruct b|].
  change (String.app (String x a) b) with (String x (String.app a b)).
  cbn [String.length take]. by rewrite IH.
Qed.

Lemma length_app_str a b :
  String.length (String.app a b) = (String.length a + String.length b)%nat.
Proof.
  induction a as [|x a IH]; [done|].
  change (String.app (String x a) b) with (String x (String.app a b)).
  cbn [String.length]. by rewrite IH.
Qed.

Lemma lower_length s : String.length (lower s) = String.length s.
Proof. induction s as [|c s IH]; [done|]. cbn [lower String.length]. by rewrite IH. Qed.

Lemma plain_url_tail (hd : nat) (scheme r0 s g : string) (len : nat) :
  s = String.app scheme r0 → String.length scheme = hd →
  http_scheme scheme →
  match strip_prefix "://" r0 with
  | Some r1 =>
      match span_chars url_char r1 with
      | (String c u, _) =>
          let len := (hd + 3 + String.length (String c u))%nat in
          Some (take len s, len)
      | _ => None
      end
  | None => None
  end = Some (g, len) →
  plain_url g ∧ ∃ post, s = String.app g post ∧ url_ends post.
Proof.
  intros -> Hlen Hscheme.
  destruct (strip_prefix "://" r0) as [r1|] eqn:Ep; [|done].
  apply strip_prefix_Some in Ep as ->.
  destruct (span_chars_spec url_char r1) as (Hr & Ha & Hb).
  destruct (span_chars url_char r1) as [a b]. cbn [fst snd] in *.
  destruct a as [|c u]; [done|]. cbv zeta. intros [= <- <-].
  assert (String.app scheme (String.app "://" r1) =
          String.app (String.app scheme (String.app "://" (String c u))) b) as Heq.
  { rewrite Hr, !str_app_assoc. done. }
  rewrite Heq.
  match goal with
  | |- context [take ?n _] =>
      replace n with (String.length (String.app scheme (String.app "://" (String c u))))
        by (rewrite !length_app_str, Hlen; cbn [String.length]; lia)
  end.
  rewrite take_app. split.
  - exists scheme, (String c u). split; [done|]. split; [done|]. split; [done|].
    rewrite Ha. apply take_while_Forall.
  - exists b. split; [done|]. intros x Hx. rewrite Hb in Hx.
    destruct (drop_while _ (chars r1)) as [|y l] eqn:E; [done|].
    cbn in Hx. injection Hx as <-. exact (drop_while_head _ _ _ _ E).
Qed.

Lemma lower_app a b : lower (String.app a b) = String.app (lower a) (lower b).
Proof.
  induction a as [|x a IH]; [done|].
  change (String.app (String x a) b) with (String x (String.app a b)).
  cbn [lower]. by rewrite IH.
Qed.

Lemma strip_s_Some r r0 k :
  strip_s r = Some (r0, k) →
  ∃ p2, r = String.app p2 r0 ∧ String.length p2 = k
    ∧ (lower p2 = "s" ∨ p2 = long_s).
Proof.
  unfold strip_s. destruct (strip_prefix_ci "s" r) as [r1|] eqn:E1.
  - intros [= <- <-]. apply strip_prefix_ci_Some in E1 as (p2 & -> & Hl).
    exists p2. split; [done|]. split; [|by left].
    by rewrite <- (lower_length p2), Hl.
  - destruct (strip_prefix _ r) as [r1|] eqn:E2; [|done]. intros [= <- <-].
    apply strip_prefix_Some in E2 as ->. exists long_s. split; [done|]. split; [done|by right].
Qed.

Lemma plain_url_at_Some s g len :
  plain_url_at s = Some (g, len) →
  plain_url g ∧ ∃ post, s = String.app g post ∧ url_ends post.
Proof.
  unfold plain_url_at.
  destruct (strip_prefix_ci "http" s) as [r|] eqn:E1; [|done].
  apply strip_prefix_ci_Some in E1 as (p1 & -> & Hl1).
  assert (String.length p1 = 4%nat) as Hlen1
    by (rewrite <- (lower_length p1), Hl1; done).
  destruct (strip_s r) as [[r0 k]|] eqn:E2.
  - apply strip_s_Some in E2 as (p2 & -> & Hlen2 & Hp2).
    match goal with
    | |- match ?t with Some _ => _ | None => _ end = _ → _ => destruct t as [m|] eqn:Et
    end.
    + intros [= ->]. revert Et.
      apply (plain_url_tail (4 + k) (String.app p1 p2)).
      * by rewrite str_app_assoc.
      * rewrite length_app_str. lia.
      * destruct Hp2 as [Hp2| ->].
        -- right. left. by rewrite lower_app, Hl1, Hp2.
        -- right. right. by exists p1.
    + apply (plain_url_tail 4 p1); [done|done|by left].
  - apply (plain_url_tail 4 p1); [done|done|by left].
Qed.

(** X18. Every address [PLAIN_URL_RE.findall] returns stands in the text and is an
    [http] or [https] scheme in any case, the separator and at least one
    character, none of them white space, an angle bracket or a quote; and
    the address ends where the text ends or such a character follows. *)
Theorem PLAIN_URL_RE_findall_sound (s u : string) :
  u ∈ PLAIN_URL_RE_findall s →
  plain_url u ∧ ∃ pre post, s = String.app pre (String.app u post) ∧ url_ends post.
Proof.
  intros (pre & suf & len & -> & Hat)%findall_elem.
  apply plain_url_at_Some in Hat as (Hu & post & -> & He). eauto.
Qed.

(** X18, on an address in upper case that a no-break space ends. *)
Lemma PLAIN_URL_RE_findall_sound_witness :
  "HTTPS://h/b.PNG" ∈ PLAIN_URL_RE_findall
                        (String.app "see HTTPS://h/b.PNG" (String.app nbsp "more"))
  ∧ plain_url "HTTPS://h/b.PNG"
  ∧ ∃ pre post, String.app "see HTTPS://h/b.PNG" (String.app nbsp "more")
                = String.app pre (String.app "HTTPS://h/b.PNG" post) ∧ url_ends post.
Proof.
  assert ("HTTPS://h/b.PNG" ∈ PLAIN_URL_RE_findall
            (String.app "see HTTPS://h/b.PNG" (String.app nbsp "more"))) as H.
  { apply (bool_decide_unpack _). vm_compute. reflexivity. }
  split; [exact H|]. exact (PLAIN_URL_RE_findall_sound _ _ H).
Defined.

Lemma before_query_app u q :
  count_char "?"%char u = O → before_query (String.app u (String "?"%char q)) = u.
Proof.
  intros Hu. unfold before_query.
  rewrite span_app; [done|by apply count_all_chars|by rewrite Ascii.eqb_refl].
Qed.

Lemma lower_char_idem c : lower_char (lower_char c) = lower_char c.
Proof.
  unfold lower_char at 2.
  destruct ((65 <=? nat_of_ascii c)%nat && (nat_of_ascii c <=? 90)%nat) eqn:E; [|done].
  pose proof E as E'. apply andb_prop in E as [H1 H2]. apply Nat.leb_le in H1, H2.
  unfold lower_char. rewrite nat_ascii_embedding, E' by lia.
  replace ((65 <=? nat_of_ascii c + 32)%nat && (nat_of_ascii c + 32 <=? 90)%nat) with false;
    [done|].
  symmetry. apply andb_false_iff. right. apply Nat.leb_gt. lia.
Qed.

Lemma lower_idem s : lower (lower s) = lower s.
Proof. induction s as [|c s IH]; [done|]. cbn [lower]. by rewrite lower_char_idem, IH. Qed.

Lemma lower_char_query c : Ascii.eqb (lower_char c) "?"%char = Ascii.eqb c "?"%char.
Proof.
  unfold lower_char.
  destruct ((65 <=? nat_of_ascii c)%nat && (nat_of_ascii c <=? 90)%nat) eqn:E; [|done].
  apply andb_prop in E as [H1 H2]. apply Nat.leb_le in H1, H2.
  destruct (Ascii.eqb_spec c "?"%char) as [->|_]; [vm_compute in H1; lia|].
  apply Ascii.eqb_neq. intros H. apply (f_equal nat_of_ascii) in H.
  rewrite nat_ascii_embedding in H by lia. vm_compute (nat_of_ascii "?"%char) in H. lia.
Qed.

Lemma before_query_lower u : before_query (lower u) = lower (before_query u).
Proof.
  unfold before_query. induction u as [|c u IH]; [done|].
  cbn [lower span]. rewrite lower_char_query.
  destruct (Ascii.eqb c "?"%char); cbn [negb]; [done|].
  destruct (span _ (lower u)) as [a b], (span _ u) as [a' b']. cbn [fst] in *.
  cbn [lower]. by rewrite IH.
Qed.

Lemma str_app_empty_r a : String.app a EmptyString = a.
Proof.
  induction a as [|x a IH]; [done|].
  change (String.app (String x a) EmptyString) with (String x (String.app a EmptyString)).
  by rewrite IH.
Qed.

(** X19. Whether an address counts as an image does not depend on what follows
    its first question mark nor on the case of its letters. *)
Theorem looks_like_image_ignores_query_and_case (u : string) :
  looks_like_image (lower u) = looks_like_image u
  ∧ ∀ q, count_char "?"%char u = O →
      looks_like_image (String.app u (String "?"%char q)) = looks_like_image u.
Proof.
  split.
  - unfold looks_like_image. cbv zeta. by rewrite before_query_lower, lower_idem.
  - intros q Hu. unfold looks_like_image. cbv zeta.
    rewrite before_query_app by done.
    assert (before_query u = u) as ->; [|done].
    unfold before_query. pose proof (span_spec (fun c => negb (Ascii.eqb c "?"%char)) u) as (H1 & _ & H3).
    destruct (span _ u) as [a b]. cbn [fst snd] in *.
    destruct b as [|c b].
    + rewrite str_app_empty_r in H1. congruence.
    + apply negb_false_iff, Ascii.eqb_eq in H3 as ->.
      rewrite H1, count_char_app in Hu. cbn [count_char] in Hu. 
      rewrite Ascii.eqb_refl in Hu. lia.
Qed.

(** X19, on an address in upper case with a query. *)
Lemma looks_like_image_ignores_query_and_case_witness :
  looks_like_image (String.app "https://h/A.PNG" (String "?"%char "w=1&h=2.txt")) =
    looks_like_image "https://h/A.PNG".
Proof.
  apply (proj2 (looks_like_image_ignores_query_and_case "https://h/A.PNG")). reflexivity.
Defined.

(** ** Whole runs *)

Lemma emits_at {A} (P : event → Prop) (m : M A) tr :
  emits P m → ∃ ev, snd (m tr) = ev ++ tr ∧ Forall P ev.
Proof. intros H. apply H. Qed.

Lemma emits_paginate_of W n site hash url pd seen comments :
  emits (page_event_of site hash url) (paginate W n site hash url pd seen comments).
Proof.
  revert pd seen comments. induction n as [|n IH]; intros pd seen comments; simpl;
    [apply emits_ret|].
  destruct (_ <=? _) eqn:Ec; [apply emits_ret|].
  apply emits_bind.
  { apply emits_get_json. cbn [page_event_of]. apply Z.leb_gt in Ec. done. }
  intros resp.
  apply emits_bind; [apply emits_lift|]; intros v_data.
  apply emits_bind; [apply emits_lift|]; intros v_comments.
  destruct (negb _); [apply emits_ret|].
  apply emits_bind; [apply emits_lift|]; intros raws.
  apply emits_bind; [apply emits_lift|]; intros [[seen' comments'] added].
  destruct (added =? 0); [apply emits_ret|].
  apply emits_bind; [by apply emits_sleep|]. intros _. apply IH.
Qed.

Lemma emits_complete_threads_of W roots site hash url seen comments counts :
  emits (thread_event_of site hash url)
    (complete_threads W roots site hash url seen comments counts).
Proof.
  revert seen comments counts.
  induction roots as [|root rest IH]; intros seen comments counts; simpl; [apply emits_ret|].
  destruct (_ >? _); [|apply IH].
  apply emits_bind.
  { apply emits_except_request; [|apply emits_ret].
    apply emits_bind; [by apply emits_get_json|]. intros ?. apply emits_ret. }
  intros [tdata|]; [|apply IH].
  apply emits_bind; [apply emits_lift|]; intros v_data.
  apply emits_bind; [apply emits_lift|]; intros v_comments.
  apply emits_bind; [apply emits_lift|]; intros raws.
  apply emits_bind; [apply emits_lift|]; intros [[seen' comments'] added].
  apply emits_bind; [by apply emits_sleep|]. intros _. apply IH.
Qed.

Lemma emits_url_to_data_uri_timed W url : emits fetch_event_timed (url_to_data_uri W url 3).
Proof.
  unfold url_to_data_uri. change (Z.to_nat 3) with 3%nat. cbn [retry_loop].
  repeat first
    [ apply emits_ret
    | apply emits_bind; [by apply emits_session_get|]; intros [?|];
      [match goal with |- context [usable ?r] => destruct (usable r) end|]
    | apply emits_bind;
      [apply emits_sleep; cbn [fetch_event_timed]; unfold Qeq; simpl; lia|]; intros _ ].
Qed.

Lemma emits_fill_cache_timed W urls cache : emits fetch_event_timed (fill_cache W urls cache).
Proof.
  revert cache. induction urls as [|u urls IH]; intros cache; simpl; [apply emits_ret|].
  apply emits_bind; [apply emits_url_to_data_uri_timed|]. intros d.
  apply emits_bind; [apply emits_sleep; cbn [fetch_event_timed]; left; reflexivity|].
  intros _. apply IH.
Qed.

Lemma emits_embed_avatars_timed W comments :
  emits fetch_event_timed (embed_avatars W comments).
Proof.
  apply emits_bind; [apply emits_fill_cache_timed|]. intros cache. apply emits_ret.
Qed.

Lemma emits_embed_linked_images_timed W comments :
  emits fetch_event_timed (embed_linked_images W comments).
Proof.
  apply emits_bind; [apply emits_lift|]. intros g.
  apply emits_bind; [apply emits_fill_cache_timed|]. intros cache. apply emits_ret.
Qed.

Lemma initial_batch_trace W url tr :
  snd (initial_batch W url tr) = Request (FirstPage url) :: tr.
Proof.
  unfold initial_batch, bind, first_page, get_json, lift, ret.
  destruct (api W tr (FirstPage url)); [|done].
  repeat match goal with
  | |- context [match ?r with Ok _ => _ | Raise _ => _ end] => destruct r; [|done]
  | |- context [let '(_, _) := ?m in _] => destruct m as [[??]?]
  end; done.
Qed.

Lemma collect_phases (W : world) (url : string) (max_pages : Z) (tr : list event) :
  ∃ site hash pages threads fetches,
    snd (collect_all_comments W url max_pages tr) =
      fetches ++ threads ++ pages ++ Request (FirstPage url) :: tr
    ∧ Forall (page_event_of site hash url) pages
    ∧ Forall (thread_event_of site hash url) threads
    ∧ Forall fetch_event_timed fetches.
Proof.
  unfold collect_all_comments. unfold bind at 1.
  pose proof (initial_batch_trace W url tr) as H1.
  destruct (initial_batch W url tr) as [[b|e] tr1]; cbn [snd] in H1; subst tr1.
  2:{ exists 0, EmptyString, [], [], []. done. }
  exists (b_site_id b), (b_hash_val b).
  unfold bind at 1.
  destruct (emits_at _ _ (Request (FirstPage url) :: tr)
              (emits_paginate_of W (Z.to_nat max_pages) (b_site_id b) (b_hash_val b) url 0
                 (b_seen b) (b_comments b))) as (pages & H2 & HP2).
  destruct (paginate W _ _ _ _ _ _ _ _) as [[p|e] tr2]; cbn [snd] in H2; subst tr2.
  2:{ exists pages, [], []. done. }
  exists pages. unfold bind at 1.
  destruct (emits_at _ _ (pages ++ Request (FirstPage url) :: tr)
              (emits_complete_threads_of W
                 (filter (fun c => is_root c = true) (p_comments p))
                 (b_site_id b) (b_hash_val b) url (p_seen p) (p_comments p)
                 (foldl count_reply ∅ (p_comments p)))) as (threads & H3 & HP3).
  unfold thread_completion.
  destruct (complete_threads W _ _ _ _ _ _ _ _) as [[[[s3 c3] k3]|e] tr3];
    cbn [snd] in H3; subst tr3.
  2:{ exists threads, []. done. }
  exists threads. unfold bind at 1.
  destruct (emits_at _ _ (threads ++ pages ++ Request (FirstPage url) :: tr)
              (emits_embed_avatars_timed W c3)) as (f1 & H4 & HP4).
  destruct (embed_avatars W c3 _) as [[c4|e] tr4]; cbn [snd] in H4; subst tr4.
  2:{ exists f1. done. }
  unfold bind at 1.
  destruct (emits_at _ _ (f1 ++ threads ++ pages ++ Request (FirstPage url) :: tr)
              (emits_embed_linked_images_timed W c4)) as (f2 & H5 & HP5).
  destruct (embed_linked_images W c4 _) as [[imgs|e] tr5]; cbn [snd] in H5; subst tr5.
  - exists (f2 ++ f1). cbn [ret snd]. rewrite <- app_assoc.
    split; [done|]. split; [done|]. split; [done|]. by apply Forall_app.
  - exists (f2 ++ f1). cbn [snd]. rewrite <- app_assoc.
    split; [done|]. split; [done|]. split; [done|]. by apply Forall_app.
Qed.

(** X20. A run goes through its phases in order and never back: the first-page
    call, then page calls and pauses of 0.12 s, then thread calls and pauses
    of 0.08 s, then GETs of binaries with their pauses. Every page and thread
    call carries the page address given and one site id and hash, and every
    page cursor is positive. This holds for failed runs too. *)
Theorem run_phases (W : world) (url : string) (max_pages : Z) (tr : list event) :
  ∃ site hash pages threads fetches,
    snd (collect_all_comments W url max_pages tr) =
      fetches ++ threads ++ pages ++ Request (FirstPage url) :: tr
    ∧ Forall (page_event_of site hash url) pages
    ∧ Forall (thread_event_of site hash url) threads
    ∧ Forall fetch_event_timed fetches.
Proof. apply collect_phases. Qed.

Lemma foldl_min_le a l : foldl Z.min a l ≤ a.
Proof.
  revert a. induction l as [|x l IH]; intros a; cbn [foldl]; [lia|].
  specialize (IH (Z.min a x)). lia.
Qed.

Lemma current_min_sort_app cs extra :
  cs ≠ [] → current_min_sort (cs ++ extra) ≤ current_min_sort cs.
Proof.
  destruct cs as [|c cs]; [done|]. intros _. cbn [app current_min_sort].
  rewrite map_app, foldl_app. apply foldl_min_le.
Qed.

Lemma Sorted_snoc_le l c : Sorted Z.le l → Forall (fun x => x ≤ c) l → Sorted Z.le (l ++ [c]).
Proof.
  induction 1 as [|x l Hs IH Hhd]; intros Hall; cbn [app].
  - by repeat constructor.
  - apply Forall_cons in Hall as [Hx Hall]. constructor; [by apply IH|].
    destruct Hhd as [|y l' Hxy]; cbn [app]; by constructor.
Qed.

Lemma paginate_cursors W n site hash url pd seen comments tr :
  ∃ ev, snd (paginate W n site hash url pd seen comments tr) = ev ++ tr
    ∧ Sorted Z.le (page_cursors ev)
    ∧ Forall (fun c => 0 < c ≤ current_min_sort comments) (page_cursors ev).
Proof.
  revert pd seen comments tr. induction n as [|n IH]; intros pd seen comments tr.
  { exists []. by repeat constructor. }
  rewrite paginate_S. destruct (current_min_sort comments <=? 0) eqn:Hc.
  { exists []. by repeat constructor. }
  apply Z.leb_gt in Hc. cbv zeta.
  set (call := Request (PageCall site hash url (current_min_sort comments))).
  assert (∃ ev, call :: tr = ev ++ tr ∧ Sorted Z.le (page_cursors ev)
            ∧ Forall (fun c => 0 < c ≤ current_min_sort comments) (page_cursors ev)) as Hone.
  { exists [call]. split; [done|]. cbn. split; [by repeat constructor|].
    repeat constructor; lia. }
  destruct (api W tr _) as [resp|]; [|done].
  destruct (page_records resp) as [new_raw|]; [|done].
  destruct (negb (truthy new_raw)); [done|].
  destruct (py_iter new_raw) as [raws|]; [|done].
  destruct (merge_records raws seen comments 0) as [[[seen' comments'] added]|] eqn:Hm; [|done].
  destruct (added =? 0); [done|].
  apply merge_records_ok in Hm as (parsed & _ & _ & -> & _).
  destruct (IH (pd + 1) seen' (comments ++ fresh seen parsed) (Sleep (3 # 25) :: call :: tr))
    as (ev & -> & Hs & Hall).
  assert (comments ≠ []) as Hne by (intros ->; cbn in Hc; lia).
  pose proof (current_min_sort_app comments (fresh seen parsed) Hne) as Hle.
  exists (ev ++ [Sleep (3 # 25); call]). split; [by rewrite <- app_assoc|].
  unfold page_cursors in *. rewrite omap_app. cbn [omap call].
  split.
  - apply Sorted_snoc_le; [done|]. eapply Forall_impl; [exact Hall|].
    cbv beta. intros c ?. lia.
  - apply Forall_app. split.
    + eapply Forall_impl; [exact Hall|]. cbv beta. intros c ?. lia.
    + repeat constructor; lia.
Qed.

(** X21. The cursors of the page calls only go down: each call asks for the page
    below the least sort key collected so far, which is positive and never
    above the cursor of the call before. *)
Theorem paginate_cursors_descend (W : world) (n : nat) (site : Z) (hash url : string)
    (pd : Z) (seen : gset Z) (comments : list Comment.t) (tr : list event) :
  ∃ ev, snd (paginate W n site hash url pd seen comments tr) = ev ++ tr
    ∧ Sorted Z.le (page_cursors ev)
    ∧ Forall (fun c => 0 < c ≤ current_min_sort comments) (page_cursors ev).
Proof. apply paginate_cursors. Qed.

Lemma paginate_nothing W n site hash url pd seen tr :
  ∃ stop, paginate W n site hash url pd seen [] tr = (Ok (Build_paged stop pd seen []), tr).
Proof. destruct n; by eexists. Qed.

Lemma collect_no_data W url max_pages tr kvs :
  api W tr (FirstPage url) = Some (JObj kvs) →
  truthy (field kvs "data" JNull) = false →
  collect_all_comments W url max_pages tr =
    (Ok (default_meta, [], ∅), Request (FirstPage url) :: tr).
Proof.
  intros Hapi Hdata. unfold collect_all_comments. unfold bind at 1.
  assert (initial_batch W url tr =
            (Ok (Build_batch 6289 "null" "FitGirl Comments" 0 ∅ []),
             Request (FirstPage url) :: tr)) as ->.
  { unfold initial_batch, bind, first_page, get_json, lift. rewrite Hapi.
    cbn [dict_get]. fold (field kvs "data" JNull). unfold py_or at 1 2. rewrite Hdata.
    reflexivity. }
  cbn [b_site_id b_hash_val b_seen b_comments b_title b_total_count].
  unfold bind at 1.
  destruct (paginate_nothing W (Z.to_nat max_pages) 6289 "null" url 0 ∅
              (Request (FirstPage url) :: tr)) as [stop ->].
  reflexivity.
Qed.

(** X22. A first page without data ends the run at once: one request, no comment,
    the default metadata, and [main] writes a document without threads. *)
Theorem first_page_without_data (W : world) (depth : nat) (url : string) (max_pages : Z)
    (tr : list event) (kvs : list (string * json)) :
  api W tr (FirstPage (strip url)) = Some (JObj kvs) →
  truthy (field kvs "data" JNull) = false →
  collect_all_comments W (strip url) max_pages tr =
    (Ok (default_meta, [], ∅), Request (FirstPage (strip url)) :: tr)
  ∧ (startswith (strip url) "http://" || startswith (strip url) "https://" = true →
     main W depth url max_pages tr =
       (Written empty_document ∅, Request (FirstPage (strip url)) :: tr)).
Proof.
  intros Hapi Hdata. pose proof (collect_no_data W _ max_pages tr kvs Hapi Hdata) as Hrun.
  split; [done|]. intros Hurl. unfold main. rewrite Hurl, Hrun. reflexivity.
Qed.

(** X22, at a server whose first page has no data. *)
Lemma first_page_without_data_witness :
  collect_all_comments no_data_world (strip " https://site/game/ ") 400 [] =
    (Ok (default_meta, [], ∅), [Request (FirstPage (strip " https://site/game/ "))])
  ∧ (startswith (strip " https://site/game/ ") "http://"
     || startswith (strip " https://site/game/ ") "https://" = true →
     main no_data_world 1000 " https://site/game/ " 400 [] =
       (Written empty_document ∅, [Request (FirstPage (strip " https://site/game/ "))])).
Proof.
  apply (first_page_without_data no_data_world 1000 " https://site/game/ " 400 []
           [("status", JStr "ok")]); reflexivity.
Defined.

Lemma py_str_truthy v : truthy v = true → py_str v ≠ EmptyString.
Proof.
  destruct v as [|b|n|x|s|xs|kvs]; cbn [truthy py_str py_repr].
  - done.
  - by intros ->.
  - destruct n as [|p|p]; [done| |].
    + intros _. rewrite pretty_pos. by apply digits_of_nonempty.
    + intros _. change (pretty (Zneg p)) with (String "-"%char (pretty (Zpos p))). done.
  - by destruct x as [q c t|[]|].
  - by destruct s.
  - intros _. cbv [String.append]. done.
  - intros _. cbv [String.append]. done.
Qed.

Lemma py_str_or v d : d ≠ EmptyString → py_str (py_or v (JStr d)) ≠ EmptyString.
Proof.
  intros Hd. unfold py_or. destruct (truthy v) eqn:E; [by apply py_str_truthy|done].
Qed.

Lemma initial_batch_texts W url tr b tr1 :
  initial_batch W url tr = (Ok b, tr1) →
  b_title b ≠ EmptyString ∧ b_hash_val b ≠ EmptyString.
Proof.
  unfold initial_batch, bind, first_page, get_json, lift, ret.
  destruct (api W tr (FirstPage url)); [|done].
  repeat match goal with
  | |- context [match ?r with Ok _ => _ | Raise _ => _ end] => destruct r; [|done]
  | |- context [let '(_, _) := ?m in _] => destruct m as [[??]?]
  end.
  intros [= <- _]. cbn [b_title b_hash_val]. split; by apply py_str_or.
Qed.

(** X23. The title and the hash of the metadata are never empty: a missing or
    empty value of the chat gives the fixed title and the text [null]. *)
Theorem meta_texts_not_empty (W : world) (url : string) (max_pages : Z)
    (tr tr' : list event) (meta : Meta.t) (cs : list Comment.t)
    (imgs : gmap Z (list (string * string))) :
  collect_all_comments W url max_pages tr = (Ok (meta, cs, imgs), tr') →
  Meta.title meta ≠ EmptyString ∧ Meta.hash meta ≠ EmptyString.
Proof.
  intros (b & tr1 & p & tr2 & s3 & c3 & k3 & tr3 & tr4 & Hb & _ & _ & _ & _ & ->)
    %collect_all_comments_ok.
  cbn [Meta.title Meta.hash]. by eapply initial_batch_texts.
Qed.

(** X23, at a server whose first page has no data. *)
Lemma meta_texts_not_empty_witness :
  collect_all_comments no_data_world "https://site/game/" 400 [] =
    (Ok (default_meta, [], ∅), [Request (FirstPage "https://site/game/")])
  ∧ Meta.title default_meta ≠ EmptyString ∧ Meta.hash default_meta ≠ EmptyString.
Proof.
  assert (collect_all_comments no_data_world "https://site/game/" 400 [] =
            (Ok (default_meta, [], ∅), [Request (FirstPage "https://site/game/")])) as H
    by (vm_compute; reflexivity).
  split; [exact H|].
  exact (meta_texts_not_empty _ _ _ _ _ _ _ _ H).
Defined.

(** X24. How [main] ends. It exits with code 2, before any request, exactly when
    the address without the white space around it has no [http] or [https]
    scheme. A run that passes the check starts with the first-page call for
    the stripped address; it exits with code 1 exactly when the collection
    ends in a request error, ends in an exception that nothing catches
    exactly when the collection or the rendering raises another one, and
    hands over the document otherwise. The process ends with status 1 in
    both of the failing cases. *)
Theorem main_exit_codes (W : world) (depth : nat) (url : string) (max_pages : Z)
    (tr : list event) :
  let game_url := strip url in
  let accepted := startswith game_url "http://" || startswith game_url "https://" in
  let run := collect_all_comments W game_url max_pages tr in
  let out := main W depth url max_pages tr in
  (accepted = false → out = (Exit 2, tr))
  ∧ (accepted = true →
     (∃ ev, snd out = ev ++ Request (FirstPage game_url) :: tr)
     ∧ snd out = snd run
     ∧ fst out ≠ Exit 2
     ∧ (fst out = Exit 1 ↔ fst run = Raise RequestException)
     ∧ (∀ e, fst out = Uncaught e ↔
          (fst run = Raise e ∧ e ≠ RequestException)
          ∨ ∃ meta cs imgs, fst run = Ok (meta, cs, imgs)
              ∧ doc_items (build_html depth cs) = Raise e)
     ∧ (∀ doc imgs, fst out = Written doc imgs ↔
          ∃ meta cs, fst run = Ok (meta, cs, imgs) ∧ doc = build_html depth cs
            ∧ is_ok (doc_items doc) = true)
     ∧ (is_ok (fst run) = false
        ∨ (∃ meta cs imgs, fst run = Ok (meta, cs, imgs)
             ∧ is_ok (doc_items (build_html depth cs)) = false) →
        exit_status (fst out) = 1)).
Proof.
  cbv zeta. unfold main. split.
  - by intros ->.
  - intros ->. cbn [negb].
    destruct (collect_phases W (strip url) max_pages tr)
      as (site & hash & pages & threads & fetches & Htr & _).
    destruct (collect_all_comments W (strip url) max_pages tr) as [[[[meta cs] imgs]|e] tr'];
      cbn [fst snd] in *; subst tr'.
    + split; [|split].
      { destruct (doc_items (build_html depth cs));
          exists (fetches ++ threads ++ pages); by rewrite <- !app_assoc. }
      { by destruct (doc_items (build_html depth cs)). }
      destruct (doc_items (build_html depth cs)) as [items|e] eqn:Eitems; cbn [fst].
      * split; [done|]. split; [done|]. split; [|split].
        -- intros e. split; [done|]. intros [[? _]|(? & ? & ? & [= _ <- _] & ?)]; [done|].
           congruence.
        -- intros doc imgs'. split.
           ++ intros [= <- <-]. exists meta, cs. by rewrite Eitems.
           ++ intros (? & ? & [= _ <- <-] & -> & _). done.
        -- intros [?|(? & ? & ? & [= _ <- _] & H)]; [done|]. by rewrite Eitems in H.
      * split; [done|]. split; [done|]. split; [|split].
        -- intros e'. split.
           ++ intros [= <-]. right. by exists meta, cs, imgs.
           ++ intros [[? _]|(? & ? & ? & [= _ <- _] & H)]; [done|]. congruence.
        -- intros doc imgs'. split; [done|].
           intros (? & ? & [= _ <- <-] & -> & H). by rewrite Eitems in H.
        -- done.
    + split; [|split; [by destruct e|]].
      { exists (fetches ++ threads ++ pages). destruct e; by rewrite <- !app_assoc. }
      split; [by destruct e|]. split; [by destruct e|]. split; [|split].
      * intros e'. split.
        -- destruct e; intros [= <-]; by left.
        -- intros [[[= <-] Hne]|(? & ? & ? & ? & _)]; [by destruct e|done].
      * intros doc imgs'. split; [by destruct e|]. by intros (? & ? & ? & _).
      * intros _. by destruct e.
Qed.

(** X24, on these addresses. *)
Lemma main_exit_codes_witness :
  main no_data_world 1000 "ftp://site/game/" 400 [] = (Exit 2, [])
  ∧ (strip padded_url = "https://site/game/"
     ∧ snd (main no_data_world 1000 padded_url 400 []) =
         snd (collect_all_comments no_data_world "https://site/game/" 400 [])
     ∧ fst (main no_data_world 1000 padded_url 400 []) ≠ Exit 2).
Proof.
  split.
  - apply (proj1 (main_exit_codes no_data_world 1000 "ftp://site/game/" 400 [])). reflexivity.
  - assert (strip padded_url = "https://site/game/") as Hs by (vm_compute; reflexivity).
    split; [exact Hs|].
    destruct (proj2 (main_exit_codes no_data_world 1000 padded_url 400 []))
      as (_ & Htr & Hne & _).
    + rewrite Hs. reflexivity.
    + rewrite Hs in Htr. split; [exact Htr|exact Hne].
Defined.

(** ** The avatar pass *)

Lemma embed_avatars_cache W cs tr cs' tr' :
  embed_avatars W cs tr = (Ok cs', tr') →
  ∃ cache, fill_cache W (elements (avatar_urls cs)) ∅ tr = (Ok cache, tr')
    ∧ cs' = map (backfill_avatar cache) cs.
Proof.
  unfold embed_avatars, bind.
  destruct (fill_cache W _ ∅ tr) as [[cache|e] tr1]; [|done].
  intros [= <- <-]. by exists cache.
Qed.

Lemma backfill_avatar_inline cache c :
  inline_avatar (backfill_avatar cache c) =
    if nonempty (avatar_url c) then default (inline_avatar c) (cache_hit cache (avatar_url c))
    else inline_avatar c.
Proof.
  unfold backfill_avatar, inline_avatar, avatar_url.
  destruct (nonempty _); [|done]. by destruct (cache_hit cache _).
Qed.

(** X25. What the avatar pass does to a collection: a comment without an avatar
    address is left as it is; an inline avatar that changes is not empty and
    is what a fetch of the address of that author returned; and two comments
    with the same address and the same inline avatar before the pass have the
    same one after it. *)
Theorem embed_avatars_consistent (W : world) (cs cs' : list Comment.t)
    (tr tr' : list event) :
  embed_avatars W cs tr = (Ok cs', tr') →
  length cs' = length cs
  ∧ ∀ i c c', cs !! i = Some c → cs' !! i = Some c' →
      (avatar_url c = EmptyString → c' = c)
      ∧ (inline_avatar c' ≠ inline_avatar c →
         inline_avatar c' ≠ EmptyString
         ∧ ∃ tr0 tr1, url_to_data_uri W (avatar_url c) 3 tr0 = (Ok (Some (inline_avatar c')), tr1))
      ∧ ∀ j d d', cs !! j = Some d → cs' !! j = Some d' →
          avatar_url c = avatar_url d → inline_avatar c = inline_avatar d →
          inline_avatar c' = inline_avatar d'.
Proof.
  intros (cache & Hfill & ->)%embed_avatars_cache.
  split; [by rewrite length_map|].
  intros i c c' Hc Hc'. rewrite list_lookup_fmap, Hc in Hc'. injection Hc' as <-.
  split; [|split].
  - unfold avatar_url, backfill_avatar. by intros ->.
  - rewrite backfill_avatar_inline.
    destruct (nonempty (avatar_url c)); [|done].
    destruct (cache_hit cache (avatar_url c)) as [d|] eqn:Hhit; [|done].
    cbn [default from_option id]. intros _.
    apply cache_hit_Some in Hhit as [Hlook Hne]. split; [done|].
    destruct (fill_cache_values _ _ _ _ _ _ _ _ Hfill Hlook) as [Hempty|Hfetch]; [|done].
    by rewrite lookup_empty in Hempty.
  - intros j d d' Hd Hd' Hurl Hin. rewrite list_lookup_fmap, Hd in Hd'. injection Hd' as <-.
    rewrite !backfill_avatar_inline. by rewrite Hurl, Hin.
Qed.

(** X25, on two comments of one author. *)
Lemma embed_avatars_consistent_witness :
  ∃ cs' tr',
    embed_avatars shared_url_world
      [comment_of [("id", JInt 1); ("user", JObj [("ava", JStr "https://cdn/a.png")])];
       comment_of [("id", JInt 2); ("user", JObj [("ava", JStr "https://cdn/a.png")])]] [] =
      (Ok cs', tr')
    ∧ length cs' = 2%nat.
Proof.
  destruct (embed_avatars shared_url_world
      [comment_of [("id", JInt 1); ("user", JObj [("ava", JStr "https://cdn/a.png")])];
       comment_of [("id", JInt 2); ("user", JObj [("ava", JStr "https://cdn/a.png")])]] [])
    as [[cs'|e] tr'] eqn:Hrun.
  - exists cs', tr'. split; [reflexivity|].
    exact (proj1 (embed_avatars_consistent _ _ _ _ _ Hrun)).
  - vm_compute in Hrun. discriminate Hrun.
Defined.

(** ** What the document holds *)

Lemma elem_of_concat_map {A B} (f : A → list B) (l : list A) y :
  y ∈ concat (map f l) ↔ ∃ x, x ∈ l ∧ y ∈ f x.
Proof.
  induction l as [|a l IH]; cbn [map concat].
  - split; [by intros ?%elem_of_nil|]. by intros (x & ?%elem_of_nil & _).
  - rewrite elem_of_app, IH. split.
    + intros [Hy|(x & Hx & Hy)]; [exists a; split; [left|done]|exists x; split; [by right|done]].
    + intros (x & [->|Hx]%elem_of_cons & Hy); [by left|right; eauto].
Qed.

Lemma NoDup_concat_map {A B} (f : A → list B) (l : list A) :
  NoDup l → (∀ x, x ∈ l → NoDup (f x)) →
  (∀ x1 x2 y, x1 ∈ l → x2 ∈ l → y ∈ f x1 → y ∈ f x2 → x1 = x2) →
  NoDup (concat (map f l)).
Proof.
  induction 1 as [|x l Hx Hl IH]; intros Hf Hd; cbn [map concat]; [constructor|].
  apply NoDup_app. split; [apply Hf; left|]. split.
  - intros y Hy (x2 & Hx2 & Hy2)%elem_of_concat_map.
    assert (x = x2) as -> by (eapply Hd; eauto; [left|by right]). done.
  - apply IH; [intros; apply Hf; by right|].
    intros x1 x2 y ? ?. apply Hd; by right.
Qed.

Lemma ids_NoDup_list cs : NoDup (ids cs) → NoDup cs.
Proof. apply NoDup_fmap_1. Qed.

Lemma Forall2_elem_r {A B} (R : A → B → Prop) l k y :
  Forall2 R l k → y ∈ k → ∃ x, x ∈ l ∧ R x y.
Proof.
  induction 1 as [|a b l k Hab _ IH]; [by intros ?%elem_of_nil|].
  intros [->|Hy]%elem_of_cons; [exists a; split; [left|done]|].
  destruct (IH Hy) as (x & Hx & Hxy). exists x. split; [by right|done].
Qed.

Lemma Forall2_elem_l {A B} (R : A → B → Prop) l k x :
  Forall2 R l k → x ∈ l → ∃ y, y ∈ k ∧ R x y.
Proof.
  induction 1 as [|a b l k Hab _ IH]; [by intros ?%elem_of_nil|].
  intros [->|Hx]%elem_of_cons; [exists b; split; [left|done]|].
  destruct (IH Hx) as (y & Hy & Hxy). exists y. split; [by right|done].
Qed.

Section rendered.

Context (cs : list Comment.t) (children : gmap Z (list Comment.t)).

Hypothesis kids_children : ∀ p, kids_at children p = children_of cs p.

Lemma at_depth_trans a n b m x :
  at_depth cs a n b → at_depth cs b m x → at_depth cs a (n + m) x.
Proof.
  intros Hab. induction 1 as [|m c' c Hc' IH Hin Hroot Hp].
  - by rewrite Nat.add_0_r.
  - rewrite Nat.add_succ_r. by econstructor.
Qed.

Lemma at_depth_front a n x :
  at_depth cs a (S n) x →
  ∃ b, b ∈ cs ∧ is_root b = false ∧ Comment.parent_id b = Comment.id a ∧ at_depth cs b n x.
Proof.
  revert x. induction n as [|n IH]; intros x Hx.
  - inversion Hx as [|? c' ? Hc' Hin Hroot Hp]; subst.
    inversion Hc'; subst. exists x. repeat split; try done. constructor.
  - inversion Hx as [|? c' ? Hc' Hin Hroot Hp]; subst.
    destruct (IH c' Hc') as (b & Hb & Hbr & Hbp & Hbc).
    exists b. repeat split; try done. by econstructor.
Qed.

Lemma at_depth_elem a n x : a ∈ cs → at_depth cs a n x → x ∈ cs.
Proof. intros Ha. by destruct 1. Qed.

Lemma at_depth_reply_not_root a n x : at_depth cs a (S n) x → is_root x = false.
Proof. by inversion 1. Qed.

Lemma sorted_children a rc :
  rc ∈ py_sorted (le_key Comment.sort) (children_of cs (Comment.id a)) ↔
  rc ∈ cs ∧ is_root rc = false ∧ Comment.parent_id rc = Comment.id a.
Proof.
  rewrite py_sorted_Permutation. unfold children_of. rewrite list_elem_of_filter. tauto.
Qed.

(** What a walk that returns shows of a comment: the comment and what the walk
    below it shows. *)
Lemma elem_of_rendered_walk (f : Comment.t → res node) l nodes x :
  traverse f l = Ok nodes →
  x ∈ rendered nodes ↔ ∃ rc nd, rc ∈ l ∧ f rc = Ok nd ∧ x ∈ node_comments nd.
Proof.
  intros H%traverse_Ok. unfold rendered. rewrite elem_of_concat_map. split.
  - intros (nd & Hnd & Hx). destruct (Forall2_elem_r _ _ _ _ H Hnd) as (rc & Hrc & Hf).
    by exists rc, nd.
  - intros (rc & nd & Hrc & Hf & Hx).
    destruct (Forall2_elem_l _ _ _ _ H Hrc) as (nd' & Hnd' & Hf').
    exists nd'. split; [done|]. congruence.
Qed.

(** The walk below a comment, when it returns, shows exactly the comments
    that hang below it. *)
Lemma elem_of_rendered_below d a nodes x :
  render_reply_tree d (Comment.id a) children = Ok nodes →
  x ∈ rendered nodes ↔ ∃ k, at_depth cs a (S k) x.
Proof.
  revert a nodes x. induction d as [|d IH]; intros a nodes x; [done|].
  rewrite (render_reply_tree_S cs children kids_children). intros H.
  rewrite (elem_of_rendered_walk _ _ _ _ H). split.
  - intros (rc & nd & Hrc & Hnd & Hx).
    apply sorted_children in Hrc as (Hin & Hroot & Hp).
    apply render_reply_Ok in Hnd as (_ & replies & -> & Hr).
    assert (at_depth cs a 1 rc) as Hone by (econstructor; [constructor|done..]).
    cbn [node_comments] in Hx. apply elem_of_cons in Hx as [->|Hx].
    + by exists 0%nat.
    + apply (IH _ _ _ Hr) in Hx as (k & Hd). exists (S k).
      apply (at_depth_trans a 1 rc (S k) x Hone Hd).
  - intros (k & Hd). apply at_depth_front in Hd as (b & Hb & Hbr & Hbp & Hbx).
    assert (b ∈ py_sorted (le_key Comment.sort) (children_of cs (Comment.id a))) as Hbs
      by (by apply sorted_children).
    destruct (Forall2_elem_l _ _ _ _ (proj1 (traverse_Ok _ _ _) H) Hbs) as (nd & _ & Hnd).
    exists b, nd. split; [done|]. split; [done|].
    apply render_reply_Ok in Hnd as (_ & replies & -> & Hr). cbn [node_comments].
    destruct k as [|k].
    + inversion Hbx; subst. by left.
    + right. apply (IH _ _ _ Hr). by exists k.
Qed.

Hypothesis ids_NoDup : NoDup (ids cs).

(** The ancestor a given number of replies above a comment is unique. *)
Lemma at_depth_ancestor a b n x :
  a ∈ cs → b ∈ cs → at_depth cs a n x → at_depth cs b n x → a = b.
Proof.
  intros Ha Hb Hax. revert b Hb.
  induction Hax as [|n c' c Hc' IH Hin Hroot Hp]; intros b Hb Hbx.
  - by inversion Hbx.
  - inversion Hbx as [|? c'' ? Hc'' Hin' Hroot' Hp']; subst.
    apply IH; [done|].
    assert (c' = c'') as ->; [|done].
    apply (same_id cs ids_NoDup);
      [exact (at_depth_elem a n c' Ha Hc')|exact (at_depth_elem b n c'' Hb Hc'')|congruence].
Qed.

(** A comment hangs below one root only, at one depth. *)
Lemma at_depth_one_root r1 r2 n m x :
  r1 ∈ cs → r2 ∈ cs → is_root r1 = true → is_root r2 = true →
  at_depth cs r1 n x → at_depth cs r2 m x → r1 = r2 ∧ n = m.
Proof.
  intros H1 H2 Hr1 Hr2 Hx. revert m.
  induction Hx as [|n c' c Hc' IH Hin Hroot Hp]; intros m Hm.
  - inversion Hm; subst; [done|congruence].
  - inversion Hm as [|m' c'' ? Hc'' Hin' Hroot' Hp']; subst; [congruence|].
    assert (c' = c'') as ->.
    { apply (same_id cs ids_NoDup);
        [exact (at_depth_elem r1 n c' H1 Hc')|exact (at_depth_elem r2 m' c'' H2 Hc'')
        |congruence]. }
    destruct (IH _ Hc'') as [-> ->]. done.
Qed.

(** A walk that returns shows no comment twice, when no comment is shown
    twice below one turn and no comment below two turns. *)
Lemma walk_NoDup (f : Comment.t → res node) l nodes :
  NoDup l → traverse f l = Ok nodes →
  (∀ rc nd, f rc = Ok nd → node_comment nd = rc) →
  (∀ rc nd, rc ∈ l → f rc = Ok nd → NoDup (node_comments nd)) →
  (∀ rc1 rc2 nd1 nd2 y, rc1 ∈ l → rc2 ∈ l → f rc1 = Ok nd1 → f rc2 = Ok nd2 →
     y ∈ node_comments nd1 → y ∈ node_comments nd2 → rc1 = rc2) →
  NoDup (rendered nodes).
Proof.
  intros Hl H Hfst Hnode Hone. pose proof (proj1 (traverse_Ok _ _ _) H) as HF.
  apply NoDup_concat_map.
  - apply (NoDup_fmap_1 node_comment).
    assert (node_comment <$> nodes = l) as ->; [|done].
    by apply (traverse_map_fst f node_comment l nodes).
  - intros nd Hnd. destruct (Forall2_elem_r _ _ _ _ HF Hnd) as (rc & Hrc & Hf).
    by apply (Hnode rc).
  - intros nd1 nd2 y Hnd1 Hnd2 Hy1 Hy2.
    destruct (Forall2_elem_r _ _ _ _ HF Hnd1) as (rc1 & Hrc1 & Hf1).
    destruct (Forall2_elem_r _ _ _ _ HF Hnd2) as (rc2 & Hrc2 & Hf2).
    assert (rc1 = rc2) as Hsame by (by apply (Hone rc1 rc2 nd1 nd2 y)).
    subst rc2. congruence.
Qed.

Lemma render_reply_comment d rc nd :
  render_reply d children rc = Ok nd → node_comment nd = rc.
Proof. by intros (_ & replies & -> & _)%render_reply_Ok. Qed.

(** What one turn shows of a comment hangs below it. *)
Lemma render_reply_shown d b nd y :
  render_reply d children b = Ok nd → y ∈ node_comments nd → ∃ k, at_depth cs b k y.
Proof.
  intros (_ & replies & -> & Hr)%render_reply_Ok Hy. cbn [node_comments] in Hy.
  apply elem_of_cons in Hy as [->|Hy]; [exists 0%nat; constructor|].
  apply (elem_of_rendered_below _ _ _ _ Hr) in Hy as [k Hk]. by exists (S k).
Qed.

Lemma rendered_below_NoDup r d n a nodes :
  r ∈ cs → is_root r = true → at_depth cs r n a →
  render_reply_tree d (Comment.id a) children = Ok nodes → NoDup (rendered nodes).
Proof.
  intros Hr Hroot. revert n a nodes. induction d as [|d IH]; intros n a nodes Ha; [done|].
  rewrite (render_reply_tree_S cs children kids_children). intros H.
  apply (walk_NoDup _ _ _) with (2 := H).
  - rewrite py_sorted_Permutation. apply NoDup_filter. by apply ids_NoDup_list.
  - apply render_reply_comment.
  - intros rc nd (Hin & Hrr & Hp)%sorted_children (_ & replies & -> & Hrep)%render_reply_Ok.
    assert (at_depth cs r (S n) rc) as Hrc by (by econstructor).
    cbn [node_comments]. constructor; [|by eapply IH].
    intros (k & Hk)%(elem_of_rendered_below _ _ _ _ Hrep).
    pose proof (at_depth_trans _ _ _ _ _ Hrc Hk) as Hdeep.
    pose proof (at_depth_unique cs r ids_NoDup Hr Hroot _ _ _ Hrc Hdeep). lia.
  - intros b1 b2 nd1 nd2 y (Hin1 & Hr1 & Hp1)%sorted_children
      (Hin2 & Hr2 & Hp2)%sorted_children Hf1 Hf2 Hy1 Hy2.
    destruct (render_reply_shown _ _ _ _ Hf1 Hy1) as [k1 Hb1].
    destruct (render_reply_shown _ _ _ _ Hf2 Hy2) as [k2 Hb2].
    assert (at_depth cs r (S n) b1) as Hrb1 by (by econstructor).
    assert (at_depth cs r (S n) b2) as Hrb2 by (by econstructor).
    pose proof (at_depth_trans _ _ _ _ _ Hrb1 Hb1) as Hd1.
    pose proof (at_depth_trans _ _ _ _ _ Hrb2 Hb2) as Hd2.
    assert (k1 = k2) as ->.
    { pose proof (at_depth_unique cs r ids_NoDup Hr Hroot _ _ _ Hd1 Hd2). lia. }
    by eapply at_depth_ancestor.
Qed.

Lemma rendered_NoDup (D : nat) (roots : list Comment.t) items :
  roots ≡ₚ roots_of cs →
  traverse (λ r, render_root D r children) roots = Ok items →
  NoDup (rendered items).
Proof.
  intros Hroots H.
  assert (∀ r, r ∈ roots → r ∈ cs ∧ is_root r = true) as Hr.
  { intros r Hin. rewrite Hroots in Hin. unfold roots_of in Hin.
    apply list_elem_of_filter in Hin. tauto. }
  apply (walk_NoDup _ _ _) with (2 := H).
  - rewrite Hroots. apply NoDup_filter. by apply ids_NoDup_list.
  - intros r nd. apply (render_reply_comment D r nd).
  - intros r nd [Hin Hroot]%Hr (_ & replies & -> & Hrep)%render_root_Ok.
    cbn [node_comments]. constructor.
    + intros (k & Hk)%(elem_of_rendered_below _ _ _ _ Hrep).
      apply at_depth_reply_not_root in Hk. congruence.
    + eapply (rendered_below_NoDup r D 0 r); [done..|constructor|done].
  - intros r1 r2 nd1 nd2 y [H1 Hr1]%Hr [H2 Hr2]%Hr Hf1 Hf2 Hy1 Hy2.
    destruct (render_reply_shown D r1 nd1 y Hf1 Hy1) as [k1 Hk1].
    destruct (render_reply_shown D r2 nd2 y Hf2 Hy2) as [k2 Hk2].
    by destruct (at_depth_one_root r1 r2 k1 k2 y).
Qed.

End rendered.

(** The items of a rendering that returns show exactly what hangs below a root. *)
Lemma rendered_elem cs children (D : nat) (roots : list Comment.t) items x :
  (∀ p, kids_at children p = children_of cs p) →
  roots ≡ₚ roots_of cs →
  traverse (λ r, render_root D r children) roots = Ok items →
  x ∈ rendered items ↔ ∃ r n, r ∈ roots_of cs ∧ at_depth cs r n x.
Proof.
  intros Hkids Hroots H. rewrite (elem_of_rendered_walk _ _ _ _ H). split.
  - intros (r & nd & Hr & Hnd & Hx). rewrite Hroots in Hr. exists r.
    destruct (render_reply_shown cs children Hkids D r nd x Hnd Hx) as [k Hk]. by exists k.
  - intros (r & n & Hr & Hx). rewrite <- Hroots in Hr.
    destruct (Forall2_elem_l _ _ _ _ (proj1 (traverse_Ok _ _ _) H) Hr) as (nd & _ & Hnd).
    exists r, nd. split; [done|]. split; [done|].
    apply render_root_Ok in Hnd as (_ & replies & -> & Hrep). cbn [node_comments].
    destruct n as [|n]; [inversion Hx; by left|].
    right. apply (elem_of_rendered_below cs children Hkids _ _ _ _ Hrep). by exists n.
Qed.

Lemma build_html_items depth comments items :
  doc_items (build_html depth comments) = Ok items →
  let cs := map (λ c, Comment.set_parent_id c (reconciled_parent comments c)) comments in
  ∃ children roots,
    (∀ p, kids_at children p = children_of cs p) ∧ roots ≡ₚ roots_of cs
    ∧ traverse (λ r, render_root depth r children) roots = Ok items.
Proof.
  rewrite build_html_unfold. cbv zeta. cbn [doc_items]. rewrite reconcile_parents_map.
  intros H.
  set (cs := map (λ c, Comment.set_parent_id c (reconciled_parent comments c)) comments) in *.
  destruct (group_all cs) as [Hroots Hkids].
  exists (foldl group (∅, []) cs).1, (py_sorted_reverse (le_key Comment.sort) (roots_of cs)).
  split; [done|]. split; [apply py_sorted_reverse_Permutation|]. by rewrite <- Hroots.
Qed.

Lemma reachable_in cs r n c : r ∈ roots_of cs → at_depth cs r n c → c ∈ cs.
Proof.
  intros [_ Hr]%list_elem_of_filter Hc. by destruct Hc.
Qed.

(** X26. When the rendering returns, the document shows no comment twice and
    only comments of the collection it was given, each with its reconciled
    parent, every root of the collection among them; so it shows at most as
    many comments as the count in its header, which is the size of the whole
    collection. *)
Theorem rendered_once (depth : nat) (comments : list Comment.t) (items : list node) :
  NoDup (ids comments) →
  doc_items (build_html depth comments) = Ok items →
  let cs := map (λ c, Comment.set_parent_id c (reconciled_parent comments c)) comments in
  NoDup (rendered items)
  ∧ (∀ c, c ∈ rendered items → c ∈ cs)
  ∧ (∀ r, r ∈ roots_of comments → Comment.set_parent_id r 0 ∈ rendered items)
  ∧ (length (rendered items) ≤ doc_total_comments (build_html depth comments))%nat
  ∧ doc_total_comments (build_html depth comments) = length comments.
Proof.
  intros Hnd H cs.
  destruct (build_html_items depth comments items H) as (children & roots & Hkids & Hroots & Hw).
  fold cs in Hkids, Hroots.
  assert (NoDup (ids cs)) as Hnd'.
  { unfold cs. by rewrite <- reconcile_parents_map, reconcile_parents_ids. }
  pose proof (rendered_NoDup cs children Hkids Hnd' depth roots items Hroots Hw) as Hn.
  pose proof (λ x, rendered_elem cs children depth roots items x Hkids Hroots Hw) as He.
  assert (∀ c, c ∈ rendered items → c ∈ cs) as Hsub.
  { intros c (r & n & Hr & Hc)%He. by eapply reachable_in. }
  assert (doc_total_comments (build_html depth comments) = length comments) as Htotal.
  { rewrite build_html_unfold. cbv zeta. cbn [doc_total_comments].
    unfold reconcile_parents. by rewrite length_map. }
  split; [done|]. split; [done|]. split.
  { intros r Hr. apply He. exists (Comment.set_parent_id r 0), 0%nat. split; [|constructor].
    unfold cs. rewrite roots_of_reconciled. apply list_elem_of_fmap. by exists r. }
  split; [|done].
  rewrite Htotal. replace (length comments) with (length cs) by (unfold cs; by rewrite length_map).
  apply submseteq_length, NoDup_submseteq; [done|]. intros c Hc. by apply Hsub.
Qed.

(** X26, on a root and a reply without its root. *)
Lemma rendered_once_witness :
  NoDup (ids orphan_comments)
  ∧ doc_items (build_html 1000 orphan_comments) = Ok orphan_items
  ∧ NoDup (rendered orphan_items)
  ∧ (length (rendered orphan_items)
     ≤ doc_total_comments (build_html 1000 orphan_comments))%nat.
Proof.
  assert (NoDup (ids orphan_comments)) as H.
  { apply (bool_decide_unpack _). vm_compute. reflexivity. }
  assert (doc_items (build_html 1000 orphan_comments) = Ok orphan_items) as Hi.
  { vm_compute. reflexivity. }
  split; [exact H|]. split; [exact Hi|].
  split; [exact (proj1 (rendered_once 1000 orphan_comments orphan_items H Hi))|].
  exact (proj1 (proj2 (proj2 (proj2 (rendered_once 1000 orphan_comments orphan_items H Hi))))).
Defined.

(** X27. When the rendering returns, the document shows exactly the roots of
    the collection it was given and the replies that a chain of reconciled
    parents links to one of them. A reply whose reconciled parent is not the
    id of a comment of the collection is left out, though the count in the
    header includes it. *)
Theorem rendered_iff_reachable (depth : nat) (comments : list Comment.t) (items : list node) :
  doc_items (build_html depth comments) = Ok items →
  let cs := map (λ c, Comment.set_parent_id c (reconciled_parent comments c)) comments in
  (∀ c, c ∈ rendered items ↔ ∃ r n, r ∈ roots_of cs ∧ at_depth cs r n c)
  ∧ (∀ c, c ∈ comments → is_root c = false →
       reconciled_parent comments c ∉ ids comments →
       Comment.set_parent_id c (reconciled_parent comments c) ∉ rendered items)
  ∧ doc_total_comments (build_html depth comments) = length comments.
Proof.
  intros H cs.
  destruct (build_html_items depth comments items H) as (children & roots & Hkids & Hroots & Hw).
  fold cs in Hkids, Hroots.
  pose proof (λ x, rendered_elem cs children depth roots items x Hkids Hroots Hw) as He.
  split; [done|]. split.
  - intros c Hin Hroot Hp (r & n & Hr & Hc)%He.
    inversion Hc as [Heq|n' c' ? Hc' Hin' Hroot' Hpar]; subst.
    + apply list_elem_of_filter in Hr as [Hr _].
      rewrite is_root_set_parent_id in Hr. congruence.
    + apply Hp. cbn in Hpar. rewrite Hpar.
      assert (c' ∈ cs) as Hc'in by (by eapply reachable_in).
      replace (ids comments) with (ids cs)
        by (unfold cs; by rewrite <- reconcile_parents_map, reconcile_parents_ids).
      unfold ids. apply list_elem_of_fmap. by exists c'.
  - rewrite build_html_unfold. cbv zeta. cbn [doc_total_comments].
    unfold reconcile_parents. by rewrite length_map.
Qed.

Example orphan_reply_left_out :
  doc_items (build_html 1000 orphan_comments) = Ok orphan_items
  ∧ map Comment.id (rendered orphan_items) = [1]
  ∧ doc_total_comments (build_html 1000 orphan_comments) = 2%nat
  ∧ map (fun c => (Comment.id c, Comment.parent_id c))
      (doc_comments (build_html 1000 orphan_comments)) = [(1, 0); (5, 99)].
Proof. repeat split; vm_compute; reflexivity. Qed.

(** X27, on a root and a reply without its root. *)
Lemma rendered_iff_reachable_witness :
  doc_items (build_html 1000 orphan_comments) = Ok orphan_items
  ∧ ∀ c, c ∈ orphan_comments → is_root c = false →
      reconciled_parent orphan_comments c ∉ ids orphan_comments →
      Comment.set_parent_id c (reconciled_parent orphan_comments c) ∉ rendered orphan_items.
Proof.
  assert (doc_items (build_html 1000 orphan_comments) = Ok orphan_items) as Hi.
  { vm_compute. reflexivity. }
  split; [exact Hi|].
  exact (proj1 (proj2 (rendered_iff_reachable 1000 orphan_comments orphan_items Hi))).
Defined.

(** ** The markup of one comment *)

Lemma all_chars_count_other f x s :
  all_chars f s = true → f x = false → count_char x s = O.
Proof.
  intros Hs Hx. induction s as [|c s IH]; [done|].
  cbn [all_chars count_char] in *. apply andb_prop in Hs as [Hc Hs].
  destruct (Ascii.eqb_spec c x) as [->|_]; [congruence|]. by rewrite IH.
Qed.

Lemma pretty_count x (n : Z) :
  is_digit x = false → x ≠ "-"%char → count_char x (pretty n) = O.
Proof.
  intros Hx Hm. destruct n as [|p|p].
  - change (pretty 0) with "0". cbn [count_char].
    destruct (Ascii.eqb_spec "0"%char x) as [<-|_]; [done|done].
  - apply (all_chars_count_other is_digit); [apply pretty_pos_digits|done].
  - change (pretty (Zneg p)) with (String "-"%char (pretty (Zpos p))).
    cbn [count_char]. destruct (Ascii.eqb_spec "-"%char x) as [<-|_]; [done|].
    apply (all_chars_count_other is_digit); [apply pretty_pos_digits|done].
Qed.

Lemma join_count x sep xs :
  count_char x (join sep xs) =
    (list_sum (map (count_char x) xs) + pred (length xs) * count_char x sep)%nat.
Proof.
  induction xs as [|a [|b xs] IH]; [done|cbn; lia|].
  change (join sep (a :: b :: xs)) with (String.app a (String.app sep (join sep (b :: xs)))).
  rewrite !count_char_app, IH. cbn [map length pred]. unfold list_sum. cbn [fold_right]. lia.
Qed.

Lemma render_badges_count u :
  count_char "<"%char (render_badges u) = (2 * badges u)%nat
  ∧ count_char ">"%char (render_badges u) = (2 * badges u)%nat.
Proof. unfold render_badges, badges. by destruct (User.admin u), (User.is_verified u). Qed.

Lemma figure_count item :
  count_char "<"%char (figure item) = 7%nat ∧ count_char ">"%char (figure item) = 7%nat
  ∧ count_char dq (figure item) = 8%nat.
Proof.
  destruct item as [orig data]. unfold figure.
  rewrite !count_char_app. unfold safe_attr.
  rewrite !html_escape_count by auto. done.
Qed.

(** X28. The texts taken from the payload cannot add markup: however the names,
    the addresses and the time read, the avatar, the header line and the
    embedded images hold exactly the tags, and the avatar and the images
    exactly the double quotes, that the templates write. *)
Theorem payload_adds_no_markup :
  (∀ u, count_char "<"%char (render_ava u) = (if nonempty (ava_src u) then 3 else 2)%nat
        ∧ count_char ">"%char (render_ava u) = (if nonempty (ava_src u) then 3 else 2)%nat
        ∧ count_char dq (render_ava u) = (if nonempty (ava_src u) then 6 else 2)%nat)
  ∧ (∀ u when rating,
       count_char "<"%char (hdr_line u when rating) =
         (6 + 2 * badges u + (if (rating =? 0)%Z then 0 else 2))%nat
       ∧ count_char ">"%char (hdr_line u when rating) =
         (6 + 2 * badges u + (if (rating =? 0)%Z then 0 else 2))%nat)
  ∧ (∀ c imgs items,
       imgs !! Comment.id c = Some items → items ≠ [] →
       count_char "<"%char (render_embedded_images c imgs) = (2 + 7 * length items)%nat
       ∧ count_char ">"%char (render_embedded_images c imgs) = (2 + 7 * length items)%nat
       ∧ count_char dq (render_embedded_images c imgs) = (2 + 8 * length items)%nat).
Proof.
  split; [|split].
  - intros u. unfold render_ava. fold (ava_src u).
    destruct (nonempty (ava_src u)).
    + rewrite !count_char_app. unfold safe_attr. rewrite !html_escape_count by auto. done.
    + rewrite !count_char_app, !html_escape_count by auto. done.
  - intros u when rating. unfold hdr_line.
    destruct (render_badges_count u) as [Hb1 Hb2].
    rewrite !count_char_app, !html_escape_count, Hb1, Hb2 by auto.
    destruct (rating =? 0).
    + cbn. lia.
    + rewrite !count_char_app. cbn [py_str py_repr].
      rewrite !pretty_count by done. cbn. lia.
  - intros c imgs items Hl Hne. unfold render_embedded_images. rewrite Hl.
    cbn [default from_option id]. destruct items as [|i items]; [done|].
    rewrite !count_char_app, !join_count, length_map.
    assert (∀ l, list_sum (map (count_char "<"%char) (map figure l)) = (7 * length l)%nat
               ∧ list_sum (map (count_char ">"%char) (map figure l)) = (7 * length l)%nat
               ∧ list_sum (map (count_char dq) (map figure l)) = (8 * length l)%nat) as Hsum.
    { induction l as [|x l (IH1 & IH2 & IH3)]; [done|].
      destruct (figure_count x) as (F1 & F2 & F3).
      cbn [map length]. unfold list_sum in *. cbn [fold_right]. rewrite IH1, IH2, IH3, F1, F2, F3. lia. }
    destruct (Hsum (i :: items)) as (-> & -> & ->).
    replace (count_char "<"%char nl) with O by (vm_compute; reflexivity).
    replace (count_char ">"%char nl) with O by (vm_compute; reflexivity).
    replace (count_char dq nl) with O by (vm_compute; reflexivity).
    cbn. lia.
Qed.

(** X28, on an image address with angle brackets. *)
Lemma payload_adds_no_markup_witness :
  count_char "<"%char
    (render_embedded_images (comment_of [("id", JInt 7)])
       {[ 7 := [("https://h/a.png?<x>", "data:image/png;base64,iVA=")] ]}) = 9%nat.
Proof.
  apply (proj2 (proj2 payload_adds_no_markup) (comment_of [("id", JInt 7)])
           {[ 7 := [("https://h/a.png?<x>", "data:image/png;base64,iVA=")] ]}
           [("https://h/a.png?<x>", "data:image/png;base64,iVA=")]);
    [reflexivity|discriminate].
Defined.

Lemma only_attr_ok {A} (a : A) : only_attribute_error (Ok a).
Proof. by intros e. Qed.

Lemma only_attr_bind {A B} (m : res A) (k : A → res B) :
  only_attribute_error m → (∀ a, only_attribute_error (k a)) →
  only_attribute_error (rbind m k).
Proof.
  intros Hm Hk e. destruct m as [a|e']; cbn [rbind]; [exact (Hk a e)|].
  intros [= <-]. by apply (Hm e').
Qed.

Lemma only_attr_dict_get d k dflt : only_attribute_error (dict_get d k dflt).
Proof. intros e. destruct d; cbn [dict_get]; congruence. Qed.

Lemma only_attr_escape_value v : only_attribute_error (escape_value v).
Proof. intros e. destruct v; cbn; congruence. Qed.

Ltac only_attr :=
  repeat first
    [ apply only_attr_ok
    | apply only_attr_dict_get
    | apply only_attr_escape_value
    | apply only_attr_bind; [|intros ?]
    | match goal with
      | |- only_attribute_error (if ?b then _ else _) => destruct b
      | |- only_attribute_error (match ?x with _ => _ end) => destruct x
      end ].

Lemma render_attach_only_attr a : only_attribute_error (render_attach a).
Proof. unfold render_attach. only_attr. Qed.

Lemma attach_pieces_only_attr atts : only_attribute_error (attach_pieces atts).
Proof.
  induction atts as [|a atts IH]; cbn [attach_pieces]; [apply only_attr_ok|].
  apply only_attr_bind; [apply render_attach_only_attr|]. intros p.
  apply only_attr_bind; [apply IH|]. intros out. apply only_attr_ok.
Qed.

Lemma render_attach_unknown a : unknown_attach a → render_attach a = Ok None.
Proof.
  intros (kvs & -> & Hr & Hg). unfold render_attach. cbn [dict_get]. rstep.
  fold (field kvs "type" JNull). by rewrite Hr, Hg.
Qed.

Lemma render_attach_broken a : broken_preview a → render_attach a = Ok None.
Proof.
  intros (kvs & -> & Hr & Ht & Hd). unfold render_attach. cbn [dict_get]. rstep.
  fold (field kvs "type" JNull) (field kvs "data" JNull). rewrite Hr, Hd. cbn [andb].
  destruct (field kvs "type" JNull) as [| | | |s| |]; try done.
  cbn [is_richpreview] in Hr. apply String.eqb_eq in Hr as ->. done.
Qed.

Lemma add_attach_urls_broken urls atts a :
  a ∈ atts → broken_preview a → is_ok (add_attach_urls urls atts) = false.
Proof.
  intros Hin Ha. revert urls. induction atts as [|b atts IH]; intros urls.
  { by apply elem_of_nil in Hin. }
  cbn [add_attach_urls]. apply elem_of_cons in Hin as [<-|Hin].
  - destruct Ha as (kvs & -> & Hr & Ht & Hd). cbn [dict_get]. rstep.
    fold (field kvs "type" JNull) (field kvs "data" JNull). rewrite Hr.
    unfold py_or at 1. rewrite Ht.
    by destruct (field kvs "data" JNull).
  - rewrite is_ok_rbind. destruct (dict_get b "type" JNull) as [ty|]; [|done].
    destruct (is_richpreview ty); [|by apply IH].
    rewrite is_ok_rbind. destruct (dict_get b "data" JNull) as [v_data|]; [|done].
    rewrite is_ok_rbind. destruct (dict_get _ "url" JNull) as [v_url|]; [|done].
    rewrite is_ok_rbind. destruct (as_str _) as [u|]; [|done]. by apply IH.
Qed.

(** X29. The attachments in the markup: [render_attaches] on a list fails with
    [AttributeError] or not at all, attachments of a type it does not know
    leave no trace, and it passes over a rich preview whose data is not a
    dict. The image-link discovery, which runs before any rendering, fails on
    such a preview, so that run never gets to the markup. *)
Theorem render_attaches_errors :
  (∀ atts e, render_attaches (JArr atts) = Raise e → e = AttributeError)
  ∧ (∀ atts, Forall unknown_attach atts → render_attaches (JArr atts) = Ok EmptyString)
  ∧ (∀ a, broken_preview a → render_attaches (JArr [a]) = Ok EmptyString)
  ∧ (∀ c atts a,
       py_iter (py_or (Comment.attaches c) (JArr [])) = Ok atts → a ∈ atts →
       broken_preview a → is_ok (discover_image_links c) = false).
Proof.
  split; [|split; [|split]].
  - intros atts. unfold render_attaches. cbn [py_iter]. rstep.
    apply only_attr_bind; [apply attach_pieces_only_attr|]. intros out. apply only_attr_ok.
  - intros atts Hall. unfold render_attaches. cbn [py_iter]. rstep.
    assert (attach_pieces atts = Ok []) as ->; [|done].
    induction Hall as [|a atts Ha Hall IH]; [done|].
    cbn [attach_pieces]. by rewrite (render_attach_unknown a Ha), IH.
  - intros a Ha. unfold render_attaches. cbn [py_iter]. rstep. cbn [attach_pieces].
    by rewrite (render_attach_broken a Ha).
  - intros c atts a Hit Hin Ha. unfold discover_image_links. rewrite Hit. rstep.
    rewrite is_ok_rbind.
    pose proof (add_attach_urls_broken
                  (foldl add_if_image (foldl add_if_image ∅ (HREF_RE_findall (Comment.text_html c)))
                     (PLAIN_URL_RE_findall (Comment.text_html c))) atts a Hin Ha) as Hbad.
    by destruct (add_attach_urls _ atts).
Qed.

(** X29, on a rich preview whose data is a list. *)
Lemma render_attaches_errors_witness :
  render_attaches (JArr [JObj [("type", JStr "richpreview"); ("data", JArr [JInt 1])]]) =
    Ok EmptyString.
Proof.
  apply (proj1 (proj2 (proj2 render_attaches_errors))
           (JObj [("type", JStr "richpreview"); ("data", JArr [JInt 1])])).
  exists [("type", JStr "richpreview"); ("data", JArr [JInt 1])]. by repeat split.
Defined.

Lemma items_by_comment_nonempty cache pcu cid items :
  items_by_comment cache pcu !! cid = Some items → items ≠ [].
Proof.
  unfold items_by_comment. rewrite lookup_omap.
  destruct (pcu !! cid) as [ulist|]; [|done]. cbn.
  destruct (resolved_items cache ulist); [done|]. by intros [= <-].
Qed.

(** X30. After the linked-image pass a comment gets the block of embedded images
    exactly when the pass left an entry under its id. *)
Theorem embedded_images_shown_iff_resolved (W : world) (cs : list Comment.t)
    (tr tr' : list event) (imgs : gmap Z (list (string * string))) :
  embed_linked_images W cs tr = (Ok imgs, tr') →
  ∀ c, render_embedded_images c imgs = EmptyString ↔ imgs !! Comment.id c = None.
Proof.
  intros Hrun c. unfold render_embedded_images.
  destruct (imgs !! Comment.id c) as [items|] eqn:Hl; cbn [default from_option id].
  - assert (items ≠ []) as Hne.
    { revert Hrun Hl. unfold embed_linked_images, bind, lift.
      destruct (gather_links cs ∅ ∅) as [g|]; [|done].
      destruct (fill_cache W _ ∅ tr) as [[cache|] tr1]; [|done].
      intros [= <- <-]. apply items_by_comment_nonempty. }
    destruct items as [|i items]; [done|]. split; [|done].
    cbv [String.append markup]. discriminate.
  - done.
Qed.

(** X30, on a comment with two image links. *)
Lemma embedded_images_shown_iff_resolved_witness :
  ∃ imgs tr',
    embed_linked_images (images_world true) [two_links] [] = (Ok imgs, tr')
    ∧ ∀ c, render_embedded_images c imgs = EmptyString ↔ imgs !! Comment.id c = None.
Proof.
  destruct (embed_linked_images (images_world true) [two_links] []) as [[imgs|e] tr'] eqn:Hrun.
  - exists imgs, tr'. split; [reflexivity|].
    exact (embedded_images_shown_iff_resolved _ _ _ _ _ Hrun).
  - vm_compute in Hrun. discriminate Hrun.
Defined.
